(** * Base: the model layer of ibrokethat/Base (src/Base.js)

    A shallow embedding of the model definition and instantiation engine:
    definition merge (__preCreate__), property and relationship
    materialisation, the write pipeline (set), construction (__init__) and
    the inbound reconciler (sync).  JavaScript objects that the code mutates
    (instances, collections, the process-wide event bus) live in an explicit
    world that every operation threads; exceptions are an explicit outcome. *)

From Stdlib Require Import ZArith String List Bool Lia DecimalString.
From stdpp Require Import base tactics option list.

Set Warnings "-register-all".
Local Open Scope string_scope.
Local Open Scope list_scope.

(** ** JavaScript values *)

(** Instances and collections are referred to by their address in the
    world. *)
Abbreviation ref := nat (only parsing).

(** [VArr a xs] is the array object allocated as number [a], holding [xs]:
    the code never updates an array in place, so an array is its identity
    together with its elements.  [VObj] is a plain record of raw data. *)
Inductive value :=
| VUndef
| VNull
| VBool (b : bool)
| VNum (n : Z)
| VStr (s : string)
| VArr (a : nat) (xs : list value)
| VObj (fields : list (string * value))
| VInst (r : ref)
| VColl (c : ref).

(** ToBoolean. *)
Definition truthy (v : value) : bool :=
  match v with
  | VUndef | VNull => false
  | VBool b => b
  | VNum n => negb (n =? 0)%Z
  | VStr s => negb (s =? "")
  | _ => true
  end.

(** ToString, as used by [model.id + "-" + name]. *)
Fixpoint to_string (v : value) : string :=
  match v with
  | VUndef => "undefined"
  | VNull => "null"
  | VBool true => "true"
  | VBool false => "false"
  | VNum n => NilEmpty.string_of_int (Z.to_int n)
  | VStr s => s
  | VArr _ xs =>
      (fix join (l : list value) : string :=
         match l with
         | [] => ""
         | x :: l' =>
             let s := match x with VUndef | VNull => "" | _ => to_string x end in
             match l' with [] => s | _ => String.append s (String.append "," (join l')) end
         end) xs
  | VObj _ | VInst _ | VColl _ => "[object Object]"
  end.

(** typeOf('undefined', v) and typeOf('array', v). *)
Definition is_undefined (v : value) : bool :=
  match v with VUndef => true | _ => false end.

Definition is_array (v : value) : bool :=
  match v with VArr _ _ => true | _ => false end.

(** The values that are objects: a property assigned to them stays, where
    one assigned to a primitive is dropped. *)
Definition is_object (v : value) : bool :=
  match v with VArr _ _ | VObj _ | VInst _ | VColl _ => true | _ => false end.

(** The characters of a string, each a string of its own. *)
Definition chars (s : string) : list value :=
  map (fun c => VStr (String c EmptyString)) (list_ascii_of_string s).

(** The property name of an index. *)
Definition index_name (n : nat) : string :=
  NilEmpty.string_of_uint (Nat.to_uint n).

(** ** Dictionaries

    A JavaScript object used as a dictionary: its own keys in insertion
    order.  (Keys that look like array indices, which JavaScript enumerates
    first, and keys inherited from Object.prototype are not modelled.) *)

Abbreviation dict A := (list (string * A)) (only parsing).

Fixpoint dict_get {A} (k : string) (d : dict A) : option A :=
  match d with
  | [] => None
  | (k', v) :: d' => if k' =? k then Some v else dict_get k d'
  end.

(** hasOwnKey(key, object) *)
Definition hasOwnKey {A} (k : string) (d : dict A) : bool :=
  match dict_get k d with Some _ => true | None => false end.

(** object[key] = value *)
Fixpoint dict_set {A} (k : string) (v : A) (d : dict A) : dict A :=
  match d with
  | [] => [(k, v)]
  | (k', v') :: d' => if k' =? k then (k', v) :: d' else (k', v') :: dict_set k v d'
  end.

Definition keys {A} (d : dict A) : list string := map fst d.

(** data[name] on a raw record: undefined when the key is missing. *)
Definition dict_get_value (k : string) (d : dict value) : value :=
  match dict_get k d with Some v => v | None => VUndef end.

(** The own properties of an array or of a string: its elements under
    their indices, then [length]. *)
Definition indexed (xs : list value) : dict value :=
  combine (map index_name (seq 0 (length xs))) xs
  ++ [("length", VNum (Z.of_nat (length xs)))].

(** Modelled from the spec: forEach, chain and reduce of super-iter are
    outside the repository.  They visit an object that has a truthy [length]
    as an array, by index below that length, and any other object by its own
    enumerable keys.  The dictionaries of a definition hold declarations,
    definitions and observers, which are objects: in a dictionary with a key
    named [length] the bound is not a number, and no entry is visited. *)
Definition entries {A} (d : dict A) : dict A :=
  if hasOwnKey "length" d then [] else d.

(** ** Model definitions *)

(** An observer [function () { this.p = e }] registered under
    [on: { watched: observer }] of property [p]: it reads properties of the
    instance it is bound to and may assign the declaring property. *)
Definition observer := (string -> value) -> option value.

(** The declared type of a property is a primitive tag, the Collection
    prototype, or a model definition.  The setter of a property is the
    declaration's own [set] function, the one of Base's [edit] property, or
    the one initHasOne installs.  Both are used with [D := defn]. *)
Inductive type_of (D : Type) :=
| TString
| TNumber
| TBoolean
| TArray
| TCollection
| TModel (d : D).

Inductive setter_of (D : Type) :=
| SetFn (f : value -> value)
| SetEdit
| SetHasOne (relation : D).

Arguments TString {D}.
Arguments TNumber {D}.
Arguments TBoolean {D}.
Arguments TArray {D}.
Arguments TCollection {D}.
Arguments TModel {D} d.
Arguments SetFn {D} f.
Arguments SetEdit {D}.
Arguments SetHasOne {D} relation.

(** A definition is a prototype object: [dname] stands for its identity and
    [ancestors] lists the identities of the definitions it was extended from,
    nearest first. *)
Inductive defn := Defn {
  dname : string;
  ancestors : list string;
  EDIT_EVENT : value;
  properties : list (string * decl);
  hasMany : list (string * defn);
  hasOne : list (string * defn) }
with decl := Decl {
  p_type : option (type_of defn);
  p_defaultValue : value;
  p_sync : bool;
  p_get : option (value -> value);
  p_set : option (setter_of defn);
  p_on : list (string * observer);
  p_enumerable : option bool }.

Definition type := type_of defn.
Definition setter := setter_of defn.

(** ** The world: instances, collections, the event bus *)

(** An own property of an instance: an accessor installed by createProperty
    (with the declaration its getter and setter close over), or an ordinary
    data property. *)
Inductive slot :=
| Accessor (definition : decl) (enumerable : bool)
| Plain (v : value).

(** An instance: its prototype (the definition it was created from), its own
    properties in creation order, the private [_data] object, the
    [_dropsync] flag and the listeners registered with [model.on]: under
    the watched event name, the declaring property and its observer.  The
    listeners are what the emitter keeps in its [_events] field. *)
Record instance := Instance {
  proto : defn;
  own : dict slot;
  _data : dict value;
  _dropsync : bool;
  listeners : list (string * (string * observer)) }.

(** Modelled from the spec: the ordered collection of super-collection is
    outside the repository; it is constructed with [{type, id}], [add]
    appends an item and [items] lists them in order. *)
Record collection := Collection {
  c_type : defn;
  c_id : string;
  items : list value }.

(** What Base.js calls [process.emit(name, payload)] with.  A sync payload
    is [{id, property, value}]; [src] records the instance whose write
    emitted it (the [model] of set), which the payload itself does not
    carry. *)
Inductive payload :=
| SyncPayload (src : ref) (id : value) (property : string) (v : value)
| EditPayload (model : option ref)
| RegistryPayload (model : ref).

(** [bus] lists the events that Base.js emits on [process], in order; what
    the libraries emit there is not followed. *)
Record world := World {
  heap : list instance;
  collections : list collection;
  arrays : nat;
  uuids : nat;
  bus : list (value * payload);
  emitted : list (ref * string * value) }.

Definition with_heap (h : list instance) (w : world) : world :=
  World h (collections w) (arrays w) (uuids w) (bus w) (emitted w).
Definition with_collections (c : list collection) (w : world) : world :=
  World (heap w) c (arrays w) (uuids w) (bus w) (emitted w).
Definition with_arrays (n : nat) (w : world) : world :=
  World (heap w) (collections w) n (uuids w) (bus w) (emitted w).
Definition with_uuids (n : nat) (w : world) : world :=
  World (heap w) (collections w) (arrays w) n (bus w) (emitted w).
Definition with_bus (b : list (value * payload)) (w : world) : world :=
  World (heap w) (collections w) (arrays w) (uuids w) b (emitted w).
Definition with_emitted (l : list (ref * string * value)) (w : world) : world :=
  World (heap w) (collections w) (arrays w) (uuids w) (bus w) l.

Definition empty_world : world := World [] [] 0 0 [] [].

Definition update_instance (r : ref) (f : instance -> instance) (w : world) : world :=
  with_heap (alter f r (heap w)) w.

Definition with_own (o : dict slot) (i : instance) : instance :=
  Instance (proto i) o (_data i) (_dropsync i) (listeners i).
Definition with_data (d : dict value) (i : instance) : instance :=
  Instance (proto i) (own i) d (_dropsync i) (listeners i).
Definition with_dropsync (b : bool) (i : instance) : instance :=
  Instance (proto i) (own i) (_data i) b (listeners i).
Definition with_listeners (l : list (string * (string * observer))) (i : instance) : instance :=
  Instance (proto i) (own i) (_data i) (_dropsync i) l.

Definition own_of (w : world) (r : ref) : dict slot :=
  match heap w !! r with Some i => own i | None => [] end.
Definition data_of (w : world) (r : ref) : dict value :=
  match heap w !! r with Some i => _data i | None => [] end.
Definition dropsync_of (w : world) (r : ref) : bool :=
  match heap w !! r with Some i => _dropsync i | None => false end.
Definition listeners_of (w : world) (r : ref) : list (string * (string * observer)) :=
  match heap w !! r with Some i => listeners i | None => [] end.

(** model.properties, model.hasMany, model.hasOne and model.EDIT_EVENT are
    found on the prototype. *)
Definition model_properties (w : world) (r : ref) : dict decl :=
  match heap w !! r with Some i => properties (proto i) | None => [] end.
Definition model_hasMany (w : world) (r : ref) : dict defn :=
  match heap w !! r with Some i => hasMany (proto i) | None => [] end.
Definition model_hasOne (w : world) (r : ref) : dict defn :=
  match heap w !! r with Some i => hasOne (proto i) | None => [] end.
Definition edit_event_of (w : world) (this : option ref) : value :=
  match this with
  | Some r => match heap w !! r with Some i => EDIT_EVENT (proto i) | None => VUndef end
  | None => VUndef
  end.

(** hasOwnKey(name, model): [_data] and [_dropsync] are own properties too. *)
Definition hasOwnKey_model (w : world) (name : string) (r : ref) : bool :=
  (name =? "_data") || (name =? "_dropsync") || hasOwnKey name (own_of w r).

(** The names forEach(model, ...) visits: the own enumerable properties. *)
Definition enumerable_keys (w : world) (r : ref) : list string :=
  keys (List.filter (fun kv => match snd kv with Accessor _ e => e | Plain _ => true end)
                    (own_of w r)).

(** Reading model[name]: an accessor runs the declaration's getter on
    [this._data[name]]. *)
Definition getter (definition : decl) (stored : value) : value :=
  match p_get definition with Some f => f stored | None => stored end.

Definition read (w : world) (r : ref) (name : string) : value :=
  match dict_get name (own_of w r) with
  | Some (Accessor definition _) => getter definition (dict_get_value name (data_of w r))
  | Some (Plain v) => v
  | None => if name =? "_dropsync" then VBool (dropsync_of w r) else VUndef
  end.

(** Modelled from the spec: typeOf and enforce of super-is are outside the
    repository.  A value satisfies a primitive tag by its runtime type, the
    Collection prototype by being a collection, and a model definition by
    having it on its prototype chain. *)
Definition typeOf (w : world) (t : type) (v : value) : bool :=
  match t, v with
  | TString, VStr _ => true
  | TNumber, VNum _ => true
  | TBoolean, VBool _ => true
  | TArray, VArr _ _ => true
  | TCollection, VColl _ => true
  | TModel d, VInst r =>
      match heap w !! r with
      | Some i => existsb (String.eqb (dname d)) (dname (proto i) :: ancestors (proto i))
      | None => false
      end
  | _, _ => false
  end.

(** typeOf(Base, type): is the declared type a definition extended from
    Base? *)
Definition is_model_type (t : option type) : bool :=
  match t with
  | Some (TModel d) => existsb (String.eqb "Base") (ancestors d)
  | _ => false
  end.

(** ** Outcomes *)

(** What the code throws: a violation raised by enforce, a TypeError of the
    runtime, or the array [e.errors] thrown by __init__.  That array is an
    object of its own, made by the top-level call that throws it: [owner]
    is the instance that call was constructing. *)
Inductive error :=
| TypeViolation (t : type) (v : value)
| TypeError (msg : string)
| Errors (owner : ref) (errors : list error).

(** [OutOfFuel]: the run is not followed to its end, because the calls nest
    deeper than the bound of [engine], or because the next step depends on
    the layout of an object that a library keeps to itself (see
    [beyond]). *)
Inductive outcome (A : Type) :=
| Ok (a : A)
| Throw (e : error)
| OutOfFuel.

Arguments Ok {A} a.
Arguments Throw {A} e.
Arguments OutOfFuel {A}.

Definition M (A : Type) := world -> outcome A * world.

Definition ret {A} (a : A) : M A := fun w => (Ok a, w).
Definition throw {A} (e : error) : M A := fun w => (Throw e, w).
Definition bind {A B} (m : M A) (f : A -> M B) : M B := fun w =>
  match m w with
  | (Ok a, w') => f a w'
  | (Throw e, w') => (Throw e, w')
  | (OutOfFuel, w') => (OutOfFuel, w')
  end.
Definition try_catch {A} (m : M A) (handler : error -> M A) : M A := fun w =>
  match m w with
  | (Throw e, w') => handler e w'
  | r => r
  end.
Definition gets {A} (f : world -> A) : M A := fun w => (Ok (f w), w).
Definition modify (f : world -> world) : M unit := fun w => (Ok tt, f w).

(** A step that the model does not follow. *)
Definition beyond {A} : M A := fun w => (OutOfFuel, w).

Notation "'do' x <- m ; f" := (bind m (fun x => f))
  (at level 10, x name, m at level 100, f at level 200).
Notation "'do' ' p <- m ; f" := (bind m (fun x => match x with p => f end))
  (at level 10, p pattern, m at level 100, f at level 200).
Notation "m ;; f" := (bind m (fun _ => f))
  (at level 100, f at level 200, right associativity).

Fixpoint forEach {A} (l : list A) (f : A -> M unit) : M unit :=
  match l with
  | [] => ret tt
  | x :: l' => f x ;; forEach l' f
  end.

(** A loop that carries the error sink. *)
Fixpoint forEach_with {A S} (l : list A) (f : A -> S -> M S) (s : S) : M S :=
  match l with
  | [] => ret s
  | x :: l' => do s' <- f x s; forEach_with l' f s'
  end.

(** ** Primitive effects *)

(** process.emit(name, payload) *)
Definition process_emit (name : value) (p : payload) : M unit :=
  modify (fun w => with_bus (bus w ++ [(name, p)]) w).

(** enforce(type, value) *)
Definition enforce (t : type) (v : value) : M unit := fun w =>
  if typeOf w t v then (Ok tt, w) else (Throw (TypeViolation t v), w).

(** Modelled from the spec: the identifier generator (node-uuid) is outside
    the repository; it produces a fresh opaque string on every call. *)
Definition uuid_name (n : nat) : string :=
  String.append "uuid-" (NilEmpty.string_of_uint (Nat.to_uint n)).

Definition uuid_v4 : M value := fun w =>
  (Ok (VStr (uuid_name (uuids w))), with_uuids (S (uuids w)) w).

(** The array literal [[]]: a new, empty array object. *)
Definition fresh_array : M value := fun w =>
  (Ok (VArr (arrays w) []), with_arrays (S (arrays w)) w).

(** Collection.init({type, id}) and collection.add(item). *)
Definition Collection_init (t : defn) (id : string) : M ref := fun w =>
  (Ok (length (collections w)),
   with_collections (collections w ++ [Collection t id []]) w).

Definition Collection_add (c : ref) (item : value) : M unit :=
  modify (fun w =>
    with_collections
      (alter (fun x => Collection (c_type x) (c_id x) (items x ++ [item])) c (collections w)) w).

(** Modelled from the spec: Proto.init of super-proto is outside the
    repository.  The object it hands to __init__ has the definition as its
    prototype and is an event emitter already: it owns the emitter's fields,
    which are ordinary enumerable properties. *)
Definition emitter_fields : dict slot :=
  [("domain", Plain VNull); ("_events", Plain (VObj [])); ("_maxListeners", Plain VUndef)].

Definition new_instance (d : defn) : instance :=
  Instance d emitter_fields [] false [].

Definition alloc_instance (d : defn) : M ref := fun w =>
  (Ok (length (heap w)), with_heap (heap w ++ [new_instance d]) w).

(** Object.defineProperty(model, '_data', Object.create(model._data)).

    The third argument is read as a property descriptor, and its fields are
    looked up through its prototype, which is the current [_data] object.
    [_data] was defined by initProperties with [value] alone, so it is
    neither writable nor configurable nor enumerable: with no descriptor
    field found the call changes nothing, and [model._data] stays the same
    object; a stored property named get, set or value, or a truthy one named
    enumerable, configurable or writable, makes the call throw. *)
Definition descriptor_accepted (d : dict value) : bool :=
  negb (hasOwnKey "get" d) && negb (hasOwnKey "set" d) && negb (hasOwnKey "value" d)
  && negb (truthy (dict_get_value "enumerable" d))
  && negb (truthy (dict_get_value "configurable" d))
  && negb (truthy (dict_get_value "writable" d)).

Definition redefine_data (model : ref) : M unit := fun w =>
  if descriptor_accepted (data_of w model) then (Ok tt, w)
  else (Throw (TypeError "Cannot redefine property: _data"), w).

(** model._data[name] = value *)
Definition store (model : ref) (name : string) (v : value) : M unit :=
  modify (update_instance model (fun i => with_data (dict_set name v (_data i)) i)).

(** model._dropsync = b *)
Definition set_dropsync (model : ref) (b : bool) : M unit :=
  modify (update_instance model (with_dropsync b)).

(** model[name] = v on a name that has no accessor: an ordinary data
    property.  Overwriting [_events] takes the registered listeners away
    from the emitter. *)
Definition write_plain (model : ref) (name : string) (v : value) : M unit :=
  modify (update_instance model
            (fun i => with_listeners (if name =? "_events" then [] else listeners i)
                        (with_own (dict_set name (Plain v) (own i)) i))).

(** Object.defineProperty(model, name, {get, set, enumerable}) *)
Definition define_accessor (model : ref) (name : string) (definition : decl)
    (enumerable : bool) : M unit :=
  modify (update_instance model
            (fun i => with_own (own i ++ [(name, Accessor definition enumerable)]) i)).

(** model.on(property, bind(model, observer)), called for the declaration of
    property [name]. *)
Definition add_listener (model : ref) (property name : string) (o : observer) : M unit :=
  modify (update_instance model
            (fun i => with_listeners (listeners i ++ [(property, (name, o))]) i)).

(** The bookkeeping half of model.emit(name, {value, model}). *)
Definition log_emit (model : ref) (name : string) (v : value) : M unit :=
  modify (fun w => with_emitted (emitted w ++ [(model, name, v)]) w).

(** ** The engine

    Setters run observers, observers assign properties, and the setter of a
    has-one relationship constructs instances, whose construction assigns
    properties: the functions of Base.js call each other without bound.
    They are written here against an [api] that stands for the nested
    calls, [k_put] for an assignment [model[name] = value] made by an
    observer and [k_init] for [definition.init(data, e)]; [engine] closes
    the loop with a bound on the nesting depth. *)

Record api := Api {
  k_put : ref -> string -> value -> M unit;
  k_init : defn -> value -> option (list error) -> M (ref * list error) }.

(** The own properties of an instance as another object reads them:
    through the getters. *)
Definition instance_fields (w : world) (r : ref) : dict value :=
  map (fun name => (name, read w r name)) (keys (own_of w r))
  ++ [("_data", VObj (data_of w r)); ("_dropsync", VBool (dropsync_of w r))].

(** forEach(data[name], ...) over the raw children of a has-many entry (see
    [entries]): reading [length] of null or undefined throws; an array or a
    string is visited by index, a string character by character; a record
    with a truthy [length] is visited by index below it; another record, or
    an instance, by its own enumerable properties; a number or a boolean has
    none.  A record with a [length] that is neither a number nor a boolean,
    or that lacks one of its indices, and a collection given as raw
    children, are not followed. *)
Definition elements_of (v : value) : M (list value) :=
  match v with
  | VUndef => throw (TypeError "Cannot read property 'length' of undefined")
  | VNull => throw (TypeError "Cannot read property 'length' of null")
  | VBool _ | VNum _ => ret []
  | VStr s => ret (chars s)
  | VArr _ xs => ret xs
  | VObj fields =>
      let by_index n :=
        if forallb (fun i => hasOwnKey (index_name i) fields) (seq 0 n)
        then ret (map (fun i => dict_get_value (index_name i) fields) (seq 0 n))
        else beyond in
      match dict_get_value "length" fields with
      | VNum n => if (n =? 0)%Z then ret (map snd fields) else by_index (Z.to_nat n)
      | VBool true => by_index 1
      | VUndef | VNull | VBool false => ret (map snd fields)
      | VStr s => if s =? "" then ret (map snd fields) else beyond
      | _ => beyond
      end
  | VInst r =>
      do w <- gets (fun w => w);
      if truthy (read w r "length") then beyond
      else ret (map (read w r) (enumerable_keys w r))
  | VColl _ => beyond
  end.

(** The own properties of the raw data, as [hasOwnKey(name, data)] and
    [data[name]] see them: the fields of a record; the indices and [length]
    of an array or of a string; the properties of an instance, read through
    its accessors; none for a number or a boolean.  An instance without an
    id would be assigned one by __init__, and the layout of a collection is
    its library's: neither is followed. *)
Definition raw_fields (data : value) : M (dict value) :=
  match data with
  | VObj fields => ret fields
  | VArr _ xs => ret (indexed xs)
  | VStr s => ret (indexed (chars s))
  | VInst r =>
      do w <- gets (fun w => w);
      if is_undefined (read w r "id") then beyond else ret (instance_fields w r)
  | VColl _ => beyond
  | VUndef | VNull | VBool _ | VNum _ => ret []
  end.

Definition has_many_decl (c : ref) : decl :=
  Decl (Some TCollection) (VColl c) false None None [] None.

Definition has_one_decl (relation : defn) : decl :=
  Decl (Some (TModel relation)) VUndef false None (Some (SetHasOne relation)) [] None.

Section Engine.

Variable k : api.

(** model.emit(name, {value, model}): every listener registered for
    [name] runs in turn, bound to the model. *)
Definition emit (model : ref) (name : string) (v : value) : M unit :=
  log_emit model name v ;;
  do ls <- gets (fun w => listeners_of w model);
  forEach (List.filter (fun l => fst l =? name) ls)
    (fun '(_, (target, o)) =>
       do this <- gets (fun w => read w model);
       match o this with
       | Some v' => k_put k model target v'
       | None => ret tt
       end).

Definition set (model : ref) (name : string) (definition : decl) (v : value) : M unit :=
  match p_type definition with
  | Some t => enforce t v
  | None => ret tt
  end ;;
  redefine_data model ;;
  store model name v ;;
  emit model name v ;;
  do dropsync <- gets (fun w => dropsync_of w model);
  if negb (p_sync definition) || dropsync then ret tt
  else
    do id <- gets (fun w => read w model "id");
    process_emit (VStr "sync") (SyncPayload model id name v).

(** definition.set.call(this, value); [this] is [None] where
    createProperty calls [definition.set(value)] on the declaration. *)
Definition call_set (this : option ref) (s : option setter) (v : value) : M value :=
  match s with
  | None => ret v
  | Some (SetFn f) => ret (f v)
  | Some SetEdit =>
      (if truthy v then
         do name <- gets (fun w => edit_event_of w this);
         process_emit name (EditPayload this)
       else ret tt) ;;
      ret v
  | Some (SetHasOne relation) =>
      do instantiated <- gets (fun w => typeOf w (TModel relation) v);
      if instantiated then ret v
      else do '(child, _) <- k_init k relation v None; ret (VInst child)
  end.

(** model[name] = v *)
Definition put (model : ref) (name : string) (v : value) : M unit :=
  do s <- gets (fun w => dict_get name (own_of w model));
  match s with
  | Some (Accessor definition _) =>
      do v' <- call_set (Some model) (p_set definition) v;
      set model name definition v'
  | Some (Plain _) => write_plain model name v
  | None =>
      if name =? "_dropsync" then set_dropsync model (truthy v)
      else if name =? "_data" then ret tt
      else write_plain model name v
  end.

Definition createProperty (model : ref) (name : string) (definition : decl)
    (enumerable : bool) : M unit :=
  define_accessor model name definition enumerable ;;
  (if is_undefined (p_defaultValue definition) then ret tt
   else
     do v <- (if is_array (p_defaultValue definition) then fresh_array
              else ret (p_defaultValue definition));
     do v' <- call_set None (p_set definition) v;
     store model name v') ;;
  forEach (entries (p_on definition))
    (fun '(property, o) => add_listener model property name o).

Definition initProperties (model : ref) : M unit :=
  modify (update_instance model (fun i => with_dropsync false (with_data [] i))) ;;
  do ps <- gets (fun w => entries (model_properties w model));
  forEach ps
    (fun '(name, definition) =>
       do has <- gets (fun w => hasOwnKey_model w name model);
       if has then ret tt
       else createProperty model name definition
              (match p_enumerable definition with Some false => false | _ => true end)).

Definition initHasMany (model : ref) : M unit :=
  do rels <- gets (fun w => entries (model_hasMany w model));
  forEach rels
    (fun '(name, relation) =>
       do has <- gets (fun w => hasOwnKey_model w name model);
       if has then ret tt
       else
         do id <- gets (fun w => read w model "id");
         do c <- Collection_init relation
                   (String.append (to_string id) (String.append "-" name));
         createProperty model name (has_many_decl c) false).

Definition initHasOne (model : ref) : M unit :=
  do rels <- gets (fun w => entries (model_hasOne w model));
  forEach rels
    (fun '(name, relation) =>
       do has <- gets (fun w => hasOwnKey_model w name model);
       if has then ret tt
       else createProperty model name (has_one_decl relation) false).

Definition updateProperties (model : ref) (data : dict value) (e : list error)
    : M (list error) :=
  put model "id" (dict_get_value "id" data) ;;
  do names <- gets (fun w => enumerable_keys w model);
  forEach_with names
    (fun name errors =>
       if hasOwnKey name data then
         try_catch (put model name (dict_get_value name data) ;; ret errors)
                   (fun err => ret (errors ++ [err]))
       else ret errors) e.

(** [model[name].add(relation.init(data, e))]: the target is read first,
    which throws on undefined or null; the child is constructed next; the
    call of [add] comes last, and throws where the target has no [add]. *)
Definition createHasMany (model : ref) (data : dict value) (e : list error)
    : M (list error) :=
  do rels <- gets (fun w => entries (model_hasMany w model));
  forEach_with rels
    (fun '(name, relation) errors =>
       if hasOwnKey name data then
         do children <- elements_of (dict_get_value name data);
         forEach_with children
           (fun child errors =>
              do target <- gets (fun w => read w model name);
              match target with
              | VUndef | VNull => throw (TypeError "Cannot read property 'add' of undefined")
              | _ =>
                  do '(i, errors') <- k_init k relation child (Some errors);
                  match target with
                  | VColl c => Collection_add c (VInst i) ;; ret errors'
                  | _ => throw (TypeError "add is not a function")
                  end
              end) errors
       else ret errors) e.

Definition createHasOne (model : ref) (data : dict value) (e : list error)
    : M (list error) :=
  do rels <- gets (fun w => entries (model_hasOne w model));
  forEach_with rels
    (fun '(name, relation) errors =>
       if hasOwnKey name data then
         do '(i, errors') <- k_init k relation (dict_get_value name data) (Some errors);
         put model name (VInst i) ;;
         ret errors'
       else ret errors) e.

(** [data = data || {}] keeps a truthy primitive; the id assigned to a
    primitive is dropped, so that [data.id] stays undefined.  (An id assigned
    to a record also shows to whoever else holds that record, which is not
    followed: a raw record is a value here.) *)
Definition __init__ (this : ref) (data : value) (e : option (list error))
    : M (list error) :=
  let throwErrors := match e with None => true | Some _ => false end in
  let errors := match e with None => [] | Some errors => errors end in
  let data := if truthy data then data else VObj [] in
  do fields <- raw_fields data;
  do data <- (if is_undefined (dict_get_value "id" fields) then
                do id <- uuid_v4;
                ret (if is_object data then dict_set "id" id fields else fields)
              else ret fields);
  initProperties this ;;
  initHasMany this ;;
  initHasOne this ;;
  do errors <- updateProperties this data errors;
  do errors <- createHasMany this data errors;
  do errors <- createHasOne this data errors;
  if throwErrors && negb (Nat.eqb (length errors) 0) then throw (Errors this errors)
  else
    process_emit (VStr "registry:add") (RegistryPayload this) ;;
    ret errors.

(** definition.init(data, e): Proto.init creates the object and runs
    __init__ on it. *)
Definition init (definition : defn) (data : value) (e : option (list error))
    : M (ref * list error) :=
  do this <- alloc_instance definition;
  do errors <- __init__ this data e;
  ret (this, errors).

(** model.sync({property, value}) *)
Definition sync (this : ref) (property : string) (v : value) : M unit :=
  set_dropsync this true ;;
  do ps <- gets (fun w => model_properties w this);
  match dict_get property ps with
  | None => throw (TypeError "Cannot read property 'type' of undefined")
  | Some definition =>
      do v' <- match p_type definition with
               | Some (TModel d) =>
                   if is_model_type (p_type definition) then
                     do '(i, _) <- k_init k d v None; ret (VInst i)
                   else ret v
               | _ => ret v
               end;
      put this property v' ;;
      set_dropsync this false
  end.

End Engine.

(** [engine n]: the functions above with nested calls allowed [n] deep. *)
Fixpoint engine (fuel : nat) : api :=
  match fuel with
  | 0 => Api (fun _ _ _ w => (OutOfFuel, w)) (fun _ _ _ w => (OutOfFuel, w))
  | S n => Api (put (engine n)) (init (engine n))
  end.

(** ** Definition merge *)

(** The dictionaries __preCreate__ works on are JavaScript objects; they are
    kept in a store of objects, so that writing to one of them is visible
    as such. *)
Abbreviation objects A := (list (dict A)) (only parsing).

Definition object_at {A} (os : objects A) (a : nat) : dict A :=
  match os !! a with Some d => d | None => [] end.

(** iter.chain([d1, d2]) visits what is visited of d1, then what is
    visited of d2 (see [entries]); iter.reduce(entries, f, acc) folds
    [f(acc, value, key)] over them. *)
Definition chain {A} (ds : list (dict A)) : list (string * A) :=
  concat (map entries ds).

Definition reduce {A S} (entries : list (string * A)) (f : S -> A -> string -> S)
    (acc : S) : S :=
  fold_left (fun acc kv => f acc (snd kv) (fst kv)) entries acc.

(** The reducer of __preCreate__, on the accumulator object at address
    [acc]: [if (!hasOwnKey(key, acc)) acc[key] = value]. *)
Definition merge_entry {A} (acc : nat) (os : objects A) (v : A) (key : string)
    : objects A :=
  if hasOwnKey key (object_at os acc) then os
  else alter (dict_set key v) acc os.

(** One round of the forEach in __preCreate__: [derived] is the address of
    [definition[property].value], when the definition has that property,
    and [base] the address of [this[property]], when there is one; a missing
    side counts as [{}].  The accumulator is a new object [{}]; the result
    is its address and the store after the reduce. *)
Definition merge_objects {A} (derived base : option nat) (os : objects A)
    : nat * objects A :=
  let side (o : option nat) :=
    match o with Some a => object_at os a | None => [] end in
  let acc := length os in
  (acc, reduce (chain [side derived; side base]) (merge_entry acc) (os ++ [[]])).

(** The merged dictionary of a derived and a base dictionary. *)
Definition merge {A} (derived : option (dict A)) (base : dict A) : dict A :=
  match derived with
  | Some d => let '(acc, os) := merge_objects (Some 0) (Some 1) [d; base] in object_at os acc
  | None => let '(acc, os) := merge_objects None (Some 0) [base] in object_at os acc
  end.

(** What is handed to Base.extend: the own properties of the new
    definition. *)
Record extension := Extension {
  d_name : string;
  d_EDIT_EVENT : option value;
  d_properties : option (dict decl);
  d_hasMany : option (dict defn);
  d_hasOne : option (dict defn) }.

Definition __preCreate__ (this : defn) (definition : extension) : extension :=
  Extension (d_name definition) (d_EDIT_EVENT definition)
    (Some (merge (d_properties definition) (properties this)))
    (Some (merge (d_hasMany definition) (hasMany this)))
    (Some (merge (d_hasOne definition) (hasOne this))).

(** this.extend(definition): __preCreate__, then
    Object.create(this, definition). *)
Definition extend (this : defn) (definition : extension) : defn :=
  let definition := __preCreate__ this definition in
  Defn (d_name definition) (dname this :: ancestors this)
       (match d_EDIT_EVENT definition with Some v => v | None => EDIT_EVENT this end)
       (match d_properties definition with Some d => d | None => properties this end)
       (match d_hasMany definition with Some d => d | None => hasMany this end)
       (match d_hasOne definition with Some d => d | None => hasOne this end).

(** ** Base *)

Definition property : decl := Decl None VUndef false None None [] None.

Definition Base : defn :=
  Defn "Base" [] VNull
    [ ("id", Decl (Some TString) VUndef false None None [] (Some false));
      ("edit", Decl (Some TBoolean) (VBool false) false None (Some SetEdit) [] (Some false));
      ("locked", Decl (Some TBoolean) (VBool false) true None None
                   [("edit", fun this => Some (this "edit"))] (Some false)) ]
    [] [].

(** * Reasoning about runs *)

(** ** Relations kept by a computation

    [keeps R m]: running [m] from any world [w] ends in a world related to
    [w] by [R], whatever the outcome.  For a preorder [R] this is closed
    under sequencing, catching and looping. *)

Definition keeps {A} (R : world -> world -> Prop) (m : M A) : Prop :=
  forall w, R w (snd (m w)).

Section Keeps.

Variable R : world -> world -> Prop.
Hypothesis R_refl : forall w, R w w.
Hypothesis R_trans : forall w1 w2 w3, R w1 w2 -> R w2 w3 -> R w1 w3.

Lemma keeps_ret {A} (a : A) : keeps R (ret a).
Proof. intros w. apply R_refl. Qed.

Lemma keeps_throw {A} (e : error) : keeps R (@throw A e).
Proof. intros w. apply R_refl. Qed.

Lemma keeps_gets {A} (f : world -> A) : keeps R (gets f).
Proof. intros w. apply R_refl. Qed.

(** Sequencing, with what is known of the first part's result. *)
Lemma bind_at {A B} (m : M A) (f : A -> M B) (w : world) :
  R w (snd (m w)) ->
  (forall a w1, m w = (Ok a, w1) -> R w1 (snd (f a w1))) ->
  R w (snd (bind m f w)).
Proof.
  intros Hm Hf. unfold bind.
  destruct (m w) as [[a|e|] w1] eqn:E; simpl in *; auto.
  eapply R_trans; [exact Hm|]. eapply Hf; reflexivity.
Qed.

Lemma keeps_bind {A B} (m : M A) (f : A -> M B) :
  keeps R m -> (forall a, keeps R (f a)) -> keeps R (bind m f).
Proof. intros Hm Hf w. apply bind_at; [apply Hm|]. intros a w1 _. apply Hf. Qed.

Lemma keeps_try {A} (m : M A) (h : error -> M A) :
  keeps R m -> (forall e, keeps R (h e)) -> keeps R (try_catch m h).
Proof.
  intros Hm Hh w. unfold try_catch. specialize (Hm w).
  destruct (m w) as [[a|e|] w1]; simpl in *; auto.
  eapply R_trans; [exact Hm|]. apply Hh.
Qed.

Lemma keeps_forEach {A} (l : list A) (f : A -> M unit) :
  (forall x, In x l -> keeps R (f x)) -> keeps R (forEach l f).
Proof.
  induction l as [|x l IH]; intros Hf; simpl.
  - apply keeps_ret.
  - apply keeps_bind; [apply Hf; now left|].
    intros _. apply IH. intros y Hy. apply Hf. now right.
Qed.

Lemma keeps_forEach_with {A S} (l : list A) (f : A -> S -> M S) (s : S) :
  (forall x s, In x l -> keeps R (f x s)) -> keeps R (forEach_with l f s).
Proof.
  revert s. induction l as [|x l IH]; intros s Hf; simpl.
  - apply keeps_ret.
  - apply keeps_bind; [apply Hf; now left|].
    intros s'. apply IH. intros y s'' Hy. apply Hf. now right.
Qed.

Lemma keeps_if {A} (b : bool) (m1 m2 : M A) :
  keeps R m1 -> keeps R m2 -> keeps R (if b then m1 else m2).
Proof. now destruct b. Qed.

End Keeps.

(** ** The frame of an operation

    [frame L target w w']: going from [w] to [w'], among the instances below
    [L] (those that existed when the operation started) only [target] was
    written, and no instance changed prototype; the bus and the local
    event log were only extended, by events whose origin is [target] or an
    instance created since, and [registry:add] was emitted for new
    instances only. *)

Definition bus_origin (L : nat) (target : option ref) (e : value * payload) : Prop :=
  match snd e with
  | SyncPayload s _ _ _ => s < L -> target = Some s
  | RegistryPayload s => L <= s
  | EditPayload _ => True
  end.

Definition emitted_origin (L : nat) (target : option ref) (e : ref * string * value) : Prop :=
  fst (fst e) < L -> target = Some (fst (fst e)).

Record framed (L : nat) (target : option ref) (w w' : world) : Prop := Framed {
  framed_length : length (heap w) <= length (heap w');
  framed_others : forall r, r < L -> target <> Some r -> heap w' !! r = heap w !! r;
  framed_proto : forall r i, heap w !! r = Some i ->
                   exists i', heap w' !! r = Some i' /\ proto i' = proto i;
  framed_bus : exists evs, bus w' = bus w ++ evs /\ Forall (bus_origin L target) evs;
  framed_emitted : exists evs, emitted w' = emitted w ++ evs
                               /\ Forall (emitted_origin L target) evs;
  framed_arrays : arrays w <= arrays w';
  framed_collections : length (collections w) <= length (collections w') }.

Definition frame (L : nat) (target : option ref) (w w' : world) : Prop :=
  L <= length (heap w) -> framed L target w w'.

Lemma frame_refl L target w : frame L target w w.
Proof.
  intros _. split; auto.
  - intros r i H. eauto.
  - exists []. rewrite app_nil_r. auto.
  - exists []. rewrite app_nil_r. auto.
Qed.

Lemma frame_trans L target w1 w2 w3 :
  frame L target w1 w2 -> frame L target w2 w3 -> frame L target w1 w3.
Proof.
  intros H12 H23 HL. specialize (H12 HL). destruct H12 as [l1 o1 p1 b1 e1 a1 c1].
  assert (HL2 : L <= length (heap w2)) by lia.
  specialize (H23 HL2). destruct H23 as [l2 o2 p2 b2 e2 a2 c2].
  split; try lia.
  - intros r Hr Ht. rewrite o2, o1; auto.
  - intros r i Hi. destruct (p1 r i Hi) as (i' & Hi' & E1).
    destruct (p2 r i' Hi') as (i'' & Hi'' & E2). exists i''. split; congruence.
  - destruct b1 as (x1 & E1 & F1), b2 as (x2 & E2 & F2).
    exists (x1 ++ x2). rewrite E2, E1, app_assoc. split; auto.
    apply Forall_app; split; auto.
  - destruct e1 as (x1 & E1 & F1), e2 as (x2 & E2 & F2).
    exists (x1 ++ x2). rewrite E2, E1, app_assoc. split; auto.
    apply Forall_app; split; auto.
Qed.

(** What was done to [target], or to an instance created since, counts for
    any target. *)
Lemma frame_weaken L target target' w w' :
  (target = None \/ target = target' \/ exists r, target = Some r /\ L <= r) ->
  frame L target w w' -> frame L target' w w'.
Proof.
  intros Ht H HL. destruct (H HL) as [l1 o1 p1 b1 e1 a1 c1]. split; auto.
  - intros r Hr Hne. apply o1; auto.
    destruct Ht as [-> | [-> | (r' & -> & Hr')]]; auto; try discriminate.
    intros [= ->]. lia.
  - destruct b1 as (evs & E & F). exists evs. split; auto.
    eapply Forall_impl; [exact F|]. intros [nm p] Hp. unfold bus_origin in *; simpl in *.
    destruct p; auto. intros Hs. specialize (Hp Hs).
    destruct Ht as [-> | [-> | (r' & -> & Hr')]]; auto; try discriminate.
    injection Hp as ->. lia.
  - destruct e1 as (evs & E & F). exists evs. split; auto.
    eapply Forall_impl; [exact F|]. intros [[s nm] v] Hp. unfold emitted_origin in *; simpl in *.
    intros Hs. specialize (Hp Hs).
    destruct Ht as [-> | [-> | (r' & -> & Hr')]]; auto; try discriminate.
    injection Hp as ->. lia.
Qed.

(** *** The frame of the primitive effects *)

Lemma keeps_unchanged {A} (R : world -> world -> Prop) (m : M A) :
  (forall w, R w w) -> (forall w, snd (m w) = w) -> keeps R m.
Proof. intros Hr Hm w. rewrite Hm. apply Hr. Qed.

Lemma frame_enforce L target t v : keeps (frame L target) (enforce t v).
Proof.
  apply keeps_unchanged; [apply frame_refl|].
  intros w. unfold enforce. now destruct (typeOf w t v).
Qed.

Lemma frame_redefine_data L target model : keeps (frame L target) (redefine_data model).
Proof.
  apply keeps_unchanged; [apply frame_refl|].
  intros w. unfold redefine_data. now destruct (descriptor_accepted _).
Qed.

(** Reading the raw data changes nothing. *)
Lemma elements_of_unchanged v w : snd (elements_of v w) = w.
Proof.
  destruct v as [| |b|n|s|a xs|fields|r|c]; try reflexivity.
  - unfold elements_of.
    destruct (dict_get_value "length" fields) as [| |[|]|n|s|a xs|fs|r|c];
      repeat match goal with |- context [if ?b then _ else _] => destruct b end;
      reflexivity.
  - unfold elements_of, bind, gets. now destruct (truthy _).
Qed.

Lemma raw_fields_unchanged data w : snd (raw_fields data w) = w.
Proof.
  destruct data as [| |b|n|s|a xs|fields|r|c]; try reflexivity.
  unfold raw_fields, bind, gets. now destruct (is_undefined _).
Qed.

Lemma frame_elements_of L target v : keeps (frame L target) (elements_of v).
Proof. apply keeps_unchanged; [apply frame_refl | apply elements_of_unchanged]. Qed.

Lemma frame_raw_fields L target data : keeps (frame L target) (raw_fields data).
Proof. apply keeps_unchanged; [apply frame_refl | apply raw_fields_unchanged]. Qed.

Lemma frame_update_instance L r f :
  (forall i, proto (f i) = proto i) ->
  keeps (frame L (Some r)) (modify (update_instance r f)).
Proof.
  intros Hf w _. simpl. split; simpl; auto.
  - now rewrite length_alter.
  - intros r' _ Hne. apply list_lookup_alter_ne. intros E. apply Hne. now rewrite E.
  - intros r' i Hi. destruct (decide (r = r')) as [->|Hne].
    + rewrite list_lookup_alter_eq, Hi. simpl. eauto.
    + rewrite list_lookup_alter_ne by auto. eauto.
  - exists []. now rewrite app_nil_r.
  - exists []. now rewrite app_nil_r.
Qed.

Lemma frame_alloc_instance L target d : keeps (frame L target) (alloc_instance d).
Proof.
  intros w HL. simpl. split; simpl; auto.
  - rewrite length_app. lia.
  - intros r Hr _. apply lookup_app_l. lia.
  - intros r i Hi. exists i. split; auto. now apply lookup_app_l_Some.
  - exists []. now rewrite app_nil_r.
  - exists []. now rewrite app_nil_r.
Qed.

Lemma frame_process_emit L target name p :
  bus_origin L target (name, p) -> keeps (frame L target) (process_emit name p).
Proof.
  intros Hp w _. simpl. split; simpl; auto.
  - intros r i Hi. eauto.
  - exists [(name, p)]. split; auto.
  - exists []. now rewrite app_nil_r.
Qed.

Lemma frame_log_emit L model name v :
  keeps (frame L (Some model)) (log_emit model name v).
Proof.
  intros w _. simpl. split; simpl; auto.
  - intros r i Hi. eauto.
  - exists []. now rewrite app_nil_r.
  - exists [(model, name, v)]. split; auto.
    constructor; [|constructor]. now intros _.
Qed.

Lemma frame_uuid_v4 L target : keeps (frame L target) uuid_v4.
Proof.
  intros w _. simpl. split; simpl; auto.
  - intros r i Hi. eauto.
  - exists []. now rewrite app_nil_r.
  - exists []. now rewrite app_nil_r.
Qed.

Lemma frame_fresh_array L target : keeps (frame L target) fresh_array.
Proof.
  intros w _. simpl. split; simpl; auto.
  - intros r i Hi. eauto.
  - exists []. now rewrite app_nil_r.
  - exists []. now rewrite app_nil_r.
Qed.

Lemma frame_Collection_init L target t id : keeps (frame L target) (Collection_init t id).
Proof.
  intros w _. simpl. split; simpl; auto.
  - intros r i Hi. eauto.
  - exists []. now rewrite app_nil_r.
  - exists []. now rewrite app_nil_r.
  - rewrite length_app. lia.
Qed.

Lemma frame_Collection_add L target c item : keeps (frame L target) (Collection_add c item).
Proof.
  intros w _. simpl. split; simpl; auto.
  - intros r i Hi. eauto.
  - exists []. now rewrite app_nil_r.
  - exists []. now rewrite app_nil_r.
  - now rewrite length_alter.
Qed.

Lemma frame_store L model name v : keeps (frame L (Some model)) (store model name v).
Proof. now apply frame_update_instance. Qed.

Lemma frame_set_dropsync L model b : keeps (frame L (Some model)) (set_dropsync model b).
Proof. now apply frame_update_instance. Qed.

Lemma frame_write_plain L model name v : keeps (frame L (Some model)) (write_plain model name v).
Proof. now apply frame_update_instance. Qed.

Lemma frame_define_accessor L model name definition enumerable :
  keeps (frame L (Some model)) (define_accessor model name definition enumerable).
Proof. now apply frame_update_instance. Qed.

Lemma frame_add_listener L model property name o :
  keeps (frame L (Some model)) (add_listener model property name o).
Proof. now apply frame_update_instance. Qed.

(** *** The frame of the engine

    An assignment writes its model only; a construction writes nothing that
    existed before it. *)

Definition api_framed (k : api) : Prop :=
  (forall L model name v, keeps (frame L (Some model)) (k_put k model name v))
  /\ (forall L definition data e, keeps (frame L None) (k_init k definition data e)).

Create HintDb frame.

#[export] Hint Resolve frame_refl frame_enforce frame_redefine_data frame_alloc_instance
  frame_log_emit frame_uuid_v4 frame_fresh_array frame_Collection_init frame_Collection_add
  frame_store frame_set_dropsync frame_write_plain frame_define_accessor frame_add_listener
  frame_elements_of frame_raw_fields
  : frame.

Section FrameRules.

Variables (L : nat) (target : option ref).

Lemma frame_ret {A} (a : A) : keeps (frame L target) (ret a).
Proof. apply keeps_ret, frame_refl. Qed.

Lemma frame_throw {A} (e : error) : keeps (frame L target) (@throw A e).
Proof. apply keeps_throw, frame_refl. Qed.

Lemma frame_gets {A} (f : world -> A) : keeps (frame L target) (gets f).
Proof. apply keeps_gets, frame_refl. Qed.

Lemma frame_bind {A B} (m : M A) (f : A -> M B) :
  keeps (frame L target) m -> (forall a, keeps (frame L target) (f a)) ->
  keeps (frame L target) (bind m f).
Proof. apply keeps_bind, frame_trans. Qed.

Lemma frame_try {A} (m : M A) (h : error -> M A) :
  keeps (frame L target) m -> (forall e, keeps (frame L target) (h e)) ->
  keeps (frame L target) (try_catch m h).
Proof. apply keeps_try, frame_trans. Qed.

Lemma frame_forEach {A} (l : list A) (f : A -> M unit) :
  (forall x, keeps (frame L target) (f x)) -> keeps (frame L target) (forEach l f).
Proof.
  intros Hf. apply keeps_forEach; auto using frame_refl. apply frame_trans.
Qed.

Lemma frame_forEach_with {A S} (l : list A) (f : A -> S -> M S) (s : S) :
  (forall x s, keeps (frame L target) (f x s)) ->
  keeps (frame L target) (forEach_with l f s).
Proof.
  intros Hf. apply keeps_forEach_with; auto using frame_refl. apply frame_trans.
Qed.

End FrameRules.

(** [framing]: split a computation along its binds, loops and branches
    and close the leaves with the lemmas of database [frame]. *)
Ltac framing_step :=
  match goal with
  | |- keeps _ (bind _ _) => apply frame_bind; [| intros ?]
  | |- keeps _ (try_catch _ _) => apply frame_try; [| intros ?]
  | |- keeps _ (forEach _ _) => apply frame_forEach; intros ?
  | |- keeps _ (forEach_with _ _ _) => apply frame_forEach_with; intros ? ?
  | |- keeps _ (ret _) => apply frame_ret
  | |- keeps _ (throw _) => apply frame_throw
  | |- keeps _ (gets _) => apply frame_gets
  | |- keeps _ (if ?b then _ else _) => destruct b
  | |- keeps _ (match ?x with _ => _ end) => destruct x
  | |- keeps _ ((match ?x with _ => _ end) _) => destruct x
  end.

Ltac framing := repeat framing_step; eauto with frame.

Lemma keeps_weaken {A} L target target' (m : M A) :
  (target = None \/ target = target' \/ exists r, target = Some r /\ L <= r) ->
  keeps (frame L target) m -> keeps (frame L target') m.
Proof. intros Ht Hm w. eapply frame_weaken; eauto. Qed.

Section EngineFrame.

Variable k : api.
Hypothesis k_framed : api_framed k.

Lemma frame_k_put L model name v : keeps (frame L (Some model)) (k_put k model name v).
Proof. apply k_framed. Qed.

Lemma frame_k_init L target definition data e :
  keeps (frame L target) (k_init k definition data e).
Proof. eapply keeps_weaken; [now left | apply k_framed]. Qed.

Hint Resolve frame_k_put frame_k_init : frame.

Lemma frame_emit L model name v : keeps (frame L (Some model)) (emit k model name v).
Proof. unfold emit. framing. Qed.

Lemma frame_set L model name definition v :
  keeps (frame L (Some model)) (set k model name definition v).
Proof.
  unfold set. pose proof (frame_emit L model name v). framing.
  apply frame_process_emit. now intros _.
Qed.

Lemma frame_call_set L target this s v : keeps (frame L target) (call_set k this s v).
Proof. unfold call_set. framing. now apply frame_process_emit. Qed.

Lemma frame_put L model name v : keeps (frame L (Some model)) (put k model name v).
Proof.
  unfold put. pose proof frame_set. pose proof frame_call_set. framing.
Qed.

Lemma frame_createProperty L model name definition enumerable :
  keeps (frame L (Some model)) (createProperty k model name definition enumerable).
Proof. unfold createProperty. pose proof frame_call_set. framing. Qed.

Lemma frame_initProperties L model : keeps (frame L (Some model)) (initProperties k model).
Proof.
  unfold initProperties. pose proof frame_createProperty. framing.
  now apply frame_update_instance.
Qed.

Lemma frame_initHasMany L model : keeps (frame L (Some model)) (initHasMany k model).
Proof. unfold initHasMany. pose proof frame_createProperty. framing. Qed.

Lemma frame_initHasOne L model : keeps (frame L (Some model)) (initHasOne k model).
Proof. unfold initHasOne. pose proof frame_createProperty. framing. Qed.

Lemma frame_updateProperties L model data e :
  keeps (frame L (Some model)) (updateProperties k model data e).
Proof. unfold updateProperties. pose proof frame_put. framing. Qed.

Lemma frame_createHasMany L model data e :
  keeps (frame L (Some model)) (createHasMany k model data e).
Proof. unfold createHasMany. framing. Qed.

Lemma frame_createHasOne L model data e :
  keeps (frame L (Some model)) (createHasOne k model data e).
Proof. unfold createHasOne. pose proof frame_put. framing. Qed.

Lemma frame___init__ L this data e :
  L <= this -> keeps (frame L (Some this)) (__init__ k this data e).
Proof.
  intros HL. unfold __init__.
  pose proof frame_initProperties. pose proof frame_initHasMany.
  pose proof frame_initHasOne. pose proof frame_updateProperties.
  pose proof frame_createHasMany. pose proof frame_createHasOne.
  framing; now apply frame_process_emit.
Qed.

Lemma frame_init L target definition data e :
  keeps (frame L target) (init k definition data e).
Proof.
  eapply keeps_weaken; [now left|].
  intros w HL. unfold init, bind at 1. simpl.
  eapply frame_trans; [apply (frame_alloc_instance L None definition w) | | exact HL].
  simpl. eapply frame_weaken with (target := Some (length (heap w))).
  { right; right. eauto. }
  apply frame_bind.
  - now apply frame___init__.
  - intros errors. apply frame_ret.
Qed.

Lemma frame_sync L this property v : keeps (frame L (Some this)) (sync k this property v).
Proof. unfold sync. pose proof frame_put. framing. Qed.

End EngineFrame.

Lemma engine_framed fuel : api_framed (engine fuel).
Proof.
  induction fuel as [|n IH]; simpl.
  - split; intros; apply keeps_unchanged; auto using frame_refl.
  - split; intros.
    + now apply frame_put.
    + now apply frame_init.
Qed.

(** ** What an assignment leaves alone in its model

    Writing a declared property changes the [_data] of the model and nothing
    else of it: its accessors, listeners and [_dropsync] stay.  Observers
    only assign the properties that declare them, so a stored value that no
    observer targets changes only when it is assigned itself; and every sync
    event the model emits is for a sync-enabled property while [_dropsync]
    is false. *)

Definition same_shape (i i0 : instance) : Prop :=
  proto i = proto i0 /\ own i = own i0 /\ _dropsync i = _dropsync i0
  /\ listeners i = listeners i0.

Definition targets (i : instance) : list string :=
  map (fun l => fst (snd l)) (listeners i).

(** Every observer was registered by createProperty for a property that
    has its accessor on the instance. *)
Definition observers_bound (i : instance) : bool :=
  forallb (fun target =>
             match dict_get target (own i) with
             | Some (Accessor _ _) => true
             | _ => false
             end) (targets i).

Definition sync_origin (model : ref) (i0 : instance) (written : string -> Prop)
    (e : value * payload) : Prop :=
  match snd e with
  | SyncPayload s _ property _ =>
      s = model ->
      _dropsync i0 = false
      /\ (written property \/ In property (targets i0))
      /\ exists definition enumerable,
           dict_get property (own i0) = Some (Accessor definition enumerable)
           /\ p_sync definition = true
  | _ => True
  end.

Definition steady (model : ref) (i0 : instance) (written : string -> Prop)
    (w w' : world) : Prop :=
  forall i, heap w !! model = Some i -> same_shape i i0 ->
    exists i', heap w' !! model = Some i' /\ same_shape i' i0
      /\ (forall key, ~ written key -> ~ In key (targets i0) ->
            dict_get key (_data i') = dict_get key (_data i))
      /\ exists evs, bus w' = bus w ++ evs /\ Forall (sync_origin model i0 written) evs.

Lemma steady_refl model i0 written w : steady model i0 written w w.
Proof.
  intros i Hi Hs. exists i. repeat split; auto; try apply Hs.
  exists []. now rewrite app_nil_r.
Qed.

Lemma steady_trans model i0 written w1 w2 w3 :
  steady model i0 written w1 w2 -> steady model i0 written w2 w3 ->
  steady model i0 written w1 w3.
Proof.
  intros H12 H23 i Hi Hs.
  destruct (H12 i Hi Hs) as (i2 & Hi2 & Hs2 & Hd2 & evs2 & E2 & F2).
  destruct (H23 i2 Hi2 Hs2) as (i3 & Hi3 & Hs3 & Hd3 & evs3 & E3 & F3).
  exists i3. repeat split; auto; try apply Hs3.
  - intros key Hw Ht. rewrite Hd3, Hd2; auto.
  - exists (evs2 ++ evs3). rewrite E3, E2, app_assoc. split; auto.
    apply Forall_app; auto.
Qed.

Lemma steady_weaken model i0 (written written' : string -> Prop) w w' :
  (forall key, written key -> written' key \/ In key (targets i0)) ->
  steady model i0 written w w' -> steady model i0 written' w w'.
Proof.
  intros Hw H i Hi Hs. destruct (H i Hi Hs) as (i' & Hi' & Hs' & Hd & evs & E & F).
  exists i'. repeat split; auto; try apply Hs'.
  - intros key Hk Ht. apply Hd; auto. intros Hk'. destruct (Hw key Hk'); auto.
  - exists evs. split; auto. eapply Forall_impl; [exact F|].
    intros [nm p]; unfold sync_origin; simpl. destruct p; auto.
    intros Hp Hm. destruct (Hp Hm) as (Hf & [Hp'|Hp'] & Ha); repeat split; auto.
Qed.

(** A run that writes no instance that existed is steady for each of
    them. *)
Lemma steady_of_frame model i0 written w w' :
  frame (length (heap w)) None w w' -> steady model i0 written w w'.
Proof.
  intros H i Hi Hs. destruct (H (le_n _)) as [_ Ho _ (evs & E & F) _ _ _].
  pose proof (lookup_lt_Some _ _ _ Hi) as Hlt.
  exists i. repeat split; auto; try apply Hs.
  - rewrite Ho; auto.
  - exists evs. split; auto. eapply Forall_impl; [exact F|].
    intros [nm p]; unfold bus_origin, sync_origin; simpl. destruct p; auto.
    intros Hp ->. now specialize (Hp Hlt).
Qed.

Lemma steady_unchanged {A} model i0 written (m : M A) :
  (forall w, snd (m w) = w) -> keeps (steady model i0 written) m.
Proof. apply keeps_unchanged. apply steady_refl. Qed.

Lemma steady_same_heap_bus model i0 written w w' :
  heap w' = heap w -> bus w' = bus w -> steady model i0 written w w'.
Proof.
  intros Hh Hb i Hi Hs. exists i. rewrite Hh, Hb. repeat split; auto; try apply Hs.
  exists []. now rewrite app_nil_r.
Qed.

Lemma steady_store model i0 (written : string -> Prop) name v :
  written name \/ In name (targets i0) ->
  keeps (steady model i0 written) (store model name v).
Proof.
  intros Hn w i Hi Hs. unfold store, modify, update_instance. simpl.
  rewrite list_lookup_alter_eq, Hi. simpl.
  eexists. split; [reflexivity|]. repeat split; simpl; try apply Hs.
  - intros key Hk Ht. assert (name <> key) by (intros ->; tauto).
    clear - H. induction (_data i) as [|[k' x] d IH]; simpl.
    + destruct (String.eqb_spec name key); congruence.
    + destruct (String.eqb_spec k' name) as [->|Hne]; simpl.
      * destruct (String.eqb_spec name key); congruence.
      * now rewrite IH.
  - exists []. now rewrite app_nil_r.
Qed.

Lemma steady_process_emit model i0 written name p :
  sync_origin model i0 written (name, p) ->
  keeps (steady model i0 written) (process_emit name p).
Proof.
  intros Hp w i Hi Hs. simpl. exists i. repeat split; auto; try apply Hs.
  exists [(name, p)]. split; auto.
Qed.

Definition api_steady (k : api) : Prop :=
  forall model i0 name v,
    observers_bound i0 = true ->
    (exists definition enumerable,
        dict_get name (own i0) = Some (Accessor definition enumerable)) ->
    keeps (steady model i0 (eq name)) (k_put k model name v).

Lemma observers_bound_target i0 target :
  observers_bound i0 = true -> In target (targets i0) ->
  exists definition enumerable,
    dict_get target (own i0) = Some (Accessor definition enumerable).
Proof.
  unfold observers_bound. rewrite forallb_forall. intros H Hin.
  specialize (H _ Hin). destruct (dict_get target (own i0)) as [[d e|]|]; try discriminate.
  eauto.
Qed.

Lemma keeps_gets_bind {A B} (R : world -> world -> Prop) (f : world -> A) (g : A -> M B) :
  (forall w, R w (snd (g (f w) w))) -> keeps R (bind (gets f) g).
Proof. intros H w. apply H. Qed.

Section EngineSteady.

Variable k : api.
Hypothesis k_framed : api_framed k.
Hypothesis k_steady : api_steady k.

Variables (model : ref) (i0 : instance).
Hypothesis bound : observers_bound i0 = true.

Let steady_bind {A B} written (m : M A) (f : A -> M B) :
  keeps (steady model i0 written) m -> (forall a, keeps (steady model i0 written) (f a)) ->
  keeps (steady model i0 written) (bind m f).
Proof. apply keeps_bind, steady_trans. Qed.

Lemma steady_k_init written definition data e :
  keeps (steady model i0 written) (k_init k definition data e).
Proof. intros w. apply steady_of_frame. apply k_framed. Qed.

Lemma steady_emit written name v :
  keeps (steady model i0 written) (emit k model name v).
Proof.
  unfold emit. apply steady_bind.
  { intros w. now apply steady_same_heap_bus. }
  intros _. apply keeps_gets_bind. intros w i Hi Hs.
  assert (Hl : listeners_of w model = listeners i0).
  { unfold listeners_of. rewrite Hi. apply Hs. }
  rewrite Hl. clear Hl.
  refine (keeps_forEach (steady model i0 written) (steady_refl _ _ _)
            (steady_trans _ _ _) _ _ _ w i Hi Hs).
  intros [watched [target o]] Hin. apply filter_In in Hin as [Hin _].
  apply keeps_gets_bind. intros w1. destruct (o (read w1 model)) as [v'|].
  - eapply steady_weaken; [|apply k_steady; auto].
    + intros key <-. right. unfold targets. apply in_map_iff.
      exists (watched, (target, o)). auto.
    + apply observers_bound_target; auto. unfold targets. apply in_map_iff.
      exists (watched, (target, o)). auto.
  - apply steady_refl.
Qed.

Lemma steady_call_set written this s v :
  keeps (steady model i0 written) (call_set k this s v).
Proof.
  unfold call_set. destruct s as [[f| |relation]|].
  - apply keeps_ret, steady_refl.
  - apply steady_bind; [|intros _; apply keeps_ret, steady_refl].
    destruct (truthy v); [|apply keeps_ret, steady_refl].
    apply keeps_gets_bind. intros w. now apply steady_process_emit.
  - apply keeps_gets_bind. intros w.
    destruct (typeOf w (TModel relation) v); [apply steady_refl|].
    revert w. apply steady_bind; [apply steady_k_init|].
    intros [child errors]. apply keeps_ret, steady_refl.
  - apply keeps_ret, steady_refl.
Qed.

Lemma steady_set (written : string -> Prop) name definition enumerable v :
  written name \/ In name (targets i0) ->
  dict_get name (own i0) = Some (Accessor definition enumerable) ->
  keeps (steady model i0 written) (set k model name definition v).
Proof.
  intros Hn Hacc. unfold set.
  apply steady_bind.
  { apply steady_unchanged. intros w. destruct (p_type definition); auto.
    unfold enforce. now destruct (typeOf w t v). }
  intros _. apply steady_bind.
  { apply steady_unchanged. intros w. unfold redefine_data.
    now destruct (descriptor_accepted _). }
  intros _. apply steady_bind; [now apply steady_store|].
  intros _. apply steady_bind; [apply steady_emit|].
  intros _. apply keeps_gets_bind. intros w i Hi Hs.
  assert (Hd : dropsync_of w model = _dropsync i0).
  { unfold dropsync_of. rewrite Hi. apply Hs. }
  rewrite Hd. destruct (p_sync definition) eqn:Hsync; simpl.
  - destruct (_dropsync i0) eqn:Hflag; simpl.
    + now apply steady_refl.
    + refine (steady_process_emit model i0 written _ _ _ _ i Hi Hs).
      unfold sync_origin; simpl. intros _. repeat split; eauto.
  - now apply steady_refl.
Qed.

Lemma steady_put name definition enumerable v :
  dict_get name (own i0) = Some (Accessor definition enumerable) ->
  keeps (steady model i0 (eq name)) (put k model name v).
Proof.
  intros Hacc. unfold put. apply keeps_gets_bind. intros w i Hi Hs.
  assert (Ho : own_of w model = own i0).
  { unfold own_of. rewrite Hi. apply Hs. }
  rewrite Ho, Hacc.
  refine (steady_bind (eq name) _ _ _ _ w i Hi Hs).
  - apply steady_call_set.
  - intros v'. eapply steady_set; eauto.
Qed.

End EngineSteady.

Lemma engine_steady fuel : api_steady (engine fuel).
Proof.
  induction fuel as [|n IH]; simpl.
  - intros model i0 name v _ _. apply steady_unchanged. auto.
  - intros model i0 name v Hb (definition & enumerable & Hacc).
    eapply steady_put; eauto using engine_framed.
Qed.

(** * Definition merge *)

Lemma dict_get_set_eq {A} (k : string) (v : A) (d : dict A) :
  dict_get k (dict_set k v d) = Some v.
Proof.
  induction d as [|[k' x] d IH]; simpl.
  - now rewrite String.eqb_refl.
  - destruct (String.eqb_spec k' k) as [->|Hne]; simpl.
    + now rewrite String.eqb_refl.
    + destruct (String.eqb_spec k' k); [contradiction|auto].
Qed.

Lemma dict_get_set_ne {A} (k k' : string) (v : A) (d : dict A) :
  k <> k' -> dict_get k' (dict_set k v d) = dict_get k' d.
Proof.
  intros Hne. induction d as [|[k0 x] d IH]; simpl.
  - destruct (String.eqb_spec k k'); [contradiction|auto].
  - destruct (String.eqb_spec k0 k) as [->|Hne0]; simpl.
    + destruct (String.eqb_spec k k'); [contradiction|auto].
    + now rewrite IH.
Qed.

Lemma dict_get_app {A} (k : string) (d1 d2 : dict A) :
  dict_get k (d1 ++ d2)
  = match dict_get k d1 with Some v => Some v | None => dict_get k d2 end.
Proof.
  induction d1 as [|[k' x] d1 IH]; simpl; auto.
  now destruct (k' =? k).
Qed.

(** The reducer of __preCreate__ on the accumulator alone. *)
Definition merged_entry {A} (acc : dict A) (kv : string * A) : dict A :=
  if hasOwnKey (fst kv) acc then acc else dict_set (fst kv) (snd kv) acc.

Lemma dict_get_merged {A} (entries : list (string * A)) (acc : dict A) (k : string) :
  dict_get k (fold_left merged_entry entries acc)
  = match dict_get k acc with Some v => Some v | None => dict_get k entries end.
Proof.
  revert acc. induction entries as [|[k' x] entries IH]; intros acc; simpl.
  - now destruct (dict_get k acc).
  - rewrite IH. unfold merged_entry, hasOwnKey; simpl.
    destruct (dict_get k' acc) as [y|] eqn:Hk'.
    + destruct (String.eqb_spec k' k) as [->|Hne]; [now rewrite Hk'|reflexivity].
    + destruct (String.eqb_spec k' k) as [->|Hne].
      * now rewrite dict_get_set_eq, Hk'.
      * now rewrite dict_get_set_ne.
Qed.

Lemma merge_entry_accumulator {A} (os : objects A) (acc : dict A) (k : string) (x : A) :
  merge_entry (length os) (os ++ [acc]) x k = os ++ [merged_entry acc (k, x)].
Proof.
  unfold merge_entry, merged_entry, object_at; simpl.
  rewrite list_lookup_middle by reflexivity.
  destruct (hasOwnKey k acc); auto.
  induction os as [|o os IH]; simpl; auto. now f_equal.
Qed.

(** The reduce of __preCreate__ writes the accumulator object only. *)
Lemma reduce_merge_entry {A} (entries : list (string * A)) (os : objects A) (acc : dict A) :
  reduce entries (merge_entry (length os)) (os ++ [acc])
  = os ++ [fold_left merged_entry entries acc].
Proof.
  unfold reduce. revert acc. induction entries as [|[k x] entries IH]; intros acc; simpl; auto.
  rewrite merge_entry_accumulator. apply IH.
Qed.

Lemma merge_objects_spec {A} (derived base : option nat) (os : objects A) :
  let side (o : option nat) := match o with Some a => object_at os a | None => [] end in
  let '(acc, os') := merge_objects derived base os in
  acc = length os
  /\ (forall a, a < length os -> os' !! a = os !! a)
  /\ (forall key,
        dict_get key (object_at os' acc)
        = match dict_get key (entries (side derived)) with
          | Some v => Some v
          | None => dict_get key (entries (side base))
          end).
Proof.
  unfold merge_objects. rewrite reduce_merge_entry. split; [reflexivity|split].
  - intros a Ha. now apply lookup_app_l.
  - intros key. unfold object_at at 1. rewrite list_lookup_middle by reflexivity.
    rewrite dict_get_merged. simpl. unfold chain. simpl.
    now rewrite dict_get_app, app_nil_r.
Qed.

(** [merged] shadows [base] with [derived]: it holds the entries of
    [derived] and the entries of [base] whose key [derived] does not have,
    and nothing else. *)
Definition shadows {A} (derived : option (dict A)) (base merged : dict A) : Prop :=
  forall key,
    dict_get key merged
    = match dict_get key (match derived with Some d => d | None => [] end) with
      | Some v => Some v
      | None => dict_get key base
      end.

Definition named_length {A} (d : option (dict A)) : bool :=
  match d with Some d => hasOwnKey "length" d | None => false end.

(** What the merge of __preCreate__ yields: the shadowing of what is
    visited of the base dictionary by what is visited of the derived one.
    That is the shadowing of the dictionaries themselves when neither has a
    key named [length]; a derived dictionary that has one contributes
    nothing, and the result holds the base entries alone. *)
Record merges {A} (derived : option (dict A)) (base merged : dict A) : Prop := Merges {
  merges_visited : shadows (option_map entries derived) (entries base) merged;
  merges_shadowing : named_length derived = false -> hasOwnKey "length" base = false ->
                     shadows derived base merged;
  merges_length : named_length derived = true ->
                  forall key, dict_get key merged = dict_get key (entries base) }.

Lemma merge_visited {A} (derived : option (dict A)) (base : dict A) :
  shadows (option_map entries derived) (entries base) (merge derived base).
Proof.
  intros key. unfold merge. destruct derived as [d|].
  - pose proof (merge_objects_spec (Some 0) (Some 1) [d; base]) as H.
    destruct (merge_objects (Some 0) (Some 1) [d; base]) as [acc os'].
    destruct H as (_ & _ & H). apply H.
  - pose proof (merge_objects_spec None (Some 0) [base]) as H.
    destruct (merge_objects None (Some 0) [base]) as [acc os'].
    destruct H as (_ & _ & H). apply H.
Qed.

Lemma merge_merges {A} (derived : option (dict A)) (base : dict A) :
  merges derived base (merge derived base).
Proof.
  pose proof (merge_visited derived base) as H. split; [exact H| |].
  - intros Hd Hb key. rewrite (H key). unfold entries. rewrite Hb.
    destruct derived as [d|]; simpl in *; [now rewrite Hd | reflexivity].
  - intros Hd key. rewrite (H key).
    destruct derived as [d|]; simpl in *; [|discriminate].
    unfold entries at 1. now rewrite Hd.
Qed.

(** A definition with a property named [length]. *)
Definition Measured : defn :=
  extend Base
    (Extension "Measured" None
       (Some [("length", Decl (Some TNumber) VUndef false None None [] None);
              ("unit", Decl (Some TString) VUndef false None None [] None)])
       None None).

(** C7 (what Base.js does).  Deriving a definition merges each of the three
    schema dictionaries into a new object, by a reduce over the chain of
    the derived and the base dictionary that writes a key only where the
    accumulator lacks it.  For dictionaries without a key named [length]
    the result holds every entry of the derived dictionary and every entry
    of the base dictionary whose key the derived one does not have.  A
    derived dictionary with a key named [length] is taken for an array and
    none of its entries is visited: the result holds the base entries
    alone, as for the properties of [Measured], which are those of Base.
    Every object that existed before the merge, the two input dictionaries
    among them, is left as it was. *)
Theorem preCreate_merges_shadowing (this : defn) (definition : extension) :
  (exists ps hm ho,
      __preCreate__ this definition
      = Extension (d_name definition) (d_EDIT_EVENT definition) (Some ps) (Some hm) (Some ho)
      /\ merges (d_properties definition) (properties this) ps
      /\ merges (d_hasMany definition) (hasMany this) hm
      /\ merges (d_hasOne definition) (hasOne this) ho
      /\ properties (extend this definition) = ps
      /\ hasMany (extend this definition) = hm
      /\ hasOne (extend this definition) = ho)
  /\ (forall (A : Type) (derived base : option nat) (os : objects A) (a : nat),
        a < length os -> snd (merge_objects derived base os) !! a = os !! a)
  /\ keys (properties Measured) = ["id"; "edit"; "locked"].
Proof.
  split; [|split].
  - eexists _, _, _. split; [reflexivity|].
    repeat split; auto using merge_merges; apply merge_merges.
  - intros A derived base os a Ha.
    pose proof (merge_objects_spec derived base os) as H.
    destruct (merge_objects derived base os) as [acc os']. simpl.
    destruct H as (_ & H & _). now apply H.
  - reflexivity.
Qed.

(** * The write pipeline *)

(** ** Example definitions, after the repository's test suite *)

Definition ChildModel : defn :=
  extend Base
    (Extension "ChildModel" None
       (Some [("name", Decl (Some TString) VUndef false None None [] None)]) None None).

Definition Model : defn :=
  extend Base
    (Extension "Model" (Some (VStr "editTest"))
       (Some
          [ ("anyTest", property);
            ("stringTest", Decl (Some TString) VUndef false None None [] None);
            ("numberTest", Decl (Some TNumber) VUndef false None None [] None);
            ("booleanTest", Decl (Some TBoolean) VUndef false None None [] None);
            ("arrayTest", Decl (Some TArray) VUndef false None None [] None);
            ("defaultValueTest", Decl None (VNum 100) false None None [] None);
            ("syncTest", Decl None VUndef true None None [] None);
            ("setTest",
             Decl None VUndef false None
               (Some (SetFn (fun v => match v with VNum n => VNum (n * 100) | _ => v end)))
               [] None);
            ("onTest",
             Decl None VUndef false None None
               [("anyTest",
                 fun this => Some (match this "anyTest" with
                                   | VNum 100 => VBool true
                                   | _ => VBool false
                                   end))] None) ])
       (Some [("children", ChildModel)])
       (Some [("onInit", ChildModel); ("afterInit", ChildModel)])).

Definition sample_data : value :=
  VObj [ ("id", VStr "id"); ("stringTest", VStr "string"); ("numberTest", VNum 1);
         ("booleanTest", VBool true); ("arrayTest", VArr 0 []);
         ("children", VArr 1 [VObj [("name", VStr "si")]; VObj [("name", VStr "sarah")]]);
         ("onInit", VObj [("name", VStr "christos")]) ].

(** The world after [model = Model.init(sample_data)]: the model is
    instance 0, its children are instances 1 and 2, [onInit] is 3. *)
Definition sample_world : world :=
  Eval vm_compute in snd (init (engine 3) Model sample_data None empty_world).

(** The declaration's [set] applied to a value, for the setters that
    construct nothing. *)
Definition transformed (s : option setter) (v : value) : value :=
  match s with
  | Some (SetFn f) => f v
  | _ => v
  end.

(** The setters a property declaration can carry; the remaining one is
    installed by initHasOne. *)
Definition declared_setter (s : option setter) : bool :=
  match s with
  | Some (SetHasOne _) => false
  | _ => true
  end.

Definition is_edit_event (e : value * payload) : Prop :=
  exists model, snd e = EditPayload model.

Lemma set_violation k model name definition t v w :
  p_type definition = Some t -> typeOf w t v = false ->
  set k model name definition v w = (Throw (TypeViolation t v), w).
Proof.
  intros Ht Hv. unfold set, bind. rewrite Ht. unfold enforce. now rewrite Hv.
Qed.

Lemma typeOf_bus w t v b : typeOf (with_bus b w) t v = typeOf w t v.
Proof. reflexivity. Qed.

(** The declaration's [set] runs before the check: it changes no instance
    and emits at most the edit event. *)
Lemma call_set_declared k this s v w :
  declared_setter s = true ->
  exists evs,
    call_set k this s v w = (Ok (transformed s v), with_bus (bus w ++ evs) w)
    /\ Forall is_edit_event evs.
Proof.
  intros Hs. destruct s as [[f| |relation]|]; try discriminate; simpl.
  - exists []. rewrite app_nil_r. now destruct w.
  - unfold bind. destruct (truthy v); simpl.
    + eexists [_]. split; [reflexivity|]. repeat constructor. now eexists.
    + exists []. rewrite app_nil_r. now destruct w.
  - exists []. rewrite app_nil_r. now destruct w.
Qed.

(** C2.  Assigning to a declared typed property a value that does not
    satisfy the type once the declaration's [set] is applied throws the
    TypeViolation and changes nothing of the model: no instance is written
    (the stored value stays), no local change event is logged, and the bus
    receives no sync event (at most the edit event that the [set] of [edit]
    emits before the check). *)
Theorem violation_changes_nothing (k : api) (w : world) (model : ref) (name : string)
    (definition : decl) (enumerable : bool) (t : type) (v : value) :
  dict_get name (own_of w model) = Some (Accessor definition enumerable) ->
  p_type definition = Some t ->
  declared_setter (p_set definition) = true ->
  typeOf w t (transformed (p_set definition) v) = false ->
  exists w' evs,
    put k model name v w
    = (Throw (TypeViolation t (transformed (p_set definition) v)), w')
    /\ heap w' = heap w
    /\ emitted w' = emitted w
    /\ bus w' = bus w ++ evs
    /\ Forall is_edit_event evs.
Proof.
  intros Hacc Ht Hs Hv.
  destruct (call_set_declared k (Some model) (p_set definition) v w Hs) as (evs & Hc & He).
  exists (with_bus (bus w ++ evs) w), evs. repeat split; auto.
  unfold put, bind at 1, gets. rewrite Hacc. unfold bind at 1. rewrite Hc.
  now apply set_violation.
Qed.

Lemma violation_changes_nothing_witness :
  dict_get "stringTest" (own_of sample_world 0)
  = Some (Accessor (Decl (Some TString) VUndef false None None [] None) true)
  /\ typeOf sample_world TString (VNum 10) = false
  /\ exists w' evs,
       put (engine 0) 0 "stringTest" (VNum 10) sample_world
       = (Throw (TypeViolation TString (VNum 10)), w')
       /\ heap w' = heap sample_world
       /\ emitted w' = emitted sample_world
       /\ bus w' = bus sample_world ++ evs
       /\ Forall is_edit_event evs.
Proof.
  split; [reflexivity|]. split; [reflexivity|].
  apply (violation_changes_nothing (engine 0) sample_world 0 "stringTest"
           (Decl (Some TString) VUndef false None None [] None) true TString (VNum 10));
    reflexivity.
Defined.

Lemma typeOf_undefined w t : typeOf w t VUndef = false.
Proof. now destruct t. Qed.

(** C6 (what Base.js does).  [set] enforces the declared type whenever one
    is declared, also on [undefined]: assigning [undefined] to a declared
    typed property throws the TypeViolation and stores nothing. *)
Theorem undefined_is_enforced (k : api) (w : world) (model : ref) (name : string)
    (definition : decl) (enumerable : bool) (t : type) :
  dict_get name (own_of w model) = Some (Accessor definition enumerable) ->
  p_type definition = Some t ->
  p_set definition = None ->
  put k model name VUndef w = (Throw (TypeViolation t VUndef), w).
Proof.
  intros Hacc Ht Hs. unfold put, bind at 1, gets. rewrite Hacc, Hs. simpl.
  unfold bind at 1, ret. apply set_violation; auto. apply typeOf_undefined.
Qed.

Lemma undefined_is_enforced_witness :
  dict_get "stringTest" (data_of sample_world 0) = Some (VStr "string")
  /\ put (engine 3) 0 "stringTest" VUndef sample_world
     = (Throw (TypeViolation TString VUndef), sample_world).
Proof.
  split; [reflexivity|].
  apply (undefined_is_enforced (engine 3) sample_world 0 "stringTest"
           (Decl (Some TString) VUndef false None None [] None) true TString);
    reflexivity.
Defined.

(** ** Successful runs, step by step *)

Lemma bind_Ok {A B} (m : M A) (f : A -> M B) w b w' :
  bind m f w = (Ok b, w') ->
  exists a w1, m w = (Ok a, w1) /\ f a w1 = (Ok b, w').
Proof.
  unfold bind. destruct (m w) as [[a|e|] w1]; try discriminate. eauto.
Qed.

Lemma enforce_Ok t v w u w' :
  enforce t v w = (Ok u, w') -> w' = w /\ typeOf w t v = true.
Proof.
  unfold enforce. destruct (typeOf w t v); [|discriminate]. now intros [= _ <-].
Qed.

Lemma checks_Ok (definition : decl) model v w u w' :
  bind (match p_type definition with Some t => enforce t v | None => ret tt end)
       (fun _ => redefine_data model) w = (Ok u, w') ->
  w' = w /\ forall t, p_type definition = Some t -> typeOf w t v = true.
Proof.
  intros H. apply bind_Ok in H as (a & w1 & H1 & H2).
  assert (w1 = w /\ forall t, p_type definition = Some t -> typeOf w t v = true) as [-> Ht].
  { destruct (p_type definition) as [t|].
    - apply enforce_Ok in H1 as [-> H1]. split; auto. now intros t' [= <-].
    - injection H1 as _ <-. split; auto. discriminate. }
  split; auto. unfold redefine_data in H2.
  destruct (descriptor_accepted _); [|discriminate]. now injection H2.
Qed.

(** With no listener registered for [name], model.emit only logs the
    event. *)
Lemma emit_quiet k model name v w :
  List.filter (fun l => fst l =? name) (listeners_of w model) = [] ->
  emit k model name v w = (Ok tt, with_emitted (emitted w ++ [(model, name, v)]) w).
Proof.
  intros Hq. unfold emit, bind, log_emit, modify, gets; simpl.
  change (listeners_of (with_emitted (emitted w ++ [(model, name, v)]) w) model)
    with (listeners_of w model).
  now rewrite Hq.
Qed.

(** model.emit logs its event first, whatever the listeners then do. *)
Lemma emit_logs k model name v w :
  api_framed k ->
  exists post, emitted (snd (emit k model name v w)) = emitted w ++ (model, name, v) :: post.
Proof.
  intros Hk. unfold emit, bind at 1, log_emit, modify. simpl.
  set (w1 := with_emitted (emitted w ++ [(model, name, v)]) w).
  set (rest := bind _ _).
  assert (Hrest : keeps (frame 0 (Some model)) rest).
  { unfold rest. pose proof (frame_k_put k Hk). framing. }
  destruct (Hrest w1 (Nat.le_0_l _)) as [_ _ _ _ (post & Epost & _) _ _].
  exists post. rewrite Epost. unfold w1. simpl. now rewrite <- app_assoc.
Qed.

(** The events of an assignment that its observers caused: sync events of
    the model for properties that an observer assigns. *)
Definition observed_only (model : ref) (i : instance) (e : value * payload) : Prop :=
  match snd e with
  | SyncPayload s _ property _ => s = model -> In property (targets i)
  | _ => True
  end.

Lemma same_shape_refl i : same_shape i i.
Proof. now repeat split. Qed.

Lemma same_shape_bound i i0 :
  same_shape i i0 -> observers_bound i0 = true -> observers_bound i = true.
Proof.
  intros (_ & Ho & _ & Hl). unfold observers_bound, targets. now rewrite Hl, Ho.
Qed.

(** What [set] does after its checks, on a model whose shape is [i]. *)
Lemma set_outcome (n : nat) w model i name definition enumerable v w' :
  heap w !! model = Some i -> observers_bound i = true ->
  dict_get name (own i) = Some (Accessor definition enumerable) ->
  set (engine n) model name definition v w = (Ok tt, w') ->
  (forall t, p_type definition = Some t -> typeOf w t v = true)
  /\ (exists i', heap w' !! model = Some i' /\ same_shape i' i
        /\ (~ In name (targets i) -> dict_get name (_data i') = Some v))
  /\ (exists post, emitted w' = emitted w ++ (model, name, v) :: post)
  /\ exists evs,
       bus w' = bus w
                ++ evs
                ++ (if p_sync definition && negb (_dropsync i)
                    then [(VStr "sync", SyncPayload model (read w' model "id") name v)]
                    else [])
       /\ Forall (sync_origin model i (fun _ => False)) evs
       /\ (List.filter (fun l => fst l =? name) (listeners i) = [] -> evs = []).
Proof.
  intros Hi Hb Hacc H. unfold set in H.
  apply bind_Ok in H as (u1 & w1 & H1 & H). apply bind_Ok in H as (u2 & w2 & H2 & H).
  assert (w2 = w /\ forall t, p_type definition = Some t -> typeOf w t v = true) as [-> Ht].
  { apply (checks_Ok definition model v w u2 w2). unfold bind. now rewrite H1. }
  clear H1 H2. split; [exact Ht|].
  apply bind_Ok in H as (u3 & w3 & H3 & H). apply bind_Ok in H as (u4 & w4 & H4 & H).
  unfold store, modify in H3. injection H3 as _ <-.
  set (i3 := with_data (dict_set name v (_data i)) i).
  set (w3 := update_instance model (fun i => with_data (dict_set name v (_data i)) i) w) in *.
  assert (Hi3 : heap w3 !! model = Some i3).
  { unfold w3, update_instance; simpl. now rewrite list_lookup_alter_eq, Hi. }
  assert (Hs3 : same_shape i3 i) by now repeat split.
  pose proof (steady_emit (engine n) (engine_steady n) model i Hb
                (fun _ => False) name v w3 i3 Hi3 Hs3) as Hemit.
  rewrite H4 in Hemit. simpl in Hemit.
  destruct Hemit as (i4 & Hi4 & Hs4 & Hd4 & evs & Ebus & Fevs).
  assert (Hem : exists post, emitted w4 = emitted w ++ (model, name, v) :: post).
  { pose proof (emit_logs (engine n) model name v w3 (engine_framed n)) as Hl.
    now rewrite H4 in Hl. }
  assert (Hquiet : List.filter (fun l => fst l =? name) (listeners i) = [] -> evs = []).
  { intros Hq. rewrite emit_quiet in H4.
    - injection H4 as _ <-. simpl in Ebus.
      apply (f_equal (@length _)) in Ebus. rewrite length_app in Ebus.
      destruct evs; [reflexivity | simpl in Ebus; lia].
    - unfold listeners_of. now rewrite Hi3. }
  unfold bind, gets in H. simpl in H.
  assert (Hflag : dropsync_of w4 model = _dropsync i).
  { unfold dropsync_of. rewrite Hi4. apply Hs4. }
  rewrite Hflag in H.
  assert (Hbus : bus w4 = bus w ++ evs) by exact Ebus.
  assert (Hdata : ~ In name (targets i) -> dict_get name (_data i4) = Some v).
  { intros Hn. rewrite Hd4; auto. simpl. apply dict_get_set_eq. }
  clear Ebus Hd4.
  destruct (p_sync definition) eqn:Hsync; simpl in H |- *.
  - destruct (_dropsync i) eqn:Hdrop; simpl in H |- *.
    + injection H as <-. repeat split; eauto.
      exists evs. rewrite app_nil_r. auto.
    + unfold process_emit, modify in H. injection H as <-. repeat split; eauto.
      exists evs. simpl. rewrite Hbus, app_assoc. auto.
  - injection H as <-. repeat split; eauto.
    exists evs. rewrite app_nil_r. auto.
Qed.

(** An assignment through the accessor of a declared property: the
    declaration's [set], then [set]. *)
Lemma put_declared (n : nat) w model i name definition enumerable v o w' :
  heap w !! model = Some i ->
  dict_get name (own i) = Some (Accessor definition enumerable) ->
  declared_setter (p_set definition) = true ->
  put (engine n) model name v w = (o, w') ->
  exists evs0,
    Forall is_edit_event evs0
    /\ heap (with_bus (bus w ++ evs0) w) !! model = Some i
    /\ set (engine n) model name definition (transformed (p_set definition) v)
         (with_bus (bus w ++ evs0) w) = (o, w').
Proof.
  intros Hi Hacc Hs H.
  destruct (call_set_declared (engine n) (Some model) (p_set definition) v w Hs)
    as (evs0 & Hc & He).
  exists evs0. repeat split; auto.
  unfold put, bind at 1, gets in H. unfold own_of in H. rewrite Hi, Hacc in H.
  unfold bind at 1 in H. now rewrite Hc in H.
Qed.

(** C3 (amended).  A successful assignment to a declared property with [sync: true],
    while [_dropsync] is false, emits the sync event of that write, with
    the id of the instance, the property name and the transformed value, as
    its last act; every other sync event of the model emitted meanwhile is
    the event of a property that an observer assigned, and there is none
    when no listener is registered for the property.  An assignment to a
    property without [sync] (or while [_dropsync] is true) emits no sync
    event for that property. *)
Theorem sync_event_of_assignment (n : nat) (w : world) (model : ref) (i : instance)
    (name : string) (definition : decl) (enumerable : bool) (v : value) (w' : world) :
  heap w !! model = Some i ->
  observers_bound i = true ->
  dict_get name (own i) = Some (Accessor definition enumerable) ->
  declared_setter (p_set definition) = true ->
  put (engine n) model name v w = (Ok tt, w') ->
  exists evs,
    bus w' = bus w ++ evs
    /\ if p_sync definition && negb (_dropsync i)
       then exists pre,
              evs = pre ++ [(VStr "sync",
                             SyncPayload model (read w' model "id") name
                               (transformed (p_set definition) v))]
              /\ Forall (observed_only model i) pre
              /\ (List.filter (fun l => fst l =? name) (listeners i) = [] ->
                  Forall is_edit_event pre)
       else forall nm id x, ~ In (nm, SyncPayload model id name x) evs.
Proof.
  intros Hi Hb Hacc Hs H.
  destruct (put_declared n w model i name definition enumerable v _ w' Hi Hacc Hs H)
    as (evs0 & He & Hi1 & Hset).
  destruct (set_outcome n _ model i name definition enumerable _ w' Hi1 Hb Hacc Hset)
    as (_ & _ & _ & evs & Ebus & Fevs & Hquiet).
  simpl in Ebus.
  assert (Hedit : forall e, is_edit_event e -> observed_only model i e).
  { intros [nm p] (m & Hp). simpl in Hp. subst p. exact I. }
  destruct (p_sync definition && negb (_dropsync i)) eqn:Hcond.
  - exists ((evs0 ++ evs) ++ [(VStr "sync",
                               SyncPayload model (read w' model "id") name
                                 (transformed (p_set definition) v))]).
    split; [rewrite Ebus; now rewrite <- !app_assoc|].
    exists (evs0 ++ evs). repeat split.
    + apply Forall_app; split.
      * eapply Forall_impl; [exact He | exact Hedit].
      * eapply Forall_impl; [exact Fevs|].
        intros [nm p]; unfold sync_origin, observed_only; simpl. destruct p; auto.
        intros Hp Hm. destruct (Hp Hm) as (_ & [[]|Hin] & _). exact Hin.
    + intros Hq. rewrite (Hquiet Hq), app_nil_r. exact He.
  - exists (evs0 ++ evs). split; [rewrite Ebus; now rewrite app_nil_r, <- app_assoc|].
    intros nm id x Hin. apply in_app_or in Hin as [Hin|Hin].
    + rewrite List.Forall_forall in He. destruct (He _ Hin) as (m & Hm). discriminate.
    + rewrite List.Forall_forall in Fevs. specialize (Fevs _ Hin eq_refl).
      destruct Fevs as (Hflag & _ & d' & e' & Hacc' & Hsync').
      rewrite Hacc in Hacc'. injection Hacc' as <- <-.
      now rewrite Hsync', Hflag in Hcond.
Qed.

Definition sample_model : instance :=
  Eval vm_compute in
    match heap sample_world !! 0 with
    | Some i => i
    | None => Instance Base [] [] false []
    end.

(** C3 (as stated) fails: [edit] is declared without [sync], yet assigning
    it emits a sync event, the one of [locked], which an observer assigns. *)
Lemma assigning_edit_emits_sync :
  (exists definition, dict_get "edit" (properties Model) = Some definition
                      /\ p_sync definition = false)
  /\ fst (put (engine 1) 0 "edit" (VBool true) sample_world) = Ok tt
  /\ bus (snd (put (engine 1) 0 "edit" (VBool true) sample_world))
     = bus sample_world
       ++ [(VStr "editTest", EditPayload (Some 0));
           (VStr "sync", SyncPayload 0 (VStr "id") "locked" (VBool true))].
Proof. split; [eexists; split; reflexivity|]. split; reflexivity. Qed.

Definition sample_synced_world : world :=
  Eval vm_compute in snd (put (engine 1) 0 "syncTest" (VStr "syncTestData") sample_world).

Lemma sync_event_of_assignment_witness :
  put (engine 1) 0 "syncTest" (VStr "syncTestData") sample_world
  = (Ok tt, sample_synced_world)
  /\ exists evs,
       bus sample_synced_world = bus sample_world ++ evs
       /\ exists pre,
            evs = pre ++ [(VStr "sync", SyncPayload 0 (VStr "id") "syncTest" (VStr "syncTestData"))]
            /\ Forall (observed_only 0 sample_model) pre
            /\ (List.filter (fun l => fst l =? "syncTest") (listeners sample_model) = [] ->
                Forall is_edit_event pre).
Proof.
  split; [reflexivity|].
  apply (sync_event_of_assignment 1 sample_world 0 sample_model "syncTest"
           (Decl None VUndef true None None [] None) true (VStr "syncTestData")
           sample_synced_world); reflexivity.
Defined.

(** * The inbound reconciler *)

(** While [_dropsync] is true, an assignment to a declared property emits no
    sync event of its model, whatever its outcome. *)
Lemma put_while_dropsync (n : nat) w model i name definition enumerable v o w' :
  heap w !! model = Some i -> observers_bound i = true -> _dropsync i = true ->
  dict_get name (own i) = Some (Accessor definition enumerable) ->
  put (engine n) model name v w = (o, w') ->
  (exists i', heap w' !! model = Some i' /\ same_shape i' i)
  /\ exists evs, bus w' = bus w ++ evs
                 /\ forall nm id p x, ~ In (nm, SyncPayload model id p x) evs.
Proof.
  intros Hi Hb Hflag Hacc H.
  pose proof (steady_put (engine n) (engine_framed n) (engine_steady n) model i Hb
                name definition enumerable v Hacc w i Hi (same_shape_refl i)) as Hst.
  rewrite H in Hst. simpl in Hst. destruct Hst as (i' & Hi' & Hs' & _ & evs & E & F).
  split; [eauto|]. exists evs. split; auto.
  intros nm id p x Hin. rewrite List.Forall_forall in F.
  destruct (F _ Hin eq_refl) as (Hf & _). congruence.
Qed.

Lemma set_logs k model name definition v w w' :
  api_framed k ->
  set k model name definition v w = (Ok tt, w') ->
  exists post, emitted w' = emitted w ++ (model, name, v) :: post.
Proof.
  intros Hk H. unfold set in H.
  apply bind_Ok in H as (u1 & w1 & H1 & H). apply bind_Ok in H as (u2 & w2 & H2 & H).
  assert (w2 = w) as ->.
  { apply (checks_Ok definition model v w u2 w2). unfold bind. now rewrite H1. }
  apply bind_Ok in H as (u3 & w3 & H3 & H). apply bind_Ok in H as (u4 & w4 & H4 & H).
  unfold store, modify in H3. injection H3 as _ <-.
  match type of H4 with
  | emit _ _ _ _ ?w3 = _ => destruct (emit_logs k model name v w3 Hk) as (post & Hpost)
  end.
  rewrite H4 in Hpost. simpl in Hpost.
  exists post. rewrite <- Hpost.
  unfold bind, gets in H.
  destruct (negb (p_sync definition) || dropsync_of w4 model).
  - now injection H as <-.
  - unfold process_emit, modify in H. now injection H as <-.
Qed.

Lemma put_logs k model name definition enumerable v w w' :
  api_framed k ->
  dict_get name (own_of w model) = Some (Accessor definition enumerable) ->
  put k model name v w = (Ok tt, w') ->
  exists pre v' post, emitted w' = emitted w ++ pre ++ (model, name, v') :: post.
Proof.
  intros Hk Hacc H. unfold put, bind at 1, gets in H. rewrite Hacc in H.
  apply bind_Ok in H as (v' & w1 & H1 & H).
  pose proof (frame_call_set k Hk 0 (Some model) (Some model) (p_set definition) v w) as Hf.
  rewrite H1 in Hf. destruct (Hf (Nat.le_0_l _)) as [_ _ _ _ (pre & Epre & _) _ _].
  destruct (set_logs k model name definition v' w1 w' Hk H) as (post & Epost).
  exists pre, v', post. simpl in Epre. now rewrite Epost, Epre, <- app_assoc.
Qed.

(** An assignment to a name that has no accessor stores a plain property,
    or the flag itself: it emits nothing. *)
Lemma put_plain k model name v w :
  (forall definition enumerable,
      dict_get name (own_of w model) <> Some (Accessor definition enumerable)) ->
  exists w', put k model name v w = (Ok tt, w') /\ bus w' = bus w.
Proof.
  intros Hacc. unfold put, bind at 1, gets.
  destruct (dict_get name (own_of w model)) as [[d e|x]|].
  - now destruct (Hacc d e).
  - eexists. split; reflexivity.
  - destruct (name =? "_dropsync"); [eexists; split; reflexivity|].
    destruct (name =? "_data"); eexists; split; reflexivity.
Qed.

(** What model.sync does to its model and to the bus. *)
Lemma sync_outcome (n : nat) w this i property v o w' :
  heap w !! this = Some i -> observers_bound i = true ->
  sync (engine n) this property v w = (o, w') ->
  (exists evs, bus w' = bus w ++ evs
               /\ forall nm id p x, ~ In (nm, SyncPayload this id p x) evs)
  /\ (o <> Ok tt ->
      exists i', heap w' !! this = Some i' /\ same_shape i' (with_dropsync true i))
  /\ (o = Ok tt ->
      (exists definition enumerable,
          dict_get property (own i) = Some (Accessor definition enumerable)) ->
      exists pre v' post, emitted w' = emitted w ++ pre ++ (this, property, v') :: post).
Proof.
  intros Hi Hb H. unfold sync, bind at 1, set_dropsync, modify in H. simpl in H.
  set (i1 := with_dropsync true i).
  set (w1 := update_instance this (with_dropsync true) w) in *.
  assert (Hi1 : heap w1 !! this = Some i1).
  { unfold w1, update_instance; simpl. now rewrite list_lookup_alter_eq, Hi. }
  assert (Hb1 : observers_bound i1 = true) by exact Hb.
  assert (Hbus1 : bus w1 = bus w) by reflexivity.
  assert (Hem1 : emitted w1 = emitted w) by reflexivity.
  assert (Hnone : forall evs, Forall (sync_origin this i1 (eq property)) evs ->
                    forall nm id p x, ~ In (nm, SyncPayload this id p x) evs).
  { intros evs F nm id p x Hin. rewrite List.Forall_forall in F.
    destruct (F _ Hin eq_refl) as (Hf & _). discriminate. }
  unfold bind at 1, gets in H.
  destruct (dict_get property (model_properties w1 this)) as [definition|].
  2:{ injection H as <- <-. repeat split.
      - exists []. rewrite app_nil_r. split; auto.
      - intros _. exists i1. split; auto using same_shape_refl.
      - discriminate. }
  set (conv := match p_type definition with
               | Some (TModel d) => _
               | _ => _
               end) in H.
  assert (Hconv : keeps (steady this i1 (eq property)) conv).
  { unfold conv. destruct (p_type definition) as [[| | | | |d]|];
      try (apply keeps_ret, steady_refl).
    destruct (is_model_type _); [|apply keeps_ret, steady_refl].
    apply keeps_bind; [apply steady_trans | apply steady_k_init, engine_framed |].
    intros [c errs]. apply keeps_ret, steady_refl. }
  assert (Hconvf : keeps (frame 0 (Some this)) conv).
  { unfold conv. pose proof (frame_k_init (engine n) (engine_framed n)). framing. }
  specialize (Hconv w1 i1 Hi1 (same_shape_refl i1)).
  specialize (Hconvf w1 (Nat.le_0_l _)).
  unfold bind at 1 in H.
  destruct (conv w1) as [[v'|e|] w2] eqn:Ec; simpl in Hconv, Hconvf;
    destruct Hconv as (i2 & Hi2 & Hs2 & _ & evs2 & E2 & F2);
    destruct Hconvf as [_ _ _ _ (pre2 & Ep2 & _) _ _].
  2,3: injection H as <- <-; repeat split;
       [ exists evs2; split; [exact E2 | auto]
       | intros _; exists i2; split; auto
       | discriminate ].
  unfold bind at 1 in H.
  destruct (put (engine n) this property v' w2) as [op w3] eqn:Ep.
  assert (Hown2 : own_of w2 this = own i).
  { unfold own_of. rewrite Hi2. apply Hs2. }
  destruct (dict_get property (own i)) as [[d e|x]|] eqn:Hacc.
  - assert (Hacc2 : dict_get property (own i2) = Some (Accessor d e)).
    { destruct Hs2 as (_ & -> & _). exact Hacc. }
    destruct (put_while_dropsync n w2 this i2 property d e v' op w3 Hi2) as
      ((i3 & Hi3 & Hs3) & evs3 & E3 & N3); auto.
    { eapply same_shape_bound; eauto. }
    { apply Hs2. }
    assert (Hbus : bus w3 = bus w ++ evs2 ++ evs3).
    { rewrite E3, app_assoc. f_equal. exact E2. }
    assert (Hno : forall nm id p x, ~ In (nm, SyncPayload this id p x) (evs2 ++ evs3)).
    { intros nm id p x Hin. apply in_app_or in Hin as [Hin|Hin].
      - eapply Hnone; eauto.
      - eapply N3; eauto. }
    destruct op as [[]|e'|]; injection H as <- <-; repeat split; eauto;
      try (intros _; exists i3; split; auto;
           destruct Hs3 as (? & ? & ? & ?), Hs2 as (? & ? & ? & ?);
           repeat split; congruence);
      try discriminate; try congruence.
    intros _ _.
    destruct (put_logs (engine n) this property d e v' w2 w3 (engine_framed n)) as
      (pre3 & v'' & post & Epost); auto.
    { now rewrite Hown2. }
    exists (pre2 ++ pre3), v'', post. simpl.
    rewrite Epost. change (emitted w1) with (emitted w) in Ep2.
    now rewrite Ep2, <- !app_assoc.
  - destruct (put_plain (engine n) this property v' w2) as (w3' & Ep' & Eb).
    { rewrite Hown2, Hacc. discriminate. }
    rewrite Ep in Ep'. injection Ep' as -> ->.
    injection H as <- <-. repeat split.
    + exists evs2. simpl. rewrite Eb. split; [exact E2 | auto].
    + congruence.
    + intros _ (d & e & Hd). discriminate.
  - destruct (put_plain (engine n) this property v' w2) as (w3' & Ep' & Eb).
    { rewrite Hown2, Hacc. discriminate. }
    rewrite Ep in Ep'. injection Ep' as -> ->.
    injection H as <- <-. repeat split.
    + exists evs2. simpl. rewrite Eb. split; [exact E2 | auto].
    + congruence.
    + intros _ (d & e & Hd). discriminate.
Qed.


Definition sample_inbound_world : world :=
  Eval vm_compute in snd (sync (engine 1) 0 "locked" (VBool true) sample_world).


(** C10.  When applying an inbound sync payload throws, [_dropsync] is
    left true: model.sync resets it only after the assignment returned.
    From then on an assignment to a declared property of that instance
    emits no sync event, sync-enabled or not. *)
Theorem failed_sync_leaves_dropsync_set (n : nat) (w : world) (this : ref) (i : instance)
    (property : string) (v : value) (e : error) (w' : world) :
  heap w !! this = Some i ->
  observers_bound i = true ->
  sync (engine n) this property v w = (Throw e, w') ->
  dropsync_of w' this = true
  /\ forall m name definition enumerable v2 o w'',
       dict_get name (own i) = Some (Accessor definition enumerable) ->
       put (engine m) this name v2 w' = (o, w'') ->
       dropsync_of w'' this = true
       /\ exists evs, bus w'' = bus w' ++ evs
                      /\ forall nm id p x, ~ In (nm, SyncPayload this id p x) evs.
Proof.
  intros Hi Hb H.
  destruct (sync_outcome n w this i property v _ w' Hi Hb H) as (_ & H2 & _).
  destruct H2 as (i' & Hi' & Hs'); [discriminate|].
  split.
  - unfold dropsync_of. rewrite Hi'. apply Hs'.
  - intros m name definition enumerable v2 o w'' Hacc Hput.
    destruct (put_while_dropsync m w' this i' name definition enumerable v2 o w'' Hi')
      as ((i'' & Hi'' & Hs'') & Hevs); auto.
    + eapply same_shape_bound; eauto.
    + apply Hs'.
    + destruct Hs' as (_ & -> & _). exact Hacc.
    + split; [|exact Hevs]. unfold dropsync_of. rewrite Hi''.
      destruct Hs'' as (_ & _ & -> & _). apply Hs'.
Qed.

Definition sample_failed_world : world :=
  Eval vm_compute in snd (sync (engine 1) 0 "stringTest" (VNum 3) sample_world).

Lemma failed_sync_leaves_dropsync_set_witness :
  sync (engine 1) 0 "stringTest" (VNum 3) sample_world
  = (Throw (TypeViolation TString (VNum 3)), sample_failed_world)
  /\ dropsync_of sample_failed_world 0 = true
  /\ dropsync_of (snd (put (engine 1) 0 "syncTest" (VStr "later") sample_failed_world)) 0
     = true
  /\ exists evs,
       bus (snd (put (engine 1) 0 "syncTest" (VStr "later") sample_failed_world))
       = bus sample_failed_world ++ evs
       /\ forall nm id p x, ~ In (nm, SyncPayload 0 id p x) evs.
Proof.
  split; [reflexivity|].
  destruct (failed_sync_leaves_dropsync_set 1 sample_world 0 sample_model "stringTest"
              (VNum 3) (TypeViolation TString (VNum 3)) sample_failed_world) as (H1 & H2);
    try reflexivity.
  split; [exact H1|].
  apply (H2 1 "syncTest" (Decl None VUndef true None None [] None) true (VStr "later")
            (fst (put (engine 1) 0 "syncTest" (VStr "later") sample_failed_world)));
    reflexivity.
Defined.

(** * Construction *)

(** definition.init returns the instance it created, whose prototype is the
    definition, and has written nothing that existed. *)
Lemma init_returns k definition data e w this errors w' :
  api_framed k ->
  init k definition data e w = (Ok (this, errors), w') ->
  this = length (heap w)
  /\ (exists i, heap w' !! this = Some i /\ proto i = definition)
  /\ frame (length (heap w)) None w w'.
Proof.
  intros Hk H.
  pose proof (frame_init k Hk (length (heap w)) None definition data e w) as Hf.
  rewrite H in Hf. simpl in Hf.
  unfold init, bind at 1, alloc_instance in H.
  apply bind_Ok in H as (errors' & w1 & H1 & H2). injection H2 as <- <- <-.
  split; [reflexivity|]. split; [|exact Hf].
  pose proof (frame___init__ k Hk 0 (length (heap w)) data e (Nat.le_0_l _)
                (with_heap (heap w ++ [new_instance definition]) w)
                (Nat.le_0_l _)) as Hi.
  rewrite H1 in Hi. simpl in Hi.
  destruct Hi as [_ _ Hp _ _ _ _].
  apply (Hp (length (heap w)) (new_instance definition)).
  simpl. now apply list_lookup_middle.
Qed.

Lemma engine_init_returns n definition data e w this errors w' :
  k_init (engine n) definition data e w = (Ok (this, errors), w') ->
  this = length (heap w)
  /\ (exists i, heap w' !! this = Some i /\ proto i = definition)
  /\ frame (length (heap w)) None w w'.
Proof.
  destruct n as [|n]; simpl; [discriminate|].
  apply init_returns, engine_framed.
Qed.

(** A value that satisfies a definition keeps satisfying it: prototypes do
    not change. *)
Lemma typeOf_framed L target w w' t v :
  L <= length (heap w) -> frame L target w w' ->
  typeOf w t v = true -> typeOf w' t v = true.
Proof.
  intros HL Hf. destruct (Hf HL) as [_ _ Hp _ _ _ _].
  destruct t, v; simpl; auto.
  destruct (heap w !! r) as [i|] eqn:Hi; [|discriminate].
  destruct (Hp r i Hi) as (i' & -> & ->). auto.
Qed.

Lemma typeOf_model_instance w relation v :
  typeOf w (TModel relation) v = true -> exists r, v = VInst r.
Proof. destruct v; simpl; try discriminate. eauto. Qed.

(** The setter that initHasOne installs. *)
Lemma call_set_has_one k this relation v w v' w1 :
  call_set k this (Some (SetHasOne relation)) v w = (Ok v', w1) ->
  if typeOf w (TModel relation) v then v' = v /\ w1 = w
  else exists child errors,
         k_init k relation v None w = (Ok (child, errors), w1) /\ v' = VInst child.
Proof.
  unfold call_set, bind at 1, gets.
  destruct (typeOf w (TModel relation) v).
  - now intros [= <- <-].
  - intros H. apply bind_Ok in H as ([child errors] & w2 & H1 & H2).
    injection H2 as <- <-. eauto.
Qed.

(** ** Registration *)

Definition failed {A} (o : outcome A) : Prop :=
  match o with Ok _ => False | _ => True end.

(** The frame of a run that did not return: the frame of the part that
    did not return, after those of the parts before it. *)
Lemma bind_failed {A B} (R : world -> world -> Prop) (m : M A) (f : A -> M B) w o w' :
  (forall w1 w2 w3, R w1 w2 -> R w2 w3 -> R w1 w3) ->
  bind m f w = (o, w') -> failed o ->
  R w (snd (m w)) ->
  (forall a w1, m w = (Ok a, w1) -> f a w1 = (o, w') -> R w1 w') ->
  R w w'.
Proof.
  intros Ht H Ho Hm Hf. unfold bind in H.
  destruct (m w) as [[a|e|] w1] eqn:E; simpl in Hm.
  - eapply Ht; [exact Hm|]. eapply Hf; eauto.
  - now injection H as <- <-.
  - now injection H as <- <-.
Qed.

(** __init__ emits [registry:add] as its last act: a run of it that does
    not return has emitted it for instances created since only. *)
Lemma __init___failed k L this data e w o w' :
  api_framed k ->
  __init__ k this data e w = (o, w') -> failed o ->
  frame L (Some this) w w'.
Proof.
  intros Hk H Ho. unfold __init__ in H.
  eapply bind_failed; [apply frame_trans | exact H | exact Ho | apply frame_raw_fields |].
  clear H. intros fields0 w0 _ H.
  eapply bind_failed; [apply frame_trans | exact H | exact Ho | |].
  { assert (Hd : forall raw : value,
              keeps (frame L (Some this))
                (if is_undefined (dict_get_value "id" fields0)
                 then do id <- uuid_v4;
                      ret (if is_object raw then dict_set "id" id fields0 else fields0)
                 else ret fields0)) by (intros raw; framing).
    apply Hd. }
  clear H. intros fields w1 _ H.
  eapply bind_failed; [apply frame_trans | exact H | exact Ho | now apply frame_initProperties |].
  clear H. intros u2 w2 _ H.
  eapply bind_failed; [apply frame_trans | exact H | exact Ho | now apply frame_initHasMany |].
  clear H. intros u3 w3 _ H.
  eapply bind_failed; [apply frame_trans | exact H | exact Ho | now apply frame_initHasOne |].
  clear H. intros u4 w4 _ H.
  eapply bind_failed;
    [apply frame_trans | exact H | exact Ho | now apply frame_updateProperties |].
  clear H. intros errors1 w5 _ H.
  eapply bind_failed;
    [apply frame_trans | exact H | exact Ho | now apply frame_createHasMany |].
  clear H. intros errors2 w6 _ H.
  eapply bind_failed;
    [apply frame_trans | exact H | exact Ho | now apply frame_createHasOne |].
  clear H. intros errors3 w7 _ H. cbv beta in H.
  match type of H with (if ?c then _ else _) _ = _ => destruct c end.
  - injection H as _ <-. apply frame_refl.
  - unfold bind, process_emit, modify, ret in H. injection H as <- _. destruct Ho.
Qed.

(** A run of __init__ that returns ends with [registry:add] for its
    instance. *)
Lemma __init___returned k this data e w errors w' :
  api_framed k ->
  __init__ k this data e w = (Ok errors, w') ->
  exists w7,
    frame 0 (Some this) w w7
    /\ w' = with_bus (bus w7 ++ [(VStr "registry:add", RegistryPayload this)]) w7.
Proof.
  intros Hk H. unfold __init__ in H.
  apply bind_Ok in H as (fields0 & w0 & H0 & H).
  pose proof (frame_raw_fields 0 (Some this) (if truthy data then data else VObj []) w) as F0.
  rewrite H0 in F0.
  apply bind_Ok in H as (fields & w1 & H1 & H).
  assert (F1 : frame 0 (Some this) w0 w1).
  { assert (Hd : forall raw : value,
              keeps (frame 0 (Some this))
                (if is_undefined (dict_get_value "id" fields0)
                 then do id <- uuid_v4;
                      ret (if is_object raw then dict_set "id" id fields0 else fields0)
                 else ret fields0)) by (intros raw; framing).
    specialize (Hd (if truthy data then data else VObj []) w0). now rewrite H1 in Hd. }
  apply bind_Ok in H as (u2 & w2 & H2 & H).
  pose proof (frame_initProperties k Hk 0 this w1) as F2. rewrite H2 in F2.
  apply bind_Ok in H as (u3 & w3 & H3 & H).
  pose proof (frame_initHasMany k Hk 0 this w2) as F3. rewrite H3 in F3.
  apply bind_Ok in H as (u4 & w4 & H4 & H).
  pose proof (frame_initHasOne k Hk 0 this w3) as F4. rewrite H4 in F4.
  apply bind_Ok in H as (e5 & w5 & H5 & H).
  pose proof (frame_updateProperties k Hk 0 this fields
                (match e with Some errors => errors | None => [] end) w4) as F5.
  rewrite H5 in F5.
  apply bind_Ok in H as (e6 & w6 & H6 & H).
  pose proof (frame_createHasMany k Hk 0 this fields e5 w5) as F6. rewrite H6 in F6.
  apply bind_Ok in H as (e7 & w7 & H7 & H).
  pose proof (frame_createHasOne k Hk 0 this fields e6 w6) as F7. rewrite H7 in F7.
  exists w7. split.
  - repeat (eapply frame_trans; [eassumption|]). apply frame_refl.
  - match type of H with (if ?c then _ else _) _ = _ => destruct c end; [discriminate|].
    unfold bind, process_emit, modify, ret in H. now injection H as _ <-.
Qed.

(** C5 (amended).  A construction call registers the instance it
    constructs as its last act, after the check of the error sink: when the
    call returns, [registry:add] for that instance is the last event it
    emitted; when the call throws, it has emitted no [registry:add] for
    that instance. *)
Theorem registered_only_when_constructed (n : nat) (definition : defn) (data : value)
    (e : option (list error)) (w : world) (o : outcome (ref * list error)) (w' : world) :
  init (engine n) definition data e w = (o, w') ->
  exists evs,
    bus w' = bus w ++ evs
    /\ match o with
       | Ok (this, _) =>
           this = length (heap w)
           /\ exists pre, evs = pre ++ [(VStr "registry:add", RegistryPayload this)]
       | _ => forall name, ~ In (name, RegistryPayload (length (heap w))) evs
       end.
Proof.
  intros H. unfold init, bind at 1, alloc_instance in H.
  set (this := length (heap w)) in *.
  set (w0 := with_heap (heap w ++ [new_instance definition]) w) in *.
  assert (Hlen : S this <= length (heap w0)).
  { unfold w0, this; simpl. rewrite length_app. simpl. lia. }
  unfold bind at 1 in H.
  destruct (__init__ (engine n) this data e w0) as [[errors|err|] w1] eqn:Hinit.
  - injection H as <- <-.
    destruct (__init___returned (engine n) this data e w0 errors w1
                (engine_framed n) Hinit) as (w7 & Hf7 & ->).
    destruct (Hf7 (Nat.le_0_l _)) as [_ _ _ (pre & Epre & _) _ _ _].
    exists (pre ++ [(VStr "registry:add", RegistryPayload this)]).
    split; [|split; [reflexivity | eauto]].
    simpl. rewrite Epre. now rewrite <- app_assoc.
  - injection H as <- <-.
    pose proof (__init___failed (engine n) (S this) this data e w0 _ w1
                  (engine_framed n) Hinit I Hlen) as Hf.
    destruct Hf as [_ _ _ (evs & E & F) _ _ _].
    exists evs. split; [exact E|]. intros name Hin.
    rewrite List.Forall_forall in F. specialize (F _ Hin).
    unfold bus_origin in F. simpl in F. unfold this in F. lia.
  - injection H as <- <-.
    pose proof (__init___failed (engine n) (S this) this data e w0 _ w1
                  (engine_framed n) Hinit I Hlen) as Hf.
    destruct Hf as [_ _ _ (evs & E & F) _ _ _].
    exists evs. split; [exact E|]. intros name Hin.
    rewrite List.Forall_forall in F. specialize (F _ Hin).
    unfold bus_origin in F. simpl in F. unfold this in F. lia.
Qed.

Definition failing_children : value :=
  VObj [("id", VStr "parent");
        ("children", VArr 0 [VObj [("name", VNum 10)]; VObj [("name", VStr "ok")]])].

Definition failed_children_world : world :=
  Eval vm_compute in snd (init (engine 2) Model failing_children None empty_world).

Lemma registered_only_when_constructed_witness :
  init (engine 2) Model failing_children None empty_world
  = (Throw (Errors 0 [TypeViolation TString (VNum 10)]), failed_children_world)
  /\ exists evs,
       bus failed_children_world = bus empty_world ++ evs
       /\ forall name, ~ In (name, RegistryPayload 0) evs.
Proof.
  split; [reflexivity|].
  apply (registered_only_when_constructed 2 Model failing_children None empty_world
           (Throw (Errors 0 [TypeViolation TString (VNum 10)])) failed_children_world).
  reflexivity.
Defined.

(** C5 (as stated) fails: constructing a parent whose first child record is
    invalid throws the aggregate, and by then both children, instances 1 and
    2, the invalid one and its valid sibling, have emitted [registry:add]
    and sit in the parent's collection. *)
Lemma children_registered_by_failed_construction :
  fst (init (engine 2) Model failing_children None empty_world)
  = Throw (Errors 0 [TypeViolation TString (VNum 10)])
  /\ In (VStr "registry:add", RegistryPayload 1) (bus failed_children_world)
  /\ In (VStr "registry:add", RegistryPayload 2) (bus failed_children_world)
  /\ In (VInst 1) (flat_map items (collections failed_children_world))
  /\ In (VInst 2) (flat_map items (collections failed_children_world))
  /\ map (fun i => dname (proto i)) (heap failed_children_world)
     = ["Model"; "ChildModel"; "ChildModel"].
Proof. vm_compute. intuition. Qed.

(** ** Defaults *)

(** C8 (what Base.js does).  Two instances of the same definition get two
    collections for a has-many relationship; but initHasMany builds the
    collection id from [model.id] before updateProperties has assigned the
    id, so both are keyed ["undefined-children"], whatever the ids of their
    owners. *)
Theorem has_many_collection_key :
  let w1 := snd (init (engine 2) Model (VObj [("id", VStr "a")]) None empty_world) in
  let w2 := snd (init (engine 2) Model (VObj [("id", VStr "b")]) None w1) in
  read w2 0 "id" = VStr "a" /\ read w2 1 "id" = VStr "b"
  /\ read w2 0 "children" = VColl 0 /\ read w2 1 "children" = VColl 1
  /\ map c_id (collections w2) = ["undefined-children"; "undefined-children"].
Proof. repeat split. Qed.

(** An array default is replaced by a new array for each instance: the
    value handed to the declaration's [set] is the array that the world
    allocates next. *)
Lemma array_default_is_fresh k model name definition enumerable w :
  is_array (p_defaultValue definition) = true ->
  p_set definition = None ->
  p_on definition = [] ->
  createProperty k model name definition enumerable w
  = (Ok tt,
     with_arrays (S (arrays w))
       (update_instance model
          (fun i => with_data (dict_set name (VArr (arrays w) []) (_data i)) i)
          (update_instance model
             (fun i => with_own (own i ++ [(name, Accessor definition enumerable)]) i) w))).
Proof.
  intros Ha Hs Ho. unfold createProperty. rewrite Hs, Ho, Ha.
  destruct (p_defaultValue definition); try discriminate. reflexivity.
Qed.


(** ** Materialising the accessors *)

Lemma update_instance_lookup r f w i :
  heap w !! r = Some i -> heap (update_instance r f w) !! r = Some (f i).
Proof.
  intros Hi. unfold update_instance; simpl. now rewrite list_lookup_alter_eq, Hi.
Qed.

Lemma hasOwnKey_set {A} (k key : string) (v : A) (d : list (string * A)) :
  hasOwnKey key (dict_set k v d) = true -> hasOwnKey key d = true \/ key = k.
Proof.
  unfold hasOwnKey. destruct (String.eqb_spec k key) as [->|Hne]; auto.
  rewrite dict_get_set_ne by auto. auto.
Qed.

Lemma hasOwnKey_set_ne {A} (k key : string) (v : A) (d : list (string * A)) :
  k <> key -> hasOwnKey key (dict_set k v d) = hasOwnKey key d.
Proof. intros H. unfold hasOwnKey. now rewrite dict_get_set_ne. Qed.

Lemma hasOwnKey_In {A} (key : string) (d : list (string * A)) :
  hasOwnKey key d = true -> In key (keys d).
Proof.
  unfold hasOwnKey, keys. induction d as [|[k x] d IH]; simpl; [discriminate|].
  destruct (String.eqb_spec k key); auto.
Qed.

Lemma dict_get_In {A} (key : string) (x : A) (d : list (string * A)) :
  dict_get key d = Some x -> In (key, x) d.
Proof.
  induction d as [|[k y] d IH]; simpl; [discriminate|].
  destruct (String.eqb_spec k key) as [->|Hne]; auto.
  intros [= ->]. now left.
Qed.

Lemma dict_get_None {A} (key : string) (d : list (string * A)) :
  dict_get key d = None -> ~ In key (keys d).
Proof.
  unfold keys. induction d as [|[k y] d IH]; simpl; auto.
  destruct (String.eqb_spec k key) as [->|Hne]; [discriminate|].
  intros H [H'|H']; [contradiction | now apply IH].
Qed.

Lemma dict_get_NoDup {A} (key : string) (x : A) (d : list (string * A)) :
  NoDup (keys d) -> In (key, x) d -> dict_get key d = Some x.
Proof.
  unfold keys. induction d as [|[k y] d IH]; simpl; [contradiction|].
  intros Hnd [H|H].
  - injection H as -> ->. now rewrite String.eqb_refl.
  - apply NoDup_cons in Hnd as [Hk Hnd].
    destruct (String.eqb_spec k key) as [->|Hne]; auto.
    destruct Hk. apply list_elem_of_In. apply in_map_iff. now exists (key, x).
Qed.

Lemma dict_get_of_key {A} (key : string) (d : list (string * A)) :
  In key (keys d) -> exists x, dict_get key d = Some x.
Proof.
  unfold keys. induction d as [|[k y] d IH]; simpl; [contradiction|].
  destruct (String.eqb_spec k key); eauto. intros [H|H]; [contradiction|auto].
Qed.

(** Overwriting a key that is there keeps the keys and their order. *)
Lemma keys_dict_set {A} (k : string) (v : A) (d : list (string * A)) :
  hasOwnKey k d = true -> keys (dict_set k v d) = keys d.
Proof.
  unfold hasOwnKey, keys. induction d as [|[k' x] d IH]; simpl; [discriminate|].
  destruct (String.eqb_spec k' k) as [->|Hne]; simpl; [reflexivity|].
  intros H. now rewrite IH.
Qed.

Lemma In_dict_set {A} (k key : string) (v x : A) (d : list (string * A)) :
  In (key, x) (dict_set k v d) -> In (key, x) d \/ (key = k /\ x = v).
Proof.
  induction d as [|[k' y] d IH]; simpl.
  - intros [[= <- <-]|[]]. auto.
  - destruct (String.eqb_spec k' k) as [->|Hne]; simpl.
    + intros [[= <- <-]|H]; auto.
    + intros [H|H]; auto. destruct (IH H); auto.
Qed.

(** The listeners that createProperty registers for a declaration. *)
Definition registered (name : string) (definition : decl) :
    list (string * (string * observer)) :=
  map (fun po => (fst po, (name, snd po))) (entries (p_on definition)).

Lemma add_listeners_run model name (l : list (string * observer)) w i :
  heap w !! model = Some i ->
  exists w',
    forEach l (fun '(property, o) => add_listener model property name o) w = (Ok tt, w')
    /\ heap w' !! model
       = Some (with_listeners
                 (listeners i ++ map (fun po => (fst po, (name, snd po))) l) i)
    /\ bus w' = bus w.
Proof.
  revert w i. induction l as [|[property o] l IH]; intros w i Hi; simpl.
  - exists w. rewrite app_nil_r. destruct i. auto.
  - destruct (IH _ _ (update_instance_lookup model
                        (fun i => with_listeners (listeners i ++ [(property, (name, o))]) i)
                        w i Hi)) as (w' & Hrun & Hi' & Hb).
    exists w'. split; [exact Hrun|]. split; [|exact Hb].
    rewrite Hi'. simpl. now rewrite <- app_assoc.
Qed.

(** createProperty, for a declaration whose [set] constructs nothing. *)
Lemma createProperty_run k model name definition enumerable w i :
  heap w !! model = Some i ->
  is_undefined (p_defaultValue definition) = true
  \/ declared_setter (p_set definition) = true ->
  exists w' i',
    createProperty k model name definition enumerable w = (Ok tt, w')
    /\ heap w' !! model = Some i'
    /\ proto i' = proto i
    /\ own i' = own i ++ [(name, Accessor definition enumerable)]
    /\ listeners i' = listeners i ++ registered name definition
    /\ (forall key, hasOwnKey key (_data i') = true ->
          hasOwnKey key (_data i) = true \/ (key = name /\
            is_undefined (p_defaultValue definition) = false)).
Proof.
  intros Hi Hd. unfold createProperty, bind at 1, define_accessor, modify.
  set (w1 := update_instance model _ w).
  pose proof (update_instance_lookup model
                (fun i => with_own (own i ++ [(name, Accessor definition enumerable)]) i)
                w i Hi) as Hi1.
  fold w1 in Hi1. unfold bind at 1.
  destruct (is_undefined (p_defaultValue definition)) eqn:Hu.
  - unfold ret.
    destruct (add_listeners_run model name (entries (p_on definition)) w1 _ Hi1)
      as (w' & -> & Hi' & _).
    eexists _, _. split; [reflexivity|]. split; [exact Hi'|]. simpl. repeat split; auto.
  - destruct Hd as [Hd|Hd]; [discriminate|].
    set (alloc := if is_array (p_defaultValue definition) then fresh_array
                  else ret (p_defaultValue definition)).
    assert (Ha : exists v w2, alloc w1 = (Ok v, w2) /\ heap w2 = heap w1).
    { unfold alloc. destruct (is_array _); eexists _, _; split; reflexivity. }
    destruct Ha as (v & w2 & Ha & Hh2).
    unfold bind at 1. rewrite Ha. unfold bind at 1.
    destruct (call_set_declared k None (p_set definition) v w2 Hd) as (evs & -> & _).
    set (w2' := with_bus (bus w2 ++ evs) w2).
    assert (Hi2 : heap w2' !! model
                  = Some (with_own (own i ++ [(name, Accessor definition enumerable)]) i)).
    { unfold w2'. simpl. rewrite Hh2. exact Hi1. }
    pose proof (update_instance_lookup model
                  (fun i => with_data (dict_set name (transformed (p_set definition) v)
                                         (_data i)) i) w2' _ Hi2) as Hi3.
    destruct (add_listeners_run model name (entries (p_on definition)) _ _ Hi3)
      as (w' & Hrun & Hi' & _).
    exists w'. eexists. split; [exact Hrun|]. split; [exact Hi'|].
    simpl. repeat split; auto.
    intros key Hk. apply hasOwnKey_set in Hk as [Hk| ->]; auto.
Qed.

(** The names that the new object owns before any accessor is created:
    those that initProperties defines first and the emitter's fields.  A
    declaration under one of them gets no accessor. *)
Definition reserved (name : string) : bool :=
  existsb (String.eqb name) ["_data"; "_dropsync"; "domain"; "_events"; "_maxListeners"].

Definition enumerable_of (definition : decl) : bool :=
  match p_enumerable definition with Some false => false | _ => true end.

(** The property names that some declaration of the definition observes. *)
Definition watched (d : defn) : list string :=
  flat_map (fun p => keys (entries (p_on (snd p)))) (entries (properties d)).

(** An instance under construction: it owns the emitter's fields, and its
    other own properties are accessors, each under one name, the enumerable
    ones following the declaration of that name; its listeners watch
    observed names; its [_data] holds declared properties and
    collections. *)
Record shaped (d : defn) (i : instance) : Prop := Shaped {
  shaped_proto : proto i = d;
  shaped_nodup : NoDup (keys (own i));
  shaped_emitter : forall name, In name (keys emitter_fields) ->
                     hasOwnKey name (own i) = true;
  shaped_own : forall name s, In (name, s) (own i) ->
                 match s with
                 | Accessor definition true =>
                     dict_get name (entries (properties d)) = Some definition
                     /\ enumerable_of definition = true /\ reserved name = false
                 | Accessor _ false => True
                 | Plain _ => reserved name = true
                 end;
  shaped_listeners : forall l, In l (listeners i) -> In (fst l) (watched d);
  shaped_data : forall key, hasOwnKey key (_data i) = true ->
                  In key (keys (entries (properties d)) ++ keys (entries (hasMany d))) }.

Lemma shaped_new d : shaped d (with_dropsync false (with_data [] (new_instance d))).
Proof.
  split; simpl; auto.
  - repeat (apply NoDup_cons; split;
            [intros H; apply list_elem_of_In in H; simpl in H; intuition discriminate|]).
    apply NoDup_nil_2.
  - intros name [<-|[<-|[<-|[]]]]; reflexivity.
  - intros name s [[= <- <-]|[[= <- <-]|[[= <- <-]|[]]]]; reflexivity.
  - contradiction.
  - discriminate.
Qed.

Lemma forEach_cons {A} (x : A) (l : list A) (f : A -> M unit) w :
  forEach (x :: l) f w
  = match f x w with
    | (Ok _, w1) => forEach l f w1
    | (Throw e, w1) => (Throw e, w1)
    | (OutOfFuel, w1) => (OutOfFuel, w1)
    end.
Proof. reflexivity. Qed.

Lemma forEach_with_cons {A S} (x : A) (l : list A) (f : A -> S -> M S) (s : S) w :
  forEach_with (x :: l) f s w
  = match f x s w with
    | (Ok s', w1) => forEach_with l f s' w1
    | (Throw e, w1) => (Throw e, w1)
    | (OutOfFuel, w1) => (OutOfFuel, w1)
    end.
Proof. reflexivity. Qed.

Lemma bind_gets {A B} (f : world -> A) (g : A -> M B) w : bind (gets f) g w = g (f w) w.
Proof. reflexivity. Qed.

Lemma watched_In d name definition x :
  In (name, definition) (entries (properties d)) ->
  In x (keys (entries (p_on definition))) -> In x (watched d).
Proof.
  intros Hin Hx. unfold watched. apply in_flat_map. exists (name, definition). auto.
Qed.

(** createProperty keeps the instance shaped. *)
Lemma shaped_createProperty d i i' name definition enumerable :
  shaped d i ->
  hasOwnKey name (own i) = false ->
  (enumerable = true ->
   dict_get name (entries (properties d)) = Some definition
   /\ enumerable_of definition = true /\ reserved name = false) ->
  (forall x, In x (keys (entries (p_on definition))) -> In x (watched d)) ->
  In name (keys (entries (properties d)) ++ keys (entries (hasMany d)))
  \/ is_undefined (p_defaultValue definition) = true ->
  proto i' = proto i ->
  own i' = own i ++ [(name, Accessor definition enumerable)] ->
  listeners i' = listeners i ++ registered name definition ->
  (forall key, hasOwnKey key (_data i') = true ->
     hasOwnKey key (_data i) = true
     \/ (key = name /\ is_undefined (p_defaultValue definition) = false)) ->
  shaped d i'.
Proof.
  intros [Hp Hn Hem Ho Hl Hd] Hnew He Hw Hk Ep Eo El Ed. split.
  - congruence.
  - rewrite Eo. unfold keys. rewrite map_app. simpl. apply NoDup_app. repeat split; auto.
    + intros x Hx Hx'. apply list_elem_of_In in Hx. apply list_elem_of_In in Hx'.
      destruct Hx' as [<-|[]]. unfold hasOwnKey in Hnew.
      destruct (dict_get name (own i)) eqn:E; [discriminate|].
      now apply dict_get_None in E.
    + apply NoDup_singleton.
  - intros name' Hin. specialize (Hem name' Hin). unfold hasOwnKey in *.
    rewrite Eo, dict_get_app. now destruct (dict_get name' (own i)).
  - intros name' s. rewrite Eo. intros Hin. apply in_app_or in Hin as [Hin|[Hin|[]]].
    + now apply Ho.
    + injection Hin as <- <-. destruct enumerable; auto.
  - intros l. rewrite El. intros Hin. apply in_app_or in Hin as [Hin|Hin]; auto.
    unfold registered in Hin. apply in_map_iff in Hin as ([p o] & <- & Hin). simpl.
    apply Hw. unfold keys. apply in_map_iff. now exists (p, o).
  - intros key Hkey. destruct (Ed key Hkey) as [H|[-> Hu]]; auto.
    destruct Hk as [Hk|Hk]; [auto | congruence].
Qed.

(** hasOwnKey(name, model), on an instance that owns the emitter's fields. *)
Lemma hasOwnKey_model_own w name this i :
  heap w !! this = Some i ->
  (forall name, In name (keys emitter_fields) -> hasOwnKey name (own i) = true) ->
  hasOwnKey_model w name this = reserved name || hasOwnKey name (own i).
Proof.
  intros Hi Hem. unfold hasOwnKey_model, own_of, reserved. rewrite Hi. simpl.
  destruct (name =? "_data"); [reflexivity|].
  destruct (name =? "_dropsync"); [reflexivity|]. simpl.
  destruct (String.eqb_spec name "domain") as [->|_].
  { rewrite Hem; [reflexivity | simpl; auto]. }
  destruct (String.eqb_spec name "_events") as [->|_].
  { rewrite Hem; [reflexivity | simpl; auto]. }
  destruct (String.eqb_spec name "_maxListeners") as [->|_].
  { rewrite Hem; [reflexivity | simpl; auto]. }
  reflexivity.
Qed.

Section Population.

Variable k : api.
Variables (d : defn) (this : ref).

Hypothesis declared :
  forall name definition,
    In (name, definition) (entries (properties d)) ->
    declared_setter (p_set definition) = true.

(** The declarations seen so far have their accessors, and there are no
    others. *)
Definition declared_upto (seen : list string) (i : instance) : Prop :=
  (forall name definition,
      dict_get name (entries (properties d)) = Some definition -> In name seen ->
      reserved name = false ->
      dict_get name (own i) = Some (Accessor definition (enumerable_of definition)))
  /\ (forall name, In name (keys (own i)) -> In name seen \/ reserved name = true).

Lemma initProperties_loop (rest : list (string * decl)) :
  forall prefix w i,
    entries (properties d) = prefix ++ rest ->
    heap w !! this = Some i -> shaped d i -> declared_upto (keys prefix) i ->
    exists w' i',
      forEach rest
        (fun '(name, definition) =>
           do has <- gets (fun w => hasOwnKey_model w name this);
           if has then ret tt
           else createProperty k this name definition
                  (match p_enumerable definition with Some false => false | _ => true end))
        w = (Ok tt, w')
      /\ heap w' !! this = Some i' /\ shaped d i'
      /\ declared_upto (keys (entries (properties d))) i'.
Proof.
  induction rest as [|[name definition] rest IH]; intros prefix w i Hps Hi Hsh Hup.
  - exists w, i. rewrite app_nil_r in Hps. rewrite Hps. auto.
  - rewrite forEach_cons, bind_gets,
      (hasOwnKey_model_own w name this i Hi (shaped_emitter _ _ Hsh)).
    assert (Hps' : entries (properties d) = (prefix ++ [(name, definition)]) ++ rest).
    { now rewrite <- app_assoc. }
    assert (Hkeys : keys (prefix ++ [(name, definition)]) = keys prefix ++ [name]).
    { unfold keys. now rewrite map_app. }
    assert (Hin : In (name, definition) (entries (properties d))).
    { rewrite Hps. apply in_or_app. right. now left. }
    destruct Hup as [Hup1 Hup2].
    destruct (reserved name || hasOwnKey name (own i)) eqn:Hhas.
    + apply (IH _ w i Hps' Hi Hsh). rewrite Hkeys. split.
      * intros name' def' Hget Hseen Hres.
        apply in_app_or in Hseen as [Hseen|[<-|[]]]; [now apply Hup1|].
        rewrite Hres in Hhas. simpl in Hhas.
        apply Hup1; auto.
        destruct (Hup2 name (hasOwnKey_In _ _ Hhas)) as [H|H]; [exact H | congruence].
      * intros name' Hown. destruct (Hup2 name' Hown) as [H|H]; auto.
        left. apply in_or_app. now left.
    + apply orb_false_iff in Hhas as [Hres Hown].
      assert (Hfresh : ~ In name (keys prefix)).
      { intros Hseen.
        destruct (dict_get_of_key name (entries (properties d))) as (def' & Hget).
        { rewrite Hps. unfold keys. rewrite map_app. apply in_or_app. now left. }
        specialize (Hup1 name def' Hget Hseen Hres).
        unfold hasOwnKey in Hown. now rewrite Hup1 in Hown. }
      assert (Hget : dict_get name (entries (properties d)) = Some definition).
      { rewrite Hps, dict_get_app.
        destruct (dict_get name prefix) as [x|] eqn:E.
        - apply dict_get_In in E. destruct Hfresh. unfold keys.
          apply in_map_iff. now exists (name, x).
        - simpl. now rewrite String.eqb_refl. }
      destruct (createProperty_run k this name definition (enumerable_of definition) w i Hi)
        as (w1 & i1 & Hrun & Hi1 & Ep & Eo & El & Ed).
      { right. eapply declared; eauto. }
      unfold enumerable_of in Hrun. rewrite Hrun.
      assert (Hsh1 : shaped d i1).
      { eapply shaped_createProperty; eauto.
        - intros x Hx. eapply watched_In; eauto.
        - left. apply in_or_app. left. unfold keys. apply in_map_iff.
          now exists (name, definition). }
      apply (IH _ w1 i1 Hps' Hi1 Hsh1). rewrite Hkeys. split.
      * intros name' def' Hget' Hseen Hres'. rewrite Eo, dict_get_app.
        apply in_app_or in Hseen as [Hseen|[<-|[]]].
        -- now rewrite (Hup1 name' def' Hget' Hseen Hres').
        -- unfold hasOwnKey in Hown.
           destruct (dict_get name (own i)); [discriminate|].
           simpl. rewrite String.eqb_refl. congruence.
      * intros name' Hown'. rewrite Eo in Hown'. unfold keys in Hown'.
        rewrite map_app in Hown'. apply in_app_or in Hown' as [H|H].
        -- destruct (Hup2 name' H) as [H'|H']; auto. left. apply in_or_app. now left.
        -- left. apply in_or_app. now right.
Qed.

Lemma initProperties_run w :
  heap w !! this = Some (new_instance d) ->
  exists w' i',
    initProperties k this w = (Ok tt, w')
    /\ heap w' !! this = Some i' /\ shaped d i'
    /\ declared_upto (keys (entries (properties d))) i'.
Proof.
  intros Hi. unfold initProperties, bind at 1, modify.
  set (w1 := update_instance this _ w).
  pose proof (update_instance_lookup this
                (fun i => with_dropsync false (with_data [] i)) w _ Hi) as Hi1.
  fold w1 in Hi1. rewrite bind_gets.
  assert (Hps : model_properties w1 this = properties d).
  { unfold model_properties. now rewrite Hi1. }
  rewrite Hps.
  apply (initProperties_loop (entries (properties d)) [] w1 _ eq_refl Hi1).
  - apply shaped_new.
  - split; simpl.
    + contradiction.
    + intros name [<-|[<-|[<-|[]]]]; now right.
Qed.

(** Every declaration has its accessor. *)
Definition declared_all (i : instance) : Prop :=
  forall name definition,
    dict_get name (entries (properties d)) = Some definition -> reserved name = false ->
    dict_get name (own i) = Some (Accessor definition (enumerable_of definition)).

Lemma declared_upto_all i :
  declared_upto (keys (entries (properties d))) i -> declared_all i.
Proof.
  intros [H _] name definition Hget Hres. apply H; auto.
  apply dict_get_In in Hget. unfold keys. apply in_map_iff. now exists (name, definition).
Qed.

Lemma declared_all_app i i' name s :
  declared_all i -> own i' = own i ++ [(name, s)] -> declared_all i'.
Proof.
  intros H Eo name' definition Hget Hres. rewrite Eo, dict_get_app.
  now rewrite (H name' definition Hget Hres).
Qed.

Lemma initHasMany_loop (rels : list (string * defn)) :
  forall w i,
    (forall x, In x rels -> In x (entries (hasMany d))) ->
    heap w !! this = Some i -> shaped d i -> declared_all i ->
    exists w' i',
      forEach rels
        (fun '(name, relation) =>
           do has <- gets (fun w => hasOwnKey_model w name this);
           if has then ret tt
           else
             do id <- gets (fun w => read w this "id");
             do c <- Collection_init relation
                       (String.append (to_string id) (String.append "-" name));
             createProperty k this name (has_many_decl c) false)
        w = (Ok tt, w')
      /\ heap w' !! this = Some i' /\ shaped d i' /\ declared_all i'.
Proof.
  induction rels as [|[name relation] rels IH]; intros w i Hsub Hi Hsh Hall.
  - exists w, i. auto.
  - rewrite forEach_cons, bind_gets,
      (hasOwnKey_model_own w name this i Hi (shaped_emitter _ _ Hsh)).
    assert (Hsub' : forall x, In x rels -> In x (entries (hasMany d))).
    { intros x Hx. apply Hsub. now right. }
    destruct (reserved name || hasOwnKey name (own i)) eqn:Hhas.
    + now apply (IH w i).
    + apply orb_false_iff in Hhas as [Hres Hown].
      rewrite bind_gets. unfold bind at 1, Collection_init.
      set (w0 := with_collections _ w).
      set (c := length (collections w)).
      assert (Hi0 : heap w0 !! this = Some i) by exact Hi.
      destruct (createProperty_run k this name (has_many_decl c) false w0 i Hi0)
        as (w1 & i1 & Hrun & Hi1 & Ep & Eo & El & Ed); [now right|].
      rewrite Hrun. apply (IH w1 i1); auto.
      * eapply shaped_createProperty; eauto; try discriminate.
        -- simpl. contradiction.
        -- left. apply in_or_app. right. unfold keys. apply in_map_iff.
           exists (name, relation). split; auto. apply Hsub. now left.
      * eapply declared_all_app; eauto.
Qed.

Lemma initHasOne_loop (rels : list (string * defn)) :
  forall w i,
    heap w !! this = Some i -> shaped d i -> declared_all i ->
    exists w' i',
      forEach rels
        (fun '(name, relation) =>
           do has <- gets (fun w => hasOwnKey_model w name this);
           if has then ret tt
           else createProperty k this name (has_one_decl relation) false)
        w = (Ok tt, w')
      /\ heap w' !! this = Some i' /\ shaped d i' /\ declared_all i'.
Proof.
  induction rels as [|[name relation] rels IH]; intros w i Hi Hsh Hall.
  - exists w, i. auto.
  - rewrite forEach_cons, bind_gets,
      (hasOwnKey_model_own w name this i Hi (shaped_emitter _ _ Hsh)).
    destruct (reserved name || hasOwnKey name (own i)) eqn:Hhas.
    + now apply (IH w i).
    + apply orb_false_iff in Hhas as [Hres Hown].
      destruct (createProperty_run k this name (has_one_decl relation) false w i Hi)
        as (w1 & i1 & Hrun & Hi1 & Ep & Eo & El & Ed); [now left|].
      rewrite Hrun. apply (IH w1 i1); auto.
      * eapply shaped_createProperty; eauto; try discriminate.
        -- simpl. contradiction.
        -- now right.
      * eapply declared_all_app; eauto.
Qed.

(** After initProperties, initHasMany and initHasOne the instance is
    shaped and every declaration has its accessor; nothing was emitted on
    the bus but the edit events of defaults, and nothing stored but
    defaults and collections. *)
Lemma materialised w :
  heap w !! this = Some (new_instance d) ->
  exists w1 w2 w3 i',
    initProperties k this w = (Ok tt, w1)
    /\ initHasMany k this w1 = (Ok tt, w2)
    /\ initHasOne k this w2 = (Ok tt, w3)
    /\ heap w3 !! this = Some i' /\ shaped d i' /\ declared_all i'.
Proof.
  intros Hi.
  destruct (initProperties_run w Hi) as (w1 & i1 & H1 & Hi1 & Hs1 & Hu1).
  destruct (initHasMany_loop (entries (hasMany d)) w1 i1 (fun x H => H) Hi1 Hs1
              (declared_upto_all i1 Hu1)) as (w2 & i2 & H2 & Hi2 & Hs2 & Ha2).
  destruct (initHasOne_loop (entries (hasOne d)) w2 i2 Hi2 Hs2 Ha2)
    as (w3 & i3 & H3 & Hi3 & Hs3 & Ha3).
  exists w1, w2, w3, i3. split; [exact H1|]. split; [|split; [|auto]].
  - unfold initHasMany. rewrite bind_gets.
    unfold model_hasMany. rewrite Hi1. now rewrite (shaped_proto _ _ Hs1).
  - unfold initHasOne. rewrite bind_gets.
    unfold model_hasOne. rewrite Hi2. now rewrite (shaped_proto _ _ Hs2).
Qed.

End Population.

(** ** What a run leaves of the accessors, and what it throws

    [stable w w']: no instance was lost and every accessor is still in its
    place, with the declaration it was created for.  [sound L m]: [m] keeps
    the worlds stable, and an aggregate that it throws is the one of an
    instance at [L] or above: of an instance created since, when [L] is the
    size of the heap. *)

Lemma bind_ok_eq {A B} (m : M A) (f : A -> M B) w a w1 :
  m w = (Ok a, w1) -> bind m f w = f a w1.
Proof. intros H. unfold bind. now rewrite H. Qed.

Lemma bind_throw_eq {A B} (m : M A) (f : A -> M B) w e w1 :
  m w = (Throw e, w1) -> bind m f w = (Throw e, w1).
Proof. intros H. unfold bind. now rewrite H. Qed.

Lemma try_catch_put k model name v (errors : list error) w :
  try_catch (put k model name v ;; ret errors) (fun err => ret (errors ++ [err])) w
  = match put k model name v w with
    | (Ok _, w1) => (Ok errors, w1)
    | (Throw e, w1) => (Ok (errors ++ [e]), w1)
    | (OutOfFuel, w1) => (OutOfFuel, w1)
    end.
Proof. unfold try_catch, bind. now destruct (put k model name v w) as [[u|e|] w1]. Qed.

(** Split a conjunction into its parts, and nothing else. *)
Ltac conjuncts := repeat match goal with |- _ /\ _ => split end.

Definition stable (w w' : world) : Prop :=
  length (heap w) <= length (heap w')
  /\ forall r name definition enumerable,
       dict_get name (own_of w r) = Some (Accessor definition enumerable) ->
       dict_get name (own_of w' r) = Some (Accessor definition enumerable).

Lemma stable_refl w : stable w w.
Proof. split; auto. Qed.

Lemma stable_trans w1 w2 w3 : stable w1 w2 -> stable w2 w3 -> stable w1 w3.
Proof. intros [L1 H1] [L2 H2]. split; [lia|]. auto. Qed.

Lemma stable_same_heap w w' : heap w' = heap w -> stable w w'.
Proof. intros H. unfold stable, own_of. rewrite H. auto. Qed.

Lemma stable_update_instance r f w :
  (forall i name definition enumerable,
      heap w !! r = Some i ->
      dict_get name (own i) = Some (Accessor definition enumerable) ->
      dict_get name (own (f i)) = Some (Accessor definition enumerable)) ->
  stable w (update_instance r f w).
Proof.
  intros Hf. split.
  - unfold update_instance; simpl. now rewrite length_alter.
  - intros r' name definition enumerable. unfold own_of, update_instance; simpl.
    destruct (decide (r = r')) as [<-|Hne].
    + rewrite list_lookup_alter_eq. destruct (heap w !! r) as [i|] eqn:Hi; simpl; auto.
    + now rewrite list_lookup_alter_ne.
Qed.

Definition sound_at {A} (L : nat) (m : M A) (w : world) : Prop :=
  L <= length (heap w) ->
  stable w (snd (m w))
  /\ forall r errors, fst (m w) = Throw (Errors r errors) -> L <= r.

Definition sound {A} (L : nat) (m : M A) : Prop := forall w, sound_at L m w.

Lemma sound_at_bind {A B} L (m : M A) (f : A -> M B) w :
  sound_at L m w ->
  (forall a w1, m w = (Ok a, w1) -> sound_at L (f a) w1) ->
  sound_at L (bind m f) w.
Proof.
  intros Hm Hf HL. destruct (Hm HL) as [Hs He]. unfold bind.
  destruct (m w) as [[a|e|] w1] eqn:E; simpl in *.
  - destruct (Hf a w1 eq_refl) as [Hs' He'].
    { destruct Hs. lia. }
    destruct (f a w1) as [o2 w2]. simpl in *.
    split; [exact (stable_trans _ _ _ Hs Hs') | exact He'].
  - split; [exact Hs|]. intros r errors [= ->]. now apply (He r errors).
  - split; [exact Hs|]. discriminate.
Qed.

Section SoundRules.

Variable L : nat.

Lemma sound_bind {A B} (m : M A) (f : A -> M B) :
  sound L m -> (forall a, sound L (f a)) -> sound L (bind m f).
Proof. intros Hm Hf w. apply sound_at_bind; auto. intros a w1 _. apply Hf. Qed.

Lemma sound_gets_bind {A B} (f : world -> A) (g : A -> M B) :
  (forall w, sound_at L (g (f w)) w) -> sound L (bind (gets f) g).
Proof. intros H w. apply H. Qed.

(** A step that changes nothing and throws no aggregate. *)
Lemma sound_quiet {A} (m : M A) :
  (forall w, snd (m w) = w) ->
  (forall w r errors, fst (m w) <> Throw (Errors r errors)) ->
  sound L m.
Proof.
  intros Hw He w _. rewrite Hw. split; [apply stable_refl|].
  intros r errors H. now destruct (He w r errors).
Qed.

(** A step that returns. *)
Lemma sound_returns {A} (m : M A) :
  (forall w, exists a, fst (m w) = Ok a) -> (forall w, stable w (snd (m w))) -> sound L m.
Proof.
  intros Ho Hs w _. split; [apply Hs|].
  intros r errors H. destruct (Ho w) as (a & Ha). congruence.
Qed.

Lemma sound_ret {A} (a : A) : sound L (ret a).
Proof. apply sound_quiet; [reflexivity | discriminate]. Qed.

Lemma sound_gets {A} (f : world -> A) : sound L (gets f).
Proof. apply sound_quiet; [reflexivity | discriminate]. Qed.

Lemma sound_beyond {A} : sound L (@beyond A).
Proof. apply sound_quiet; [reflexivity | discriminate]. Qed.

Lemma sound_throw {A} (e : error) :
  (forall r errors, e <> Errors r errors) -> sound L (@throw A e).
Proof.
  intros He. apply sound_quiet; [reflexivity|].
  intros w r errors [= H]. now destruct (He r errors).
Qed.

Lemma sound_modify (f : world -> world) :
  (forall w, stable w (f w)) -> sound L (modify f).
Proof. intros H. apply sound_returns; [now exists tt | exact H]. Qed.

Lemma sound_try {A} (m : M A) (h : error -> M A) :
  sound L m -> (forall e, sound L (h e)) -> sound L (try_catch m h).
Proof.
  intros Hm Hh w HL. destruct (Hm w HL) as [Hs He]. unfold try_catch.
  destruct (m w) as [[a|e|] w1] eqn:E; simpl in *.
  - split; auto.
  - destruct (Hh e w1) as [Hs' He'].
    { destruct Hs. lia. }
    destruct (h e w1) as [o2 w2]. simpl in *.
    split; [exact (stable_trans _ _ _ Hs Hs') | exact He'].
  - split; auto.
Qed.

Lemma sound_forEach {A} (l : list A) (f : A -> M unit) :
  (forall x, sound L (f x)) -> sound L (forEach l f).
Proof.
  intros Hf. induction l as [|x l IH]; simpl.
  - apply sound_ret.
  - apply sound_bind; auto.
Qed.

Lemma sound_forEach_with {A S} (l : list A) (f : A -> S -> M S) (s : S) :
  (forall x s, sound L (f x s)) -> sound L (forEach_with l f s).
Proof.
  intros Hf. revert s. induction l as [|x l IH]; intros s; simpl.
  - apply sound_ret.
  - apply sound_bind; auto.
Qed.

Lemma sound_enforce t v : sound L (enforce t v).
Proof.
  apply sound_quiet; intros w; unfold enforce; destruct (typeOf w t v); simpl;
    auto; discriminate.
Qed.

Lemma sound_redefine_data model : sound L (redefine_data model).
Proof.
  apply sound_quiet; intros w; unfold redefine_data; destruct (descriptor_accepted _);
    simpl; auto; discriminate.
Qed.

Lemma sound_elements_of v : sound L (elements_of v).
Proof.
  apply sound_quiet; [apply elements_of_unchanged|].
  intros w r errors.
  destruct v as [| |b|n|s|a xs|fields|x|c]; try discriminate.
  - unfold elements_of.
    destruct (dict_get_value "length" fields) as [| |[|]|n|s|a xs|fs|x|c];
      repeat match goal with |- context [if ?b then _ else _] => destruct b end;
      discriminate.
  - unfold elements_of, bind, gets. destruct (truthy _); discriminate.
Qed.

Lemma sound_raw_fields data : sound L (raw_fields data).
Proof.
  apply sound_quiet; [apply raw_fields_unchanged|].
  intros w r errors.
  destruct data as [| |b|n|s|a xs|fields|x|c]; try discriminate.
  unfold raw_fields, bind, gets. destruct (is_undefined _); discriminate.
Qed.

Lemma sound_same_heap {A} (m : M A) :
  (forall w, exists a, fst (m w) = Ok a) -> (forall w, heap (snd (m w)) = heap w) ->
  sound L m.
Proof. intros Ho Hh. apply sound_returns; auto. intros w. now apply stable_same_heap. Qed.

Lemma sound_process_emit name p : sound L (process_emit name p).
Proof. apply sound_same_heap; [now exists tt | reflexivity]. Qed.

Lemma sound_log_emit model name v : sound L (log_emit model name v).
Proof. apply sound_same_heap; [now exists tt | reflexivity]. Qed.

Lemma sound_uuid_v4 : sound L uuid_v4.
Proof. apply sound_same_heap; [intros w; eexists; reflexivity | reflexivity]. Qed.

Lemma sound_fresh_array : sound L fresh_array.
Proof. apply sound_same_heap; [intros w; eexists; reflexivity | reflexivity]. Qed.

Lemma sound_Collection_init t id : sound L (Collection_init t id).
Proof. apply sound_same_heap; [intros w; eexists; reflexivity | reflexivity]. Qed.

Lemma sound_Collection_add c item : sound L (Collection_add c item).
Proof. apply sound_same_heap; [now exists tt | reflexivity]. Qed.

Lemma sound_alloc_instance d : sound L (alloc_instance d).
Proof.
  apply sound_returns; [intros w; eexists; reflexivity|].
  intros w. split; simpl.
  - rewrite length_app. lia.
  - intros r name definition enumerable. unfold own_of; simpl.
    destruct (heap w !! r) as [i|] eqn:Hi; [|discriminate].
    now rewrite (lookup_app_l_Some _ _ _ _ Hi).
Qed.

Lemma sound_store model name v : sound L (store model name v).
Proof. apply sound_modify. intros w. now apply stable_update_instance. Qed.

Lemma sound_set_dropsync model b : sound L (set_dropsync model b).
Proof. apply sound_modify. intros w. now apply stable_update_instance. Qed.

Lemma sound_add_listener model property name o : sound L (add_listener model property name o).
Proof. apply sound_modify. intros w. now apply stable_update_instance. Qed.

Lemma sound_define_accessor model name definition enumerable :
  sound L (define_accessor model name definition enumerable).
Proof.
  apply sound_modify. intros w. apply stable_update_instance.
  intros i name' d' e' _ H. simpl. rewrite dict_get_app. now rewrite H.
Qed.

End SoundRules.

Create HintDb sound.

#[export] Hint Resolve sound_enforce sound_redefine_data sound_elements_of sound_raw_fields
  sound_process_emit sound_log_emit sound_uuid_v4 sound_fresh_array sound_Collection_init
  sound_Collection_add sound_alloc_instance sound_store sound_set_dropsync
  sound_add_listener sound_define_accessor : sound.

Ltac sounding_step :=
  match goal with
  | |- sound _ (bind _ _) => apply sound_bind; [| intros ?]
  | |- sound _ (try_catch _ _) => apply sound_try; [| intros ?]
  | |- sound _ (forEach _ _) => apply sound_forEach; intros ?
  | |- sound _ (forEach_with _ _ _) => apply sound_forEach_with; intros ? ?
  | |- sound _ (ret _) => apply sound_ret
  | |- sound _ (throw (TypeError _)) => apply sound_throw; discriminate
  | |- sound _ (gets _) => apply sound_gets
  | |- sound _ beyond => apply sound_beyond
  | |- sound _ (if ?b then _ else _) => destruct b
  | |- sound _ (match ?x with _ => _ end) => destruct x
  | |- sound _ ((match ?x with _ => _ end) _) => destruct x
  end.

Ltac sounding := repeat sounding_step; eauto with sound.

Definition api_sound (k : api) : Prop :=
  (forall L model name v, sound L (k_put k model name v))
  /\ (forall L definition data e, sound L (k_init k definition data e)).

Section EngineSound.

Variable k : api.
Hypothesis k_sound : api_sound k.

Lemma sound_k_put L model name v : sound L (k_put k model name v).
Proof. apply k_sound. Qed.

Lemma sound_k_init L definition data e : sound L (k_init k definition data e).
Proof. apply k_sound. Qed.

Hint Resolve sound_k_put sound_k_init : sound.

Lemma sound_emit L model name v : sound L (emit k model name v).
Proof. unfold emit. sounding. Qed.

Lemma sound_set L model name definition v : sound L (set k model name definition v).
Proof. unfold set. pose proof (sound_emit L model name v). sounding. Qed.

Lemma sound_call_set L this s v : sound L (call_set k this s v).
Proof. unfold call_set. sounding. Qed.

(** An assignment to a name without accessor writes an ordinary property:
    it replaces no accessor. *)
Lemma sound_at_write_plain L model name v w :
  (forall definition enumerable,
      dict_get name (own_of w model) <> Some (Accessor definition enumerable)) ->
  sound_at L (write_plain model name v) w.
Proof.
  intros Hno _. split; [|discriminate].
  apply stable_update_instance. intros i name' d' e' Hi H. simpl.
  destruct (String.eqb_spec name name') as [<-|Hne]; [|now rewrite dict_get_set_ne].
  destruct (Hno d' e'). unfold own_of. now rewrite Hi.
Qed.

Lemma sound_put L model name v : sound L (put k model name v).
Proof.
  unfold put. apply sound_gets_bind. intros w.
  destruct (dict_get name (own_of w model)) as [[definition enumerable|x]|] eqn:E.
  - apply sound_bind; [apply sound_call_set | intros v'; apply sound_set].
  - apply sound_at_write_plain. rewrite E. discriminate.
  - destruct (name =? "_dropsync"); [apply sound_set_dropsync|].
    destruct (name =? "_data"); [apply sound_ret|].
    apply sound_at_write_plain. rewrite E. discriminate.
Qed.

Lemma sound_createProperty L model name definition enumerable :
  sound L (createProperty k model name definition enumerable).
Proof. unfold createProperty. pose proof sound_call_set. sounding. Qed.

Lemma sound_initProperties L model : sound L (initProperties k model).
Proof.
  unfold initProperties. pose proof sound_createProperty. sounding.
  apply sound_modify. intros w. now apply stable_update_instance.
Qed.

Lemma sound_initHasMany L model : sound L (initHasMany k model).
Proof. unfold initHasMany. pose proof sound_createProperty. sounding. Qed.

Lemma sound_initHasOne L model : sound L (initHasOne k model).
Proof. unfold initHasOne. pose proof sound_createProperty. sounding. Qed.

Lemma sound_updateProperties L model data e : sound L (updateProperties k model data e).
Proof. unfold updateProperties. pose proof sound_put. sounding. Qed.

Lemma sound_createHasMany L model data e : sound L (createHasMany k model data e).
Proof. unfold createHasMany. sounding. Qed.

Lemma sound_createHasOne L model data e : sound L (createHasOne k model data e).
Proof. unfold createHasOne. pose proof sound_put. sounding. Qed.

(** The aggregate that __init__ throws is the one of its instance. *)
Lemma sound___init__ L this data e :
  L <= this -> sound L (__init__ k this data e).
Proof.
  intros HL. unfold __init__.
  pose proof sound_initProperties. pose proof sound_initHasMany.
  pose proof sound_initHasOne. pose proof sound_updateProperties.
  pose proof sound_createHasMany. pose proof sound_createHasOne.
  sounding.
  intros w _. split; [apply stable_refl|]. now intros r errors [= <- _].
Qed.

Lemma sound_init L definition data e : sound L (init k definition data e).
Proof.
  intros w HL. unfold init. apply sound_at_bind; [apply sound_alloc_instance | | exact HL].
  intros this w1 [= <- <-].
  apply sound_bind; [now apply sound___init__ | intros errors; apply sound_ret].
Qed.

End EngineSound.

Lemma engine_sound fuel : api_sound (engine fuel).
Proof.
  induction fuel as [|n IH]; simpl.
  - split; intros; apply sound_beyond.
  - split; intros.
    + now apply sound_put.
    + now apply sound_init.
Qed.

(** ** The error sink only grows *)

(** The callback of the forEach in updateProperties. *)
Definition populate (k : api) (model : ref) (data : list (string * value)) (name : string)
    (errors : list error) : M (list error) :=
  if hasOwnKey name data then
    try_catch (put k model name (dict_get_value name data) ;; ret errors)
              (fun err => ret (errors ++ [err]))
  else ret errors.

Lemma updateProperties_populate k model data e :
  updateProperties k model data e
  = (put k model "id" (dict_get_value "id" data) ;;
     do names <- gets (fun w => enumerable_keys w model);
     forEach_with names (populate k model data) e).
Proof. reflexivity. Qed.

Definition api_extends (k : api) : Prop :=
  forall definition data errors w i errors' w',
    k_init k definition data (Some errors) w = (Ok (i, errors'), w') ->
    exists more, errors' = errors ++ more.

Lemma forEach_with_extends {A} (l : list A) (f : A -> list error -> M (list error)) :
  (forall x s w s' w', f x s w = (Ok s', w') -> exists more, s' = s ++ more) ->
  forall s w s' w', forEach_with l f s w = (Ok s', w') -> exists more, s' = s ++ more.
Proof.
  intros Hf. induction l as [|x l IH]; simpl; intros s w s' w' H.
  - injection H as <- _. exists []. now rewrite app_nil_r.
  - apply bind_Ok in H as (s1 & w1 & H1 & H2).
    destruct (Hf _ _ _ _ _ H1) as (m1 & ->).
    destruct (IH _ _ _ _ H2) as (m2 & ->).
    exists (m1 ++ m2). now rewrite app_assoc.
Qed.

Lemma populate_extends k model data name errors w errors' w' :
  populate k model data name errors w = (Ok errors', w') ->
  exists more, errors' = errors ++ more.
Proof.
  unfold populate. destruct (hasOwnKey name data).
  - rewrite try_catch_put. destruct (put k model name _ w) as [[u|e|] w1]; intros [= <- _].
    + exists []. now rewrite app_nil_r.
    + now exists [e].
  - intros [= <- _]. exists []. now rewrite app_nil_r.
Qed.

Section EngineExtends.

Variable k : api.
Hypothesis k_extends : api_extends k.

Lemma updateProperties_extends model data errors w errors' w' :
  updateProperties k model data errors w = (Ok errors', w') ->
  exists more, errors' = errors ++ more.
Proof.
  rewrite updateProperties_populate. intros H.
  apply bind_Ok in H as (u & w1 & _ & H). rewrite bind_gets in H.
  eapply forEach_with_extends; [|exact H].
  intros x s w2 s' w2'. apply populate_extends.
Qed.

Lemma createHasMany_extends model data errors w errors' w' :
  createHasMany k model data errors w = (Ok errors', w') ->
  exists more, errors' = errors ++ more.
Proof.
  unfold createHasMany. rewrite bind_gets.
  apply forEach_with_extends. intros [name relation] s w1 s' w1' H.
  destruct (hasOwnKey name data).
  2:{ injection H as <- _. exists []. now rewrite app_nil_r. }
  apply bind_Ok in H as (children & w2 & _ & H).
  revert H. apply forEach_with_extends.
  intros child s0 v0 s0' v0' H0.
  rewrite bind_gets in H0.
  assert (Hinit : forall (rest : ref * list error -> M (list error)),
            (forall i errors v s1 v', rest (i, errors) v = (Ok s1, v') -> s1 = errors) ->
            bind (k_init k relation child (Some s0)) rest v0 = (Ok s0', v0') ->
            exists more, s0' = s0 ++ more).
  { intros rest Hrest Hb. apply bind_Ok in Hb as ([i errors0] & v1 & H1 & H2).
    apply Hrest in H2 as ->. eapply k_extends; eauto. }
  destruct (read v0 model name) as [| |b|n|str|a xs|fields|r|c]; try discriminate;
    (eapply Hinit; [|exact H0]); intros i errors0 v1 s1 v1' Hr; try discriminate.
  unfold bind, Collection_add, modify, ret in Hr. now injection Hr as <- _.
Qed.

Lemma createHasOne_extends model data errors w errors' w' :
  createHasOne k model data errors w = (Ok errors', w') ->
  exists more, errors' = errors ++ more.
Proof.
  unfold createHasOne. rewrite bind_gets.
  apply forEach_with_extends. intros [name relation] s w1 s' w1' H.
  destruct (hasOwnKey name data).
  2:{ injection H as <- _. exists []. now rewrite app_nil_r. }
  apply bind_Ok in H as ([i errors1] & w2 & H1 & H).
  apply bind_Ok in H as (u & w3 & _ & H). injection H as <- _.
  eapply k_extends; eauto.
Qed.

Lemma init_extends definition data errors w i errors' w' :
  init k definition data (Some errors) w = (Ok (i, errors'), w') ->
  exists more, errors' = errors ++ more.
Proof.
  unfold init. intros H. apply bind_Ok in H as (this & w0 & _ & H).
  apply bind_Ok in H as (errors0 & w1 & H & H'). injection H' as _ <- _.
  unfold __init__ in H.
  apply bind_Ok in H as (fields0 & wa & _ & H).
  apply bind_Ok in H as (fields & wb & _ & H).
  apply bind_Ok in H as (u1 & w2 & _ & H).
  apply bind_Ok in H as (u2 & w3 & _ & H).
  apply bind_Ok in H as (u3 & w4 & _ & H).
  apply bind_Ok in H as (e5 & w5 & H5 & H).
  apply bind_Ok in H as (e6 & w6 & H6 & H).
  apply bind_Ok in H as (e7 & w7 & H7 & H).
  simpl in H. apply bind_Ok in H as (u & w8 & _ & H). injection H as <- _.
  destruct (updateProperties_extends _ _ _ _ _ _ H5) as (m5 & ->).
  destruct (createHasMany_extends _ _ _ _ _ _ H6) as (m6 & ->).
  destruct (createHasOne_extends _ _ _ _ _ _ H7) as (m7 & ->).
  exists (m5 ++ m6 ++ m7). now rewrite !app_assoc.
Qed.

End EngineExtends.

Lemma engine_extends fuel : api_extends (engine fuel).
Proof.
  induction fuel as [|n IH]; simpl.
  - intros definition data errors w i errors' w' H. discriminate.
  - intros definition data errors w i errors' w'. now apply init_extends.
Qed.

(** ** Populating the properties *)

(** What [set] does to a model on a property that no listener watches:
    [quiet name definition v w i i' o] relates the instance before and
    after and the outcome. *)
Record quiet (name : string) (definition : decl) (v : value) (w : world)
    (i i' : instance) (o : outcome unit) : Prop := Quiet {
  quiet_proto : proto i' = proto i;
  quiet_own : own i' = own i;
  quiet_listeners : listeners i' = listeners i;
  quiet_dropsync : _dropsync i' = _dropsync i;
  quiet_keys : forall key, hasOwnKey key (_data i') = true ->
                 hasOwnKey key (_data i) = true \/ key = name;
  quiet_others : forall key, key <> name -> dict_get key (_data i') = dict_get key (_data i);
  quiet_violation : forall t, p_type definition = Some t -> typeOf w t v = false ->
                      o = Throw (TypeViolation t v);
  quiet_accepted : (forall t, p_type definition = Some t -> typeOf w t v = true) ->
                   descriptor_accepted (_data i) = true ->
                   o = Ok tt /\ dict_get name (_data i') = Some v;
  quiet_fuel : o <> OutOfFuel }.

(** [set] on a property that no listener watches: it throws the violation,
    or the TypeError of the descriptor, or stores the value, logs the local
    event and emits the sync event if it has to. *)
Lemma set_quiet k model name definition v w i :
  heap w !! model = Some i ->
  List.filter (fun l => fst l =? name) (listeners i) = [] ->
  exists o w' i',
    set k model name definition v w = (o, w')
    /\ heap w' !! model = Some i'
    /\ quiet name definition v w i i' o.
Proof.
  intros Hi Hq. unfold set.
  assert (Hchecks :
            (exists t, p_type definition = Some t /\ typeOf w t v = false)
            \/ (forall t, p_type definition = Some t -> typeOf w t v = true)).
  { destruct (p_type definition) as [t|]; [|right; discriminate].
    destruct (typeOf w t v) eqn:E; [right | left; eauto]. now intros t' [= <-]. }
  destruct Hchecks as [(t & Ht & Hv)|Hok].
  - rewrite (bind_throw_eq _ _ w (TypeViolation t v) w).
    2:{ rewrite Ht. unfold enforce. now rewrite Hv. }
    exists (Throw (TypeViolation t v)), w, i. split; [reflexivity|]. split; [exact Hi|].
    split; auto; try discriminate.
    + intros t' Ht' _. congruence.
    + intros H. specialize (H t Ht). congruence.
  - rewrite (bind_ok_eq _ _ w tt w).
    2:{ destruct (p_type definition) as [t|]; auto. unfold enforce. now rewrite (Hok t). }
    destruct (descriptor_accepted (_data i)) eqn:Hda.
    2:{ rewrite (bind_throw_eq _ _ w (TypeError "Cannot redefine property: _data") w).
        2:{ unfold redefine_data, data_of. now rewrite Hi, Hda. }
        eexists _, w, i. split; [reflexivity|]. split; [exact Hi|].
        split; auto; try discriminate.
        - intros t Ht Hv. rewrite (Hok t Ht) in Hv. discriminate.
        - intros _ H. congruence. }
    rewrite (bind_ok_eq _ _ w tt w).
    2:{ unfold redefine_data, data_of. now rewrite Hi, Hda. }
    unfold bind at 1, store, modify.
    set (w1 := update_instance model _ w).
    pose proof (update_instance_lookup model
                  (fun i => with_data (dict_set name v (_data i)) i) w i Hi) as Hi1.
    fold w1 in Hi1.
    rewrite (bind_ok_eq _ _ w1 tt (with_emitted (emitted w1 ++ [(model, name, v)]) w1)).
    2:{ apply emit_quiet. unfold listeners_of. now rewrite Hi1. }
    rewrite bind_gets.
    set (w2 := with_emitted _ w1).
    assert (Hend : forall w3, heap w3 = heap w2 ->
              exists (o : outcome unit) w' i',
                (Ok tt, w3) = (o, w')
                /\ heap w' !! model = Some i'
                /\ quiet name definition v w i i' o).
    { intros w3 Hh. eexists _, w3, _. split; [reflexivity|]. rewrite Hh.
      split; [exact Hi1|]. split; simpl; auto; try discriminate.
      - intros key Hk. now apply hasOwnKey_set in Hk.
      - intros key Hne. now apply dict_get_set_ne.
      - intros t Ht Hv. rewrite (Hok t Ht) in Hv. discriminate.
      - intros _ _. split; [reflexivity | apply dict_get_set_eq]. }
    destruct (negb (p_sync definition) || dropsync_of w2 model).
    + unfold ret. now apply Hend.
    + rewrite bind_gets. unfold process_emit, modify. now apply Hend.
Qed.

Lemma put_quiet k model name definition enumerable v w i :
  heap w !! model = Some i ->
  dict_get name (own i) = Some (Accessor definition enumerable) ->
  declared_setter (p_set definition) = true ->
  List.filter (fun l => fst l =? name) (listeners i) = [] ->
  exists o w' i',
    put k model name v w = (o, w')
    /\ heap w' !! model = Some i'
    /\ quiet name definition (transformed (p_set definition) v) w i i' o.
Proof.
  intros Hi Hacc Hs Hq.
  destruct (call_set_declared k (Some model) (p_set definition) v w Hs) as (evs & Hc & _).
  unfold put. rewrite bind_gets. unfold own_of. rewrite Hi, Hacc.
  rewrite (bind_ok_eq _ _ _ _ _ Hc).
  destruct (set_quiet k model name definition (transformed (p_set definition) v)
              (with_bus (bus w ++ evs) w) i Hi Hq) as (o & w' & i' & Hset & Hi' & Hquiet).
  exists o, w', i'. split; [exact Hset|]. split; [exact Hi'|].
  destruct Hquiet. now split.
Qed.

(** An assignment to an ordinary own property overwrites it. *)
Lemma put_plain_slot k model name v w i x :
  heap w !! model = Some i ->
  dict_get name (own i) = Some (Plain x) ->
  put k model name v w
  = (Ok tt,
     update_instance model
       (fun i => with_listeners (if name =? "_events" then [] else listeners i)
                   (with_own (dict_set name (Plain v) (own i)) i)) w).
Proof.
  intros Hi Hs. unfold put. rewrite bind_gets. unfold own_of. now rewrite Hi, Hs.
Qed.

(** The names that Object.defineProperty reads from a descriptor. *)
Definition descriptor_name (key : string) : bool :=
  existsb (String.eqb key) ["get"; "set"; "value"; "enumerable"; "configurable"; "writable"].

Lemma descriptor_accepted_names (data : list (string * value)) :
  (forall key, hasOwnKey key data = true -> descriptor_name key = false) ->
  descriptor_accepted data = true.
Proof.
  intros H. unfold descriptor_accepted.
  assert (Hno : forall key, descriptor_name key = true -> dict_get key data = None).
  { intros key Hk. specialize (H key). unfold hasOwnKey in H.
    destruct (dict_get key data); auto. specialize (H eq_refl). congruence. }
  unfold hasOwnKey, dict_get_value.
  rewrite (Hno "get"), (Hno "set"), (Hno "value"), (Hno "enumerable"),
    (Hno "configurable"), (Hno "writable"); reflexivity.
Qed.

Definition id_decl : decl := Decl (Some TString) VUndef false None None [] (Some false).

(** What the own properties keep of their kind from one instance to
    another. *)
Definition kept (i i' : instance) : Prop :=
  forall name,
    (forall definition enumerable,
        dict_get name (own i) = Some (Accessor definition enumerable) ->
        dict_get name (own i') = Some (Accessor definition enumerable))
    /\ ((exists x, dict_get name (own i) = Some (Plain x)) ->
        exists x', dict_get name (own i') = Some (Plain x')).

Lemma kept_refl i : kept i i.
Proof. intros name. split; auto. Qed.

Lemma kept_trans i1 i2 i3 : kept i1 i2 -> kept i2 i3 -> kept i1 i3.
Proof.
  intros H12 H23 name. destruct (H12 name) as [A1 P1], (H23 name) as [A2 P2].
  split; auto.
Qed.

Lemma kept_same_own i i' : own i' = own i -> kept i i'.
Proof. intros E name. rewrite E. split; auto. Qed.

Lemma kept_plain i name x v l :
  dict_get name (own i) = Some (Plain x) ->
  kept i (with_listeners l (with_own (dict_set name (Plain v) (own i)) i)).
Proof.
  intros Hs name'. simpl.
  destruct (String.eqb_spec name name') as [<-|Hne].
  - rewrite dict_get_set_eq. split; [congruence | eauto].
  - rewrite dict_get_set_ne by auto. split; auto.
Qed.

Section Flat.

Variable k : api.
Variables (d : defn) (this : ref) (data : list (string * value)).

Hypothesis declared :
  forall name definition,
    In (name, definition) (entries (properties d)) ->
    declared_setter (p_set definition) = true.
Hypothesis unobserved :
  forall name, In name (watched d) -> hasOwnKey name data = false.
Hypothesis names_accepted :
  forall key, In key (keys (entries (properties d)) ++ keys (entries (hasMany d))) ->
    descriptor_name key = false.
Hypothesis no_children :
  forall name, In name (keys (entries (hasMany d)) ++ keys (entries (hasOne d))) ->
    hasOwnKey name data = false.
Hypothesis id_declared : dict_get "id" (entries (properties d)) = Some id_decl.
Hypothesis id_string : exists s, dict_get_value "id" data = VStr s.

Lemma quiet_name i name :
  shaped d i -> hasOwnKey name data = true ->
  List.filter (fun l => fst l =? name) (listeners i) = [].
Proof.
  intros Hsh Hk. destruct (List.filter _ _) as [|l ls] eqn:E; auto.
  assert (Hin : In l (List.filter (fun l => fst l =? name) (listeners i))).
  { rewrite E. now left. }
  apply filter_In in Hin as [Hin Hl]. apply String.eqb_eq in Hl.
  pose proof (unobserved _ (shaped_listeners _ _ Hsh _ Hin)) as Hu. congruence.
Qed.

Lemma shaped_accepted i : shaped d i -> descriptor_accepted (_data i) = true.
Proof.
  intros Hsh. apply descriptor_accepted_names. intros key Hk.
  apply names_accepted. now apply (shaped_data _ _ Hsh).
Qed.

(** The value that the accessor of [name] hands to [set]. *)
Definition assigned (definition : decl) (name : string) : value :=
  transformed (p_set definition) (dict_get_value name data).

(** It fails the declared type, or satisfies it, whatever the world. *)
Definition violates (definition : decl) (name : string) (t : type) : Prop :=
  p_type definition = Some t /\ forall w, typeOf w t (assigned definition name) = false.

Definition accepts (definition : decl) (name : string) : Prop :=
  forall t w, p_type definition = Some t -> typeOf w t (assigned definition name) = true.

Lemma shaped_after_put i i' name definition v w o :
  shaped d i -> dict_get name (entries (properties d)) = Some definition ->
  quiet name definition v w i i' o ->
  shaped d i'.
Proof.
  intros [Hp Hn Hem Ho Hl Hd] Hget [Ep Eo El _ Ed _ _ _ _]. split.
  - congruence.
  - now rewrite Eo.
  - now rewrite Eo.
  - now rewrite Eo.
  - now rewrite El.
  - intros key Hk. destruct (Ed key Hk) as [H| ->]; auto.
    apply in_or_app. left. apply dict_get_In in Hget. unfold keys.
    apply in_map_iff. now exists (name, definition).
Qed.

Lemma shaped_after_plain i name x v l :
  shaped d i -> dict_get name (own i) = Some (Plain x) ->
  (forall e, In e l -> In e (listeners i)) ->
  shaped d (with_listeners l (with_own (dict_set name (Plain v) (own i)) i)).
Proof.
  intros [Hp Hn Hem Ho Hl Hd] Hs Hsub.
  assert (Hhas : hasOwnKey name (own i) = true) by (unfold hasOwnKey; now rewrite Hs).
  split; simpl; auto.
  - now rewrite keys_dict_set.
  - intros name' Hin. specialize (Hem name' Hin). unfold hasOwnKey in *.
    destruct (String.eqb_spec name name') as [<-|Hne].
    + now rewrite dict_get_set_eq.
    + now rewrite dict_get_set_ne.
  - intros name' s Hin. apply In_dict_set in Hin as [Hin|[-> ->]]; [now apply Ho|].
    apply (Ho name (Plain x)). now apply dict_get_In.
Qed.

(** The forEach of updateProperties, over names that are enumerable own
    properties: the violation of every invalid value ends in the sink, every
    accepted value is stored, and nothing else of [_data] changes. *)
Lemma populate_loop (names : list string) :
  forall w i errors,
    NoDup names ->
    heap w !! this = Some i -> shaped d i ->
    (forall name, In name names ->
       (exists definition, dict_get name (own i) = Some (Accessor definition true))
       \/ (exists x, dict_get name (own i) = Some (Plain x))) ->
    exists errors' w' i',
      forEach_with names (populate k this data) errors w = (Ok errors', w')
      /\ heap w' !! this = Some i' /\ shaped d i' /\ kept i i'
      /\ (exists more, errors' = errors ++ more)
      /\ (forall name definition t,
            In name names -> dict_get name (own i) = Some (Accessor definition true) ->
            hasOwnKey name data = true -> violates definition name t ->
            In (TypeViolation t (assigned definition name)) errors')
      /\ (forall name definition,
            In name names -> dict_get name (own i) = Some (Accessor definition true) ->
            hasOwnKey name data = true -> accepts definition name ->
            dict_get name (_data i') = Some (assigned definition name))
      /\ ((forall name definition,
             In name names -> dict_get name (own i) = Some (Accessor definition true) ->
             hasOwnKey name data = true -> accepts definition name) ->
          errors' = errors)
      /\ (forall key, ~ In key names -> dict_get key (_data i') = dict_get key (_data i)).
Proof.
  induction names as [|name names IH]; intros w i errors Hnd Hi Hsh Hslots.
  - exists errors, w, i. conjuncts; auto using kept_refl.
    + exists []. now rewrite app_nil_r.
    + contradiction.
    + contradiction.
  - apply NoDup_cons in Hnd as [Hfresh Hnd].
    rewrite list_elem_of_In in Hfresh.
    rewrite forEach_with_cons.
    (* what the rest of the loop adds to one step *)
    assert (Hnext : forall w1 i1 errors1,
              heap w1 !! this = Some i1 -> shaped d i1 -> kept i i1 ->
              (exists more, errors1 = errors ++ more) ->
              (forall definition t,
                  dict_get name (own i) = Some (Accessor definition true) ->
                  hasOwnKey name data = true -> violates definition name t ->
                  In (TypeViolation t (assigned definition name)) errors1) ->
              (forall definition,
                  dict_get name (own i) = Some (Accessor definition true) ->
                  hasOwnKey name data = true -> accepts definition name ->
                  dict_get name (_data i1) = Some (assigned definition name)
                  /\ errors1 = errors) ->
              (hasOwnKey name data = false -> errors1 = errors) ->
              ((exists x, dict_get name (own i) = Some (Plain x)) -> errors1 = errors) ->
              (forall key, key <> name -> dict_get key (_data i1) = dict_get key (_data i)) ->
              exists errors' w' i',
                forEach_with names (populate k this data) errors1 w1 = (Ok errors', w')
                /\ heap w' !! this = Some i' /\ shaped d i' /\ kept i i'
                /\ (exists more, errors' = errors ++ more)
                /\ (forall name0 definition t,
                      In name0 (name :: names) ->
                      dict_get name0 (own i) = Some (Accessor definition true) ->
                      hasOwnKey name0 data = true -> violates definition name0 t ->
                      In (TypeViolation t (assigned definition name0)) errors')
                /\ (forall name0 definition,
                      In name0 (name :: names) ->
                      dict_get name0 (own i) = Some (Accessor definition true) ->
                      hasOwnKey name0 data = true -> accepts definition name0 ->
                      dict_get name0 (_data i') = Some (assigned definition name0))
                /\ ((forall name0 definition,
                       In name0 (name :: names) ->
                       dict_get name0 (own i) = Some (Accessor definition true) ->
                       hasOwnKey name0 data = true -> accepts definition name0) ->
                    errors' = errors)
                /\ (forall key, ~ In key (name :: names) ->
                      dict_get key (_data i') = dict_get key (_data i))).
    { intros w1 i1 errors1 Hi1 Hsh1 Hk1 (more1 & E1) Hv1 Hs1 Hskip Hplain Ho1.
      destruct (IH w1 i1 errors1 Hnd Hi1 Hsh1)
        as (errors' & w' & i' & Hrun & Hi' & Hsh' & Hk' & (more & Em) & Hviol & Hst & Hcl & Hoth).
      { intros name' Hin. destruct (Hslots name' (or_intror Hin)) as [(def & Hd)|Hp].
        - left. exists def. now apply (proj1 (Hk1 name')).
        - right. now apply (proj2 (Hk1 name')). }
      exists errors', w', i'. conjuncts; auto.
      - eapply kept_trans; eauto.
      - exists (more1 ++ more). now rewrite Em, E1, app_assoc.
      - intros name0 def0 t [<-|Hin] Hd0 Hk0 Hv0.
        + rewrite Em. apply in_or_app. left. now apply Hv1.
        + apply Hviol; auto. now apply (proj1 (Hk1 name0)).
      - intros name0 def0 [<-|Hin] Hd0 Hk0 Ha0.
        + rewrite Hoth by exact Hfresh. now apply Hs1.
        + apply Hst; auto. now apply (proj1 (Hk1 name0)).
      - intros Hall. rewrite Hcl.
        + destruct (hasOwnKey name data) eqn:Hk0; [|now apply Hskip].
          destruct (Hslots name (or_introl eq_refl)) as [(def & Hd)|Hp]; [|now apply Hplain].
          apply (Hs1 def); auto. apply (Hall name def); auto. now left.
        + intros name0 def0 Hin Hd0 Hk0.
          destruct (Hslots name0 (or_intror Hin)) as [(def & Hd)|(x & Hp)].
          * assert (def0 = def) as ->.
            { pose proof (proj1 (Hk1 name0) _ _ Hd) as H. congruence. }
            apply (Hall name0 def); auto. now right.
          * destruct (proj2 (Hk1 name0) (ex_intro _ x Hp)) as (x' & Hx'). congruence.
      - intros key Hkey. rewrite Hoth.
        + apply Ho1. intros ->. apply Hkey. now left.
        + intros Hin. apply Hkey. now right. }
    unfold populate at 1.
    destruct (hasOwnKey name data) eqn:Hk.
    2:{ unfold ret at 1. apply (Hnext w i errors); auto using kept_refl; try discriminate.
        exists []. now rewrite app_nil_r. }
    rewrite try_catch_put.
    destruct (Hslots name (or_introl eq_refl)) as [(definition & Hdef)|(x & Hplain)].
    + destruct (shaped_own _ _ Hsh name (Accessor definition true) (dict_get_In _ _ _ Hdef))
        as (Hget & _ & _).
      destruct (put_quiet k this name definition true (dict_get_value name data) w i Hi Hdef)
        as (o & w1 & i1 & Hput & Hi1 & Hq).
      { eapply declared. apply dict_get_In. eauto. }
      { now apply quiet_name. }
      rewrite Hput.
      assert (Hsh1 : shaped d i1) by (eapply shaped_after_put; eauto).
      assert (Hk1 : kept i i1) by (apply kept_same_own, (quiet_own _ _ _ _ _ _ _ Hq)).
      pose proof (quiet_fuel _ _ _ _ _ _ _ Hq) as Hfuel.
      destruct o as [[]|e|]; [| |congruence].
      * apply (Hnext w1 i1 errors); auto.
        -- exists []. now rewrite app_nil_r.
        -- intros def t Hd _ [Ht Hv]. assert (def = definition) as -> by congruence.
           pose proof (quiet_violation _ _ _ _ _ _ _ Hq t Ht (Hv w)). discriminate.
        -- intros def Hd _ Ha. assert (def = definition) as -> by congruence.
           split; auto.
           apply (quiet_accepted _ _ _ _ _ _ _ Hq); [|now apply shaped_accepted].
           intros t Ht. now apply Ha.
        -- apply (quiet_others _ _ _ _ _ _ _ Hq).
      * apply (Hnext w1 i1 (errors ++ [e])); auto.
        -- now exists [e].
        -- intros def t Hd _ [Ht Hv]. assert (def = definition) as -> by congruence.
           pose proof (quiet_violation _ _ _ _ _ _ _ Hq t Ht (Hv w)) as Hthrow.
           injection Hthrow as ->. apply in_or_app. right. now left.
        -- intros def Hd _ Ha. assert (def = definition) as -> by congruence.
           destruct (quiet_accepted _ _ _ _ _ _ _ Hq) as [Hok _]; [|now apply shaped_accepted|].
           ++ intros t Ht. now apply Ha.
           ++ discriminate.
        -- congruence.
        -- intros (x & Hx). congruence.
        -- apply (quiet_others _ _ _ _ _ _ _ Hq).
    + rewrite (put_plain_slot k this name _ w i x Hi Hplain).
      apply (Hnext _ (with_listeners (if name =? "_events" then [] else listeners i)
                        (with_own (dict_set name (Plain (dict_get_value name data)) (own i)) i))
               errors); auto.
      * exact (update_instance_lookup this _ w i Hi).
      * apply shaped_after_plain with (x := x); auto.
        intros e. destruct (name =? "_events"); [contradiction|auto].
      * now apply kept_plain with (x := x).
      * exists []. now rewrite app_nil_r.
      * intros def t Hd. congruence.
      * intros def Hd. congruence.
Qed.

Lemma NoDup_keys_filter {A} (f : string * A -> bool) (l : list (string * A)) :
  NoDup (keys l) -> NoDup (keys (List.filter f l)).
Proof.
  unfold keys. induction l as [|[key x] l IH]; simpl; auto.
  intros Hnd. apply NoDup_cons in Hnd as [Hk Hnd].
  destruct (f (key, x)); simpl; auto.
  apply NoDup_cons. split; auto.
  intros Hin. apply Hk. apply list_elem_of_In in Hin. apply list_elem_of_In.
  apply in_map_iff in Hin as ([key' y] & E & Hin). apply filter_In in Hin as [Hin _].
  apply in_map_iff. now exists (key', y).
Qed.

(** The names that forEach(model, ...) visits are accessors created
    enumerable, or ordinary properties. *)
Lemma enumerable_key_slot i name :
  NoDup (keys (own i)) ->
  In name (keys (List.filter (fun kv => match snd kv with
                                        | Accessor _ e => e
                                        | Plain _ => true
                                        end) (own i))) ->
  (exists definition, dict_get name (own i) = Some (Accessor definition true))
  \/ (exists x, dict_get name (own i) = Some (Plain x)).
Proof.
  intros Hnd Hin. unfold keys in Hin. apply in_map_iff in Hin as ([name' s] & <- & Hin).
  apply filter_In in Hin as [Hin He]. simpl in *.
  destruct s as [definition [|]|x]; try discriminate.
  - left. exists definition. now apply dict_get_NoDup.
  - right. exists x. now apply dict_get_NoDup.
Qed.

(** A declared property of the raw data that forEach(model, ...) reaches. *)
Definition field (name : string) (definition : decl) : Prop :=
  dict_get name (entries (properties d)) = Some definition
  /\ reserved name = false
  /\ enumerable_of definition = true
  /\ hasOwnKey name data = true.

(** updateProperties on raw data without observed key, for the id of
    Base. *)
Lemma updateProperties_run w i errors :
  heap w !! this = Some i -> shaped d i -> declared_all d i ->
  exists errors' w' i',
    updateProperties k this data errors w = (Ok errors', w')
    /\ heap w' !! this = Some i' /\ shaped d i' /\ kept i i'
    /\ (exists more, errors' = errors ++ more)
    /\ (forall name definition t,
          field name definition -> violates definition name t ->
          In (TypeViolation t (assigned definition name)) errors')
    /\ (forall name definition,
          field name definition -> accepts definition name ->
          dict_get name (_data i') = Some (assigned definition name))
    /\ ((forall name definition, field name definition -> accepts definition name) ->
        errors' = errors)
    /\ dict_get "id" (_data i') = Some (dict_get_value "id" data).
Proof.
  intros Hi Hsh Hall. rewrite updateProperties_populate.
  destruct id_string as (s & Hid).
  assert (Hidacc : dict_get "id" (own i) = Some (Accessor id_decl false)).
  { apply (Hall "id" id_decl id_declared eq_refl). }
  destruct (put_quiet k this "id" id_decl false (dict_get_value "id" data) w i Hi Hidacc)
    as (o & w1 & i1 & Hput & Hi1 & Hq).
  { reflexivity. }
  { destruct (List.filter _ _) as [|l ls] eqn:E; auto.
    assert (Hin : In l (List.filter (fun l => fst l =? "id") (listeners i))).
    { rewrite E. now left. }
    apply filter_In in Hin as [Hin Hl]. apply String.eqb_eq in Hl.
    pose proof (unobserved _ (shaped_listeners _ _ Hsh _ Hin)) as Hu.
    rewrite Hl in Hu. unfold hasOwnKey, dict_get_value in *.
    destruct (dict_get "id" data); discriminate. }
  destruct (quiet_accepted _ _ _ _ _ _ _ Hq) as [-> Hstored].
  { intros t [= <-]. simpl. now rewrite Hid. }
  { now apply shaped_accepted. }
  rewrite (bind_ok_eq _ _ _ _ _ Hput), bind_gets.
  assert (Hsh1 : shaped d i1) by (eapply shaped_after_put; eauto).
  assert (Eo : own i1 = own i) by apply (quiet_own _ _ _ _ _ _ _ Hq).
  unfold enumerable_keys, own_of. rewrite Hi1.
  set (names := keys (List.filter _ (own i1))).
  assert (Hnames : forall name definition,
            dict_get name (own i) = Some (Accessor definition true) -> In name names).
  { intros name definition Hacc. unfold names, keys. apply in_map_iff.
    exists (name, Accessor definition true). split; auto.
    apply filter_In. split; auto. rewrite Eo. now apply dict_get_In. }
  assert (Hnoid : ~ In "id" names).
  { intros Hin.
    destruct (enumerable_key_slot i1 "id" (shaped_nodup _ _ Hsh1) Hin) as [(def & H)|(x & H)];
      rewrite Eo in H; congruence. }
  destruct (populate_loop names w1 i1 errors) as
    (errors' & w' & i' & Hrun & Hi' & Hsh' & Hk' & Hmore & Hviol & Hst & Hcl & Hoth); auto.
  { apply NoDup_keys_filter, (shaped_nodup _ _ Hsh1). }
  { intros name Hin. apply enumerable_key_slot; auto. apply (shaped_nodup _ _ Hsh1). }
  exists errors', w', i'. conjuncts; auto.
  - eapply kept_trans; [apply kept_same_own; exact Eo | exact Hk'].
  - intros name definition t (Hget & Hres & He & Hk) Hv.
    pose proof (Hall name definition Hget Hres) as Hacc. rewrite He in Hacc.
    apply Hviol; eauto. now rewrite Eo.
  - intros name definition (Hget & Hres & He & Hk) Ha.
    pose proof (Hall name definition Hget Hres) as Hacc. rewrite He in Hacc.
    apply Hst; eauto. now rewrite Eo.
  - intros Hfields. apply Hcl. intros name definition Hin Hacc Hk.
    apply Hfields.
    destruct (shaped_own _ _ Hsh1 name (Accessor definition true) (dict_get_In _ _ _ Hacc))
      as (Hget & He & Hres).
    now repeat split.
  - rewrite Hoth by exact Hnoid. exact Hstored.
Qed.

Lemma forEach_with_skipped {A S} (l : list A) (f : A -> S -> M S) (s : S) w :
  (forall x, In x l -> f x s w = (Ok s, w)) -> forEach_with l f s w = (Ok s, w).
Proof.
  induction l as [|x l IH]; intros Hf; auto.
  rewrite forEach_with_cons, Hf by now left. apply IH. intros y Hy. apply Hf. now right.
Qed.

Lemma createHasMany_skipped w i errors :
  heap w !! this = Some i -> proto i = d ->
  createHasMany k this data errors w = (Ok errors, w).
Proof.
  intros Hi Hp. unfold createHasMany. rewrite bind_gets.
  unfold model_hasMany. rewrite Hi, Hp.
  apply forEach_with_skipped. intros [name relation] Hin.
  rewrite no_children; [reflexivity|].
  apply in_or_app. left. unfold keys. apply in_map_iff. now exists (name, relation).
Qed.

Lemma createHasOne_skipped w i errors :
  heap w !! this = Some i -> proto i = d ->
  createHasOne k this data errors w = (Ok errors, w).
Proof.
  intros Hi Hp. unfold createHasOne. rewrite bind_gets.
  unfold model_hasOne. rewrite Hi, Hp.
  apply forEach_with_skipped. intros [name relation] Hin.
  rewrite no_children; [reflexivity|].
  apply in_or_app. right. unfold keys. apply in_map_iff. now exists (name, relation).
Qed.

End Flat.

(** ** Constructing from a plain record *)

(** Declarations carry their own setters: the setter that constructs a
    child is the one initHasOne installs. *)
Definition declares_setters (d : defn) : bool :=
  forallb (fun p => declared_setter (p_set (snd p))) (entries (properties d)).

(** The constructions that run without nested call: the raw id is absent or
    a string; no key of the raw data is observed or names a relationship,
    nor is the id; no property or has-many relationship bears the name of a
    descriptor field. *)
Definition plain_construction (d : defn) (data : list (string * value)) : bool :=
  match dict_get_value "id" data with VUndef | VStr _ => true | _ => false end
  && forallb (fun name => negb (name =? "id") && negb (hasOwnKey name data))
       (watched d ++ keys (entries (hasMany d)) ++ keys (entries (hasOne d)))
  && forallb (fun key => negb (descriptor_name key))
       (keys (entries (properties d)) ++ keys (entries (hasMany d))).

Lemma declares_setters_In d name definition :
  declares_setters d = true -> In (name, definition) (entries (properties d)) ->
  declared_setter (p_set definition) = true.
Proof.
  unfold declares_setters. rewrite forallb_forall. intros H Hin. apply (H _ Hin).
Qed.

(** The id that __init__ gives to a raw record. *)
Definition id_of (data : list (string * value)) (w : world) : value :=
  if is_undefined (dict_get_value "id" data) then VStr (uuid_name (uuids w))
  else dict_get_value "id" data.

(** __init__ on a raw record. *)
Lemma __init___record k this data e :
  __init__ k this (VObj data) e
  = (do data <- (if is_undefined (dict_get_value "id" data)
                 then do id <- uuid_v4; ret (dict_set "id" id data)
                 else ret data);
     initProperties k this ;;
     initHasMany k this ;;
     initHasOne k this ;;
     do errors <- updateProperties k this data
                    (match e with None => [] | Some errors => errors end);
     do errors <- createHasMany k this data errors;
     do errors <- createHasOne k this data errors;
     if (match e with None => true | Some _ => false end)
        && negb (Nat.eqb (length errors) 0)
     then throw (Errors this errors)
     else
       process_emit (VStr "registry:add") (RegistryPayload this) ;;
       ret errors).
Proof. reflexivity. Qed.

Lemma declared_all_kept d i i' : declared_all d i -> kept i i' -> declared_all d i'.
Proof. intros H Hk name definition Hget Hres. apply (proj1 (Hk name)). now apply H. Qed.

(** Constructing from a plain record, for a definition with the id of
    Base, whatever the nesting bound: the sink receives the violation of
    every invalid field, and nothing when every field is accepted; the
    accepted values are stored; the call throws the aggregate when it is the
    top-level call and the sink is not empty, and returns the instance
    otherwise. *)
Lemma flat_construction k d data e w :
  declares_setters d = true ->
  dict_get "id" (entries (properties d)) = Some id_decl ->
  plain_construction d data = true ->
  exists errors w' i,
    init k d (VObj data) e w
    = (if match e with None => true | Some _ => false end
          && negb (Nat.eqb (length errors) 0)
       then Throw (Errors (length (heap w)) errors)
       else Ok (length (heap w), errors), w')
    /\ heap w' !! length (heap w) = Some i
    /\ shaped d i /\ declared_all d i
    /\ (exists more, errors = match e with Some errors => errors | None => [] end ++ more)
    /\ (forall name definition t,
          field d data name definition -> violates data definition name t ->
          In (TypeViolation t (assigned data definition name)) errors)
    /\ (forall name definition,
          field d data name definition -> accepts data definition name ->
          dict_get name (_data i) = Some (assigned data definition name))
    /\ ((forall name definition,
           field d data name definition -> accepts data definition name) ->
        errors = match e with Some errors => errors | None => [] end)
    /\ dict_get "id" (_data i) = Some (id_of data w).
Proof.
  intros Hdecl Hid Hplain.
  unfold plain_construction in Hplain.
  apply andb_prop in Hplain as [Hplain Hnames].
  apply andb_prop in Hplain as [Hrawid Hkeys].
  rewrite forallb_forall in Hkeys, Hnames.
  assert (declared : forall name definition,
            In (name, definition) (entries (properties d)) ->
            declared_setter (p_set definition) = true).
  { intros name definition. now apply declares_setters_In. }
  assert (Hother : forall name,
            In name (watched d ++ keys (entries (hasMany d)) ++ keys (entries (hasOne d))) ->
            name <> "id" /\ hasOwnKey name data = false).
  { intros name Hin. specialize (Hkeys _ Hin). apply andb_prop in Hkeys as [H1 H2].
    split.
    - intros ->. discriminate.
    - now destruct (hasOwnKey name data). }
  assert (names_accepted : forall key,
            In key (keys (entries (properties d)) ++ keys (entries (hasMany d))) ->
            descriptor_name key = false).
  { intros key Hin. specialize (Hnames _ Hin). now destruct (descriptor_name key). }
  unfold init, bind at 1, alloc_instance.
  set (this := length (heap w)).
  set (w0 := with_heap (heap w ++ [new_instance d]) w).
  assert (Hi0 : heap w0 !! this = Some (new_instance d)).
  { unfold w0, this; simpl. now apply list_lookup_middle. }
  (* data.id *)
  assert (Hdata : exists data' w0',
            (if is_undefined (dict_get_value "id" data)
             then do id <- uuid_v4; ret (dict_set "id" id data)
             else ret data) w0 = (Ok data', w0')
            /\ heap w0' = heap w0
            /\ dict_get_value "id" data' = id_of data w
            /\ (exists s, dict_get_value "id" data' = VStr s)
            /\ (forall name, name <> "id" ->
                  hasOwnKey name data' = hasOwnKey name data
                  /\ dict_get_value name data' = dict_get_value name data)).
  { unfold id_of.
    destruct (dict_get_value "id" data) as [| | | |s| | | |] eqn:E; try discriminate; simpl.
    - eexists _, _. split; [reflexivity|]. split; [reflexivity|].
      assert (Hget : dict_get_value "id" (dict_set "id" (VStr (uuid_name (uuids w))) data)
                     = VStr (uuid_name (uuids w))).
      { unfold dict_get_value. now rewrite dict_get_set_eq. }
      split; [exact Hget|]. split; [eauto|].
      intros name Hne. split.
      + now apply hasOwnKey_set_ne.
      + unfold dict_get_value. rewrite dict_get_set_ne; auto.
    - exists data, w0. rewrite E. repeat split; eauto. }
  destruct Hdata as (data' & w0' & Hrun0 & Hh0 & Hidv & Hids & Hsame).
  assert (Hi0' : heap w0' !! this = Some (new_instance d)) by now rewrite Hh0.
  destruct (materialised k d this declared w0' Hi0')
    as (w1 & w2 & w3 & i3 & Hr1 & Hr2 & Hr3 & Hi3 & Hsh3 & Hall3).
  assert (unobserved : forall name, In name (watched d) -> hasOwnKey name data' = false).
  { intros name Hin. destruct (Hother name) as [Hne Hk]; [apply in_or_app; now left|].
    now rewrite (proj1 (Hsame name Hne)). }
  assert (no_children : forall name,
            In name (keys (entries (hasMany d)) ++ keys (entries (hasOne d))) ->
            hasOwnKey name data' = false).
  { intros name Hin. destruct (Hother name) as [Hne Hk]; [apply in_or_app; now right|].
    now rewrite (proj1 (Hsame name Hne)). }
  destruct (updateProperties_run k d this data' declared unobserved names_accepted Hid Hids
              w3 i3 (match e with Some errors => errors | None => [] end) Hi3 Hsh3 Hall3)
    as (errors & w4 & i4 & Hr4 & Hi4 & Hsh4 & Hk4 & Hmore & Hviol & Hst & Hcl & Hidst).
  (* the fields of the record are those of the record with its id *)
  assert (Hfield : forall name definition,
            field d data name definition ->
            field d data' name definition
            /\ assigned data' definition name = assigned data definition name).
  { intros name definition (Hget & Hres & Hen & Hk).
    assert (Hne : name <> "id").
    { intros ->. rewrite Hid in Hget. injection Hget as <-. discriminate. }
    destruct (Hsame name Hne) as [Hk' Hv'].
    split; [repeat split; congruence|]. unfold assigned. now rewrite Hv'. }
  assert (Hfield' : forall name definition,
            field d data' name definition ->
            field d data name definition
            /\ assigned data' definition name = assigned data definition name).
  { intros name definition (Hget & Hres & Hen & Hk).
    assert (Hne : name <> "id").
    { intros ->. rewrite Hid in Hget. injection Hget as <-. discriminate. }
    destruct (Hsame name Hne) as [Hk' Hv'].
    split; [repeat split; congruence|]. unfold assigned. now rewrite Hv'. }
  pose proof (shaped_proto _ _ Hsh4) as Hp4.
  assert (Hrest :
            (do errors <- __init__ k this (VObj data) e; ret (this, errors)) w0
            = (do errors <-
                 (if match e with None => true | Some _ => false end
                     && negb (Nat.eqb (length errors) 0)
                  then throw (Errors this errors)
                  else process_emit (VStr "registry:add") (RegistryPayload this) ;;
                       ret errors);
               ret (this, errors)) w4).
  { rewrite __init___record. unfold bind at 1.
    rewrite (bind_ok_eq _ _ _ _ _ Hrun0), (bind_ok_eq _ _ _ _ _ Hr1),
      (bind_ok_eq _ _ _ _ _ Hr2), (bind_ok_eq _ _ _ _ _ Hr3).
    unfold bind at 1. rewrite Hr4.
    rewrite (bind_ok_eq _ _ _ _ _
               (createHasMany_skipped k d this data' no_children w4 i4 errors Hi4 Hp4)).
    rewrite (bind_ok_eq _ _ _ _ _
               (createHasOne_skipped k d this data' no_children w4 i4 errors Hi4 Hp4)).
    reflexivity. }
  exists errors.
  exists (if match e with None => true | Some _ => false end
             && negb (Nat.eqb (length errors) 0)
          then w4
          else with_bus (bus w4 ++ [(VStr "registry:add", RegistryPayload this)]) w4).
  exists i4. split.
  { etransitivity; [exact Hrest|].
    destruct (_ && _); reflexivity. }
  split.
  { destruct (_ && _); exact Hi4. }
  conjuncts; auto.
  - eapply declared_all_kept; eauto.
  - intros name definition t Hf [Ht Hv]. destruct (Hfield _ _ Hf) as [Hf' Ha].
    rewrite <- Ha. apply Hviol; auto. split; auto. intros w5. rewrite Ha. apply Hv.
  - intros name definition Hf Hacc. destruct (Hfield _ _ Hf) as [Hf' Ha].
    rewrite <- Ha. apply Hst; auto. intros t w5 Ht. rewrite Ha. now apply Hacc.
  - intros Hall. apply Hcl. intros name definition Hf'.
    destruct (Hfield' _ _ Hf') as [Hf Ha]. intros t w5 Ht. rewrite Ha. now apply (Hall _ _ Hf).
  - now rewrite Hidst, Hidv.
Qed.

(** ** The aggregate *)

Lemma bind_cases {A B} (m : M A) (f : A -> M B) w o w' :
  bind m f w = (o, w') ->
  (exists a w1, m w = (Ok a, w1) /\ f a w1 = (o, w'))
  \/ (exists e, m w = (Throw e, w') /\ o = Throw e)
  \/ (m w = (OutOfFuel, w') /\ o = OutOfFuel).
Proof.
  unfold bind. destruct (m w) as [[a|e|] w1]; intros H.
  - left. eauto.
  - right. left. injection H as <- <-. eauto.
  - right. right. injection H as <- <-. auto.
Qed.

(** What a top-level construction owes to a violation: it does not return,
    and when it throws its own aggregate, the violation is in it.  (It may
    throw something else: what an assignment outside the try block threw,
    or the aggregate of another construction.) *)
Definition collects {A} (this : ref) (violation : error) (o : outcome A) : Prop :=
  match o with
  | Ok _ => False
  | Throw (Errors owner errors) => owner = this -> In violation errors
  | _ => True
  end.

Lemma collects_bare {A B} (this : ref) violation (m : M A) w e w1 :
  sound (S this) m -> this < length (heap w) ->
  m w = (Throw e, w1) -> collects this violation (@Throw B e).
Proof.
  intros Hm Hlt H. destruct (Hm w Hlt) as [_ He]. rewrite H in He. simpl in He.
  destruct e as [t v|msg|owner errors]; simpl; auto.
  intros ->. specialize (He _ _ eq_refl). lia.
Qed.

Lemma stable_of_sound {A} (m : M A) w o w1 :
  sound 0 m -> m w = (o, w1) -> stable w w1.
Proof.
  intros Hm H. destruct (Hm w (Nat.le_0_l _)) as [Hs _]. now rewrite H in Hs.
Qed.

Section Collects.

Variable k : api.
Hypothesis k_sound : api_sound k.
Hypothesis k_extends : api_extends k.

Variables (d : defn) (this : ref) (data : list (string * value)).

Hypothesis declared :
  forall name definition,
    In (name, definition) (entries (properties d)) ->
    declared_setter (p_set definition) = true.

(** Assigning an invalid value through its accessor throws the violation. *)
Lemma put_violation w name definition t :
  dict_get name (own_of w this) = Some (Accessor definition true) ->
  declared_setter (p_set definition) = true ->
  violates data definition name t ->
  exists w',
    put k this name (dict_get_value name data) w
    = (Throw (TypeViolation t (assigned data definition name)), w').
Proof.
  intros Hacc Hs [Ht Hv].
  destruct (call_set_declared k (Some this) (p_set definition) (dict_get_value name data) w Hs)
    as (evs & Hc & _).
  eexists. unfold put. rewrite bind_gets, Hacc, (bind_ok_eq _ _ _ _ _ Hc).
  apply set_violation; [exact Ht | apply Hv].
Qed.

Definition installed (w : world) : Prop :=
  forall name definition,
    field d data name definition ->
    dict_get name (own_of w this) = Some (Accessor definition true).

Lemma installed_stable w w' : installed w -> stable w w' -> installed w'.
Proof. intros H [_ Hs] name definition Hf. apply Hs. now apply H. Qed.

(** The forEach of updateProperties never throws, and when it returns the
    sink holds the violation of every invalid field it went over. *)
Lemma populate_collects (names : list string) :
  forall w errors r w',
    installed w ->
    forEach_with names (populate k this data) errors w = (r, w') ->
    match r with
    | Ok errors' =>
        stable w w'
        /\ (exists more, errors' = errors ++ more)
        /\ forall name definition t,
             In name names -> field d data name definition ->
             violates data definition name t ->
             In (TypeViolation t (assigned data definition name)) errors'
    | Throw _ => False
    | OutOfFuel => True
    end.
Proof.
  induction names as [|name names IH]; intros w errors r w' Hin H.
  - injection H as <- <-. conjuncts.
    + apply stable_refl.
    + exists []. now rewrite app_nil_r.
    + contradiction.
  - rewrite forEach_with_cons in H.
    assert (Hstep : forall errors1 w1,
              stable w w1 -> (exists more, errors1 = errors ++ more) ->
              (forall definition t,
                  field d data name definition -> violates data definition name t ->
                  In (TypeViolation t (assigned data definition name)) errors1) ->
              forEach_with names (populate k this data) errors1 w1 = (r, w') ->
              match r with
              | Ok errors' =>
                  stable w w'
                  /\ (exists more, errors' = errors ++ more)
                  /\ forall name0 definition t,
                       In name0 (name :: names) -> field d data name0 definition ->
                       violates data definition name0 t ->
                       In (TypeViolation t (assigned data definition name0)) errors'
              | Throw _ => False
              | OutOfFuel => True
              end).
    { intros errors1 w1 Hs1 (more1 & E1) Hv1 Hrest.
      specialize (IH w1 errors1 r w' (installed_stable _ _ Hin Hs1) Hrest).
      destruct r as [errors'|e|]; auto.
      destruct IH as (Hs' & (more & Em) & Hall). conjuncts.
      - eapply stable_trans; eauto.
      - exists (more1 ++ more). now rewrite Em, E1, app_assoc.
      - intros name0 definition t [<-|Hn] Hf Hv.
        + rewrite Em. apply in_or_app. left. now apply Hv1.
        + now apply Hall. }
    unfold populate at 1 in H.
    destruct (hasOwnKey name data) eqn:Hk.
    2:{ apply (Hstep errors w); auto using stable_refl.
        - exists []. now rewrite app_nil_r.
        - intros definition t (_ & _ & _ & Hk') _. congruence. }
    rewrite try_catch_put in H.
    destruct (put k this name (dict_get_value name data) w) as [[[]|e|] w1] eqn:Hput.
    + apply (Hstep errors w1); auto.
      * eapply stable_of_sound; [|exact Hput]. now apply sound_put.
      * exists []. now rewrite app_nil_r.
      * intros definition t Hf Hv.
        destruct (put_violation w name definition t) as (w2 & Hthrow); auto.
        { destruct Hf as (Hget & _). eapply declared. apply dict_get_In. eauto. }
        congruence.
    + apply (Hstep (errors ++ [e]) w1); auto.
      * eapply stable_of_sound; [|exact Hput]. now apply sound_put.
      * now exists [e].
      * intros definition t Hf Hv.
        destruct (put_violation w name definition t) as (w2 & Hthrow); auto.
        { destruct Hf as (Hget & _). eapply declared. apply dict_get_In. eauto. }
        rewrite Hput in Hthrow. injection Hthrow as -> _.
        apply in_or_app. right. now left.
    + now injection H as <- _.
Qed.

Lemma enumerable_keys_In w name definition :
  dict_get name (own_of w this) = Some (Accessor definition true) ->
  In name (enumerable_keys w this).
Proof.
  intros H. unfold enumerable_keys, keys. apply in_map_iff.
  exists (name, Accessor definition true). split; auto.
  apply filter_In. split; auto. now apply dict_get_In.
Qed.

(** What __init__ does once the accessors are installed. *)
Definition fill (e : option (list error)) : M (list error) :=
  do errors <- updateProperties k this data
                 (match e with None => [] | Some errors => errors end);
  do errors <- createHasMany k this data errors;
  do errors <- createHasOne k this data errors;
  if (match e with None => true | Some _ => false end)
     && negb (Nat.eqb (length errors) 0)
  then throw (Errors this errors)
  else
    process_emit (VStr "registry:add") (RegistryPayload this) ;;
    ret errors.

Lemma fill_collects w o w' name definition t :
  this < length (heap w) -> installed w ->
  fill None w = (o, w') ->
  field d data name definition -> violates data definition name t ->
  collects this (TypeViolation t (assigned data definition name)) o.
Proof.
  intros Hlt Hin H Hf Hv. unfold fill in H.
  apply bind_cases in H as [(errors1 & w1 & H1 & H)|[(e & H1 & ->)|[H1 ->]]]; [| |exact I].
  2:{ eapply collects_bare; [|exact Hlt|exact H1]. now apply sound_updateProperties. }
  (* the properties *)
  rewrite updateProperties_populate in H1.
  apply bind_Ok in H1 as (u & w0 & Hid & H1). rewrite bind_gets in H1.
  assert (Hs0 : stable w w0).
  { eapply stable_of_sound; [|exact Hid]. now apply sound_put. }
  pose proof (populate_collects _ _ _ _ _ (installed_stable _ _ Hin Hs0) H1)
    as (Hs1 & _ & Hall).
  assert (Hviol : In (TypeViolation t (assigned data definition name)) errors1).
  { apply Hall; auto. eapply enumerable_keys_In.
    apply (installed_stable _ _ Hin Hs0). exact Hf. }
  assert (Hlt1 : this < length (heap w1)).
  { destruct Hs0, Hs1. lia. }
  (* the relationships *)
  apply bind_cases in H as [(errors2 & w2 & H2 & H)|[(e & H2 & ->)|[H2 ->]]]; [| |exact I].
  2:{ eapply collects_bare; [|exact Hlt1|exact H2]. now apply sound_createHasMany. }
  destruct (createHasMany_extends k k_extends _ _ _ _ _ _ H2) as (m2 & ->).
  assert (Hlt2 : this < length (heap w2)).
  { assert (Hs2 : stable w1 w2).
    { eapply stable_of_sound; [|exact H2]. now apply sound_createHasMany. }
    destruct Hs2. lia. }
  apply bind_cases in H as [(errors3 & w3 & H3 & H)|[(e & H3 & ->)|[H3 ->]]]; [| |exact I].
  2:{ eapply collects_bare; [|exact Hlt2|exact H3]. now apply sound_createHasOne. }
  destruct (createHasOne_extends k k_extends _ _ _ _ _ _ H3) as (m3 & ->).
  (* the check of the sink *)
  assert (Hviol3 : In (TypeViolation t (assigned data definition name))
                      ((errors1 ++ m2) ++ m3)).
  { apply in_or_app. left. apply in_or_app. now left. }
  destruct ((errors1 ++ m2) ++ m3) as [|err errs] eqn:E; [contradiction|].
  simpl in H. injection H as <- _. simpl. auto.
Qed.

End Collects.

(** A raw value for an enumerable declared property that has its accessor,
    other than the id, which fails its declared type once the declaration's
    [set] is applied. *)
Definition invalid_field (d : defn) (data : list (string * value)) (name : string)
    (definition : decl) (t : type) : Prop :=
  name <> "id" /\ field d data name definition /\ violates data definition name t.


Definition invalid_fields : list (string * value) :=
  [("id", VStr "id"); ("stringTest", VNum 10); ("numberTest", VStr "x")].


(** The example of the specification: two invalid fields, one aggregate of
    exactly two violations, in declaration order. *)
Example two_invalid_fields :
  fst (init (engine 0) Model
         (VObj [("stringTest", VNum 10); ("numberTest", VStr "x")]) None empty_world)
  = Throw (Errors 0 [TypeViolation TString (VNum 10); TypeViolation TNumber (VStr "x")]).
Proof. reflexivity. Qed.

(** The violation of an id escapes the aggregate: updateProperties assigns
    [model.id] outside its try block. *)
Example invalid_id_is_thrown_alone :
  fst (init (engine 0) Model
         (VObj [("id", VNum 10); ("stringTest", VNum 10)]) None empty_world)
  = Throw (TypeViolation TString (VNum 10)).
Proof. reflexivity. Qed.

(** Relationship entries and an observed key beside the invalid fields: the
    aggregate holds the two violations all the same. *)
Example invalid_fields_beside_children :
  fst (init (engine 2) Model
         (VObj [("stringTest", VNum 10); ("anyTest", VNum 100);
                ("children", VArr 0 [VObj [("name", VStr "si")]]);
                ("onInit", VObj [("name", VStr "christos")]);
                ("numberTest", VStr "x")]) None empty_world)
  = Throw (Errors 0 [TypeViolation TString (VNum 10); TypeViolation TNumber (VStr "x")]).
Proof. reflexivity. Qed.

(** ** Assigning a has-one relationship *)

(** The accessor that initHasOne installed hands an instance of the
    relation to [set] as it is, and anything else to the constructor of the
    relation first, as a top-level call. *)
Lemma put_has_one k w model name relation enumerable v :
  dict_get name (own_of w model) = Some (Accessor (has_one_decl relation) enumerable) ->
  put k model name v w
  = if typeOf w (TModel relation) v
    then set k model name (has_one_decl relation) v w
    else match k_init k relation v None w with
         | (Ok (child, _), w1) => set k model name (has_one_decl relation) (VInst child) w1
         | (Throw e, w1) => (Throw e, w1)
         | (OutOfFuel, w1) => (OutOfFuel, w1)
         end.
Proof.
  intros Hacc. unfold put. rewrite bind_gets, Hacc. simpl p_set.
  unfold call_set, bind at 1. rewrite bind_gets.
  destruct (typeOf w (TModel relation) v); [reflexivity|].
  unfold bind. now destruct (k_init k relation v None w) as [[[child errors]|e|] w1].
Qed.

Lemma typeOf_constructed w relation child c :
  heap w !! child = Some c -> proto c = relation ->
  typeOf w (TModel relation) (VInst child) = true.
Proof. intros Hc Hp. simpl. rewrite Hc, Hp. simpl. now rewrite String.eqb_refl. Qed.

(** A raw record that the constructor of a definition takes without
    error: a plain construction in which every field satisfies its declared
    type. *)
Definition accepted_record (d : defn) (fields : list (string * value)) : Prop :=
  declares_setters d = true
  /\ dict_get "id" (entries (properties d)) = Some id_decl
  /\ plain_construction d fields = true
  /\ forall name definition, field d fields name definition -> accepts fields definition name.


Definition sample_after_world : world :=
  Eval vm_compute in
    snd (put (engine 2) 0 "afterInit" (VObj [("name", VStr "si-after")]) sample_world).


(** * Reading, writing and synchronising properties *)

(** ** What an assignment stores *)

Lemma put_reads_back (n : nat) w model i name definition enumerable v w' :
  heap w !! model = Some i ->
  observers_bound i = true ->
  dict_get name (own i) = Some (Accessor definition enumerable) ->
  declared_setter (p_set definition) = true ->
  ~ In name (targets i) ->
  put (engine n) model name v w = (Ok tt, w') ->
  read w' model name = getter definition (transformed (p_set definition) v).
Proof.
  intros Hi Hb Hacc Hs Hn H.
  destruct (put_declared n w model i name definition enumerable v _ w' Hi Hacc Hs H)
    as (evs0 & _ & Hi1 & Hset).
  destruct (set_outcome n _ model i name definition enumerable _ w' Hi1 Hb Hacc Hset)
    as (_ & (i' & Hi' & Hs' & Hd) & _).
  unfold read, own_of, data_of, dict_get_value. rewrite Hi'.
  destruct Hs' as (_ & -> & _). rewrite Hacc, (Hd Hn). reflexivity.
Qed.


Lemma read_same_shape w w' model i i' key :
  heap w !! model = Some i -> heap w' !! model = Some i' ->
  own i' = own i -> _dropsync i' = _dropsync i ->
  dict_get key (_data i') = dict_get key (_data i) ->
  read w' model key = read w model key.
Proof.
  intros Hi Hi' Ho Hd Hk. unfold read, own_of, data_of, dropsync_of, dict_get_value.
  now rewrite Hi, Hi', Ho, Hd, Hk.
Qed.


(** The world after [set] has stored [v] under [name] and logged the local
    event, and the one after it has emitted the sync event. *)
Definition stored (model : ref) (name : string) (v : value) (w : world) : world :=
  with_emitted (emitted w ++ [(model, name, v)])
    (update_instance model (fun i => with_data (dict_set name v (_data i)) i) w).

Definition announced (model : ref) (name : string) (v : value) (w : world) : world :=
  with_bus (bus w ++ [(VStr "sync", SyncPayload model (read w model "id") name v)]) w.

Lemma set_unwatched k model name definition v w i :
  heap w !! model = Some i ->
  List.filter (fun l => fst l =? name) (listeners i) = [] ->
  (forall t, p_type definition = Some t -> typeOf w t v = true) ->
  descriptor_accepted (_data i) = true ->
  set k model name definition v w
  = (Ok tt, if p_sync definition && negb (_dropsync i)
            then announced model name v (stored model name v w)
            else stored model name v w).
Proof.
  intros Hi Hq Hok Hda. unfold set.
  rewrite (bind_ok_eq _ _ w tt w).
  2:{ destruct (p_type definition) as [t|]; auto. unfold enforce. now rewrite (Hok t). }
  rewrite (bind_ok_eq _ _ w tt w).
  2:{ unfold redefine_data, data_of. now rewrite Hi, Hda. }
  unfold bind at 1, store, modify.
  set (w1 := update_instance model _ w).
  pose proof (update_instance_lookup model
                (fun i => with_data (dict_set name v (_data i)) i) w i Hi) as Hi1.
  fold w1 in Hi1.
  rewrite (bind_ok_eq _ _ w1 tt (stored model name v w)).
  2:{ apply emit_quiet. unfold listeners_of. now rewrite Hi1. }
  rewrite bind_gets.
  assert (Hd : dropsync_of (stored model name v w) model = _dropsync i).
  { unfold dropsync_of, stored. simpl. unfold w1 in Hi1. simpl in Hi1. now rewrite Hi1. }
  rewrite Hd. destruct (p_sync definition); simpl; [|reflexivity].
  destruct (_dropsync i); simpl; reflexivity.
Qed.

(** The edit event that the declaration's [set] emits, if it does. *)
Definition edit_events (w : world) (this : option ref) (s : option setter) (v : value)
    : list (value * payload) :=
  match s with
  | Some SetEdit => if truthy v then [(edit_event_of w this, EditPayload this)] else []
  | _ => []
  end.

Lemma call_set_exact k this s v w :
  declared_setter s = true ->
  call_set k this s v w
  = (Ok (transformed s v), with_bus (bus w ++ edit_events w this s v) w).
Proof.
  intros Hs. destruct s as [[f| |relation]|]; try discriminate; simpl.
  - rewrite app_nil_r. now destruct w.
  - unfold bind. destruct (truthy v); simpl.
    + reflexivity.
    + rewrite app_nil_r. now destruct w.
  - rewrite app_nil_r. now destruct w.
Qed.

Lemma put_unwatched k model name definition enumerable v w i :
  heap w !! model = Some i ->
  dict_get name (own i) = Some (Accessor definition enumerable) ->
  List.filter (fun l => fst l =? name) (listeners i) = [] ->
  (forall t, p_type definition = Some t -> typeOf w t (transformed (p_set definition) v) = true) ->
  descriptor_accepted (_data i) = true ->
  declared_setter (p_set definition) = true ->
  put k model name v w
  = (Ok tt,
     let v' := transformed (p_set definition) v in
     let w0 := with_bus (bus w ++ edit_events w (Some model) (p_set definition) v) w in
     if p_sync definition && negb (_dropsync i)
     then announced model name v' (stored model name v' w0)
     else stored model name v' w0).
Proof.
  intros Hi Hacc Hq Hok Hda Hs.
  unfold put. rewrite bind_gets. unfold own_of. rewrite Hi, Hacc.
  rewrite (bind_ok_eq _ _ _ _ _ (call_set_exact k (Some model) _ v w Hs)).
  now apply (set_unwatched k model name definition _ _ i).
Qed.

(** model.emit(name, ...): the event is logged, then the listeners for
    [name] run in the order of their registration. *)
Lemma emit_eq k model name v w :
  emit k model name v w
  = forEach (List.filter (fun l => fst l =? name) (listeners_of w model))
      (fun '(_, (target, o)) =>
         do this <- gets (fun w => read w model);
         match o this with
         | Some v' => k_put k model target v'
         | None => ret tt
         end)
      (with_emitted (emitted w ++ [(model, name, v)]) w).
Proof. reflexivity. Qed.

Lemma stored_lookup model name v w i :
  heap w !! model = Some i ->
  heap (stored model name v w) !! model
  = Some (with_data (dict_set name v (_data i)) i).
Proof.
  intros Hi.
  apply (update_instance_lookup model (fun i => with_data (dict_set name v (_data i)) i) w i Hi).
Qed.


Lemma descriptor_accepted_set name v (data : list (string * value)) :
  descriptor_name name = false ->
  (forall key, hasOwnKey key data = true -> descriptor_name key = false) ->
  forall key, hasOwnKey key (dict_set name v data) = true -> descriptor_name key = false.
Proof.
  intros Hn H key Hk. apply hasOwnKey_set in Hk as [Hk| ->]; auto.
Qed.


Lemma put_throws_in_place k model name definition enumerable v w i e w' :
  heap w !! model = Some i ->
  dict_get name (own i) = Some (Accessor definition enumerable) ->
  declared_setter (p_set definition) = true ->
  descriptor_accepted (_data i) = false ->
  put k model name v w = (e, w') ->
  heap w' = heap w /\ emitted w' = emitted w
  /\ ((exists t, p_type definition = Some t
                 /\ e = Throw (TypeViolation t (transformed (p_set definition) v)))
      \/ e = Throw (TypeError "Cannot redefine property: _data")).
Proof.
  intros Hi Hacc Hs Hda H.
  unfold put in H. rewrite bind_gets in H. unfold own_of in H. rewrite Hi, Hacc in H.
  rewrite (bind_ok_eq _ _ _ _ _ (call_set_exact k (Some model) _ v w Hs)) in H.
  set (w0 := with_bus _ w) in H. set (v' := transformed _ v) in *.
  unfold set in H.
  destruct (p_type definition) as [t|] eqn:Ht.
  - destruct (typeOf w0 t v') eqn:Hv.
    + rewrite (bind_ok_eq _ _ w0 tt w0) in H by (unfold enforce; now rewrite Hv).
      rewrite (bind_throw_eq _ _ w0 (TypeError "Cannot redefine property: _data") w0) in H.
      2:{ unfold redefine_data, data_of. change (heap w0) with (heap w). now rewrite Hi, Hda. }
      injection H as <- <-. auto.
    + rewrite (bind_throw_eq _ _ w0 (TypeViolation t v') w0) in H
        by (unfold enforce; now rewrite Hv).
      injection H as <- <-. repeat split. left. eauto.
  - rewrite (bind_ok_eq _ _ w0 tt w0) in H by reflexivity.
    rewrite (bind_throw_eq _ _ w0 (TypeError "Cannot redefine property: _data") w0) in H.
    2:{ unfold redefine_data, data_of. change (heap w0) with (heap w). now rewrite Hi, Hda. }
    injection H as <- <-. auto.
Qed.


Lemma read_with_dropsync w this b key :
  key <> "_dropsync" \/ hasOwnKey key (own_of w this) = true ->
  read (update_instance this (with_dropsync b) w) this key = read w this key.
Proof.
  intros Hk. unfold read, own_of, data_of, dropsync_of, update_instance. simpl.
  destruct (heap w !! this) as [i|] eqn:Hi.
  - rewrite list_lookup_alter_eq, Hi. simpl.
    destruct (dict_get key (own i)) as [[d e|x]|] eqn:E; auto.
    destruct Hk as [Hk|Hk].
    + apply String.eqb_neq in Hk. now rewrite Hk.
    + unfold own_of, hasOwnKey in Hk. rewrite Hi, E in Hk. discriminate.
  - rewrite list_lookup_alter_eq, Hi. reflexivity.
Qed.

(** After an assignment through an accessor has returned, reading the
    property gives the declaration's [get] applied to what its [set] made
    of the assigned value, provided no observer of the instance assigns the
    same property. *)
Theorem read_after_assignment (n : nat) (w : world) (model : ref) (i : instance)
    (name : string) (definition : decl) (enumerable : bool) (v : value) (w' : world) :
  heap w !! model = Some i ->
  observers_bound i = true ->
  dict_get name (own i) = Some (Accessor definition enumerable) ->
  declared_setter (p_set definition) = true ->
  ~ In name (targets i) ->
  put (engine n) model name v w = (Ok tt, w') ->
  read w' model name = getter definition (transformed (p_set definition) v).
Proof. apply put_reads_back. Qed.

Definition sample_assigned_world : world :=
  Eval vm_compute in snd (put (engine 1) 0 "setTest" (VNum 2) sample_world).

Lemma read_after_assignment_witness :
  put (engine 1) 0 "setTest" (VNum 2) sample_world = (Ok tt, sample_assigned_world)
  /\ read sample_assigned_world 0 "setTest" = VNum 200.
Proof.
  assert (H : put (engine 1) 0 "setTest" (VNum 2) sample_world
              = (Ok tt, sample_assigned_world)) by reflexivity.
  split; [exact H|].
  destruct (dict_get "setTest" (own sample_model)) as [[definition enumerable|x]|] eqn:E;
    try discriminate.
  rewrite (read_after_assignment 1 sample_world 0 sample_model "setTest" definition
             enumerable (VNum 2) sample_assigned_world); auto.
  - vm_compute in E. injection E as <- _. reflexivity.
  - vm_compute in E. injection E as <- _. reflexivity.
  - simpl. intuition discriminate.
Defined.



(** Neither an assignment nor the application of an inbound payload writes
    an instance other than its own: when either returns or throws, every
    other instance that existed is as it was. *)
Theorem assignment_writes_one_instance (n : nat) (w : world) (model r : ref)
    (name : string) (v : value) (j : instance) :
  heap w !! r = Some j -> r <> model ->
  (forall o w', put (engine n) model name v w = (o, w') -> o <> OutOfFuel ->
                heap w' !! r = Some j)
  /\ (forall o w', sync (engine n) model name v w = (o, w') -> o <> OutOfFuel ->
                   heap w' !! r = Some j).
Proof.
  intros Hr Hne. pose proof (lookup_lt_Some _ _ _ Hr) as Hlt.
  split; intros o w' H _.
  - destruct (frame_put (engine n) (engine_framed n) (length (heap w)) model name v w
                (le_n _)) as [_ Ho _ _ _ _ _].
    rewrite H in Ho. simpl in Ho. rewrite Ho; auto. congruence.
  - destruct (frame_sync (engine n) (engine_framed n) (length (heap w)) model name v w
                (le_n _)) as [_ Ho _ _ _ _ _].
    rewrite H in Ho. simpl in Ho. rewrite Ho; auto. congruence.
Qed.

Definition sample_edited_world : world :=
  Eval vm_compute in snd (put (engine 1) 0 "edit" (VBool true) sample_world).

Definition sample_applied_world : world :=
  Eval vm_compute in snd (sync (engine 1) 0 "edit" (VBool true) sample_world).

Lemma assignment_writes_one_instance_witness :
  put (engine 1) 0 "edit" (VBool true) sample_world = (Ok tt, sample_edited_world)
  /\ heap sample_edited_world !! 1 = heap sample_world !! 1
  /\ sync (engine 1) 0 "edit" (VBool true) sample_world = (Ok tt, sample_applied_world)
  /\ heap sample_applied_world !! 1 = heap sample_world !! 1.
Proof.
  assert (Hp : put (engine 1) 0 "edit" (VBool true) sample_world
               = (Ok tt, sample_edited_world)) by reflexivity.
  assert (Hs : sync (engine 1) 0 "edit" (VBool true) sample_world
               = (Ok tt, sample_applied_world)) by reflexivity.
  destruct (heap sample_world !! 1) as [j|] eqn:E; [|discriminate].
  destruct (assignment_writes_one_instance 1 sample_world 0 1 "edit" (VBool true) j E)
    as [Hput Hsync]; [discriminate|].
  split; [exact Hp|]. split; [|split; [exact Hs|]].
  - apply (Hput _ _ Hp). discriminate.
  - apply (Hsync _ _ Hs). discriminate.
Defined.

(** A construction call that returns or throws has left every instance
    that existed as it was, has only added to the bus, and has logged local
    events of the instances it created alone; when it returns, the instance
    is the one just allocated and its prototype is the definition. *)
Theorem construction_writes_no_instance (n : nat) (definition : defn) (data : value)
    (e : option (list error)) (w : world) (o : outcome (ref * list error)) (w' : world) :
  init (engine n) definition data e w = (o, w') -> o <> OutOfFuel ->
  (forall r j, heap w !! r = Some j -> heap w' !! r = Some j)
  /\ (exists evs, bus w' = bus w ++ evs)
  /\ (exists evs, emitted w' = emitted w ++ evs
                  /\ forall r nm x, In (r, nm, x) evs -> length (heap w) <= r)
  /\ forall this errors, o = Ok (this, errors) ->
       this = length (heap w)
       /\ exists i, heap w' !! this = Some i /\ proto i = definition.
Proof.
  intros E _.
  destruct (frame_init (engine n) (engine_framed n) (length (heap w)) None definition data e w
              (le_n _)) as [_ Ho _ (evs & Eb & _) (evs' & Ee & Fe) _ _].
  rewrite E in Ho, Eb, Ee. simpl in Ho, Eb, Ee. repeat split.
  - intros r j Hr. rewrite Ho; auto. now apply lookup_lt_Some in Hr.
  - eauto.
  - exists evs'. split; auto. intros r nm x Hin.
    rewrite List.Forall_forall in Fe. specialize (Fe _ Hin). unfold emitted_origin in Fe.
    simpl in Fe. destruct (le_lt_dec (length (heap w)) r); auto.
    specialize (Fe l). discriminate.
  - subst o. now destruct (init_returns _ _ _ _ _ _ _ _ (engine_framed n) E).
  - subst o.
    destruct (init_returns _ _ _ _ _ _ _ _ (engine_framed n) E) as (_ & Hex & _). exact Hex.
Qed.

Definition sample_sibling_world : world :=
  Eval vm_compute in
    snd (init (engine 1) ChildModel (VObj [("name", VStr "tom")]) None sample_world).

Lemma construction_writes_no_instance_witness :
  init (engine 1) ChildModel (VObj [("name", VStr "tom")]) None sample_world
  = (Ok (length (heap sample_world), []), sample_sibling_world)
  /\ heap sample_sibling_world !! 0 = Some sample_model.
Proof.
  assert (H : init (engine 1) ChildModel (VObj [("name", VStr "tom")]) None sample_world
              = (Ok (length (heap sample_world), []), sample_sibling_world)) by reflexivity.
  split; [exact H|].
  destruct (construction_writes_no_instance 1 ChildModel (VObj [("name", VStr "tom")]) None
              sample_world _ _ H) as (Hkept & _); [discriminate|].
  now apply Hkept.
Defined.

(** ** The observer of Base *)

Definition edit_decl : decl :=
  Decl (Some TBoolean) (VBool false) false None (Some SetEdit) [] (Some false).

Definition locked_observer : observer := fun this => Some (this "edit").

Definition locked_decl : decl :=
  Decl (Some TBoolean) (VBool false) true None None [("edit", locked_observer)] (Some false).



(** ** A stored property named like a descriptor field *)

(** Once [_data] holds a property named get, set or value, every
    assignment through an accessor of the instance throws: either the
    violation of the declared type, or the TypeError of
    Object.defineProperty, which reads these names from [_data] as
    descriptor fields.  Nothing is stored and no local event is logged. *)
Theorem descriptor_field_blocks_assignment (k : api) (w : world) (model : ref)
    (i : instance) (field name : string) (definition : decl) (enumerable : bool)
    (v : value) :
  heap w !! model = Some i ->
  In field ["get"; "set"; "value"] ->
  hasOwnKey field (_data i) = true ->
  dict_get name (own i) = Some (Accessor definition enumerable) ->
  declared_setter (p_set definition) = true ->
  exists e w',
    put k model name v w = (Throw e, w')
    /\ heap w' = heap w /\ emitted w' = emitted w
    /\ ((exists t, p_type definition = Some t
                   /\ e = TypeViolation t (transformed (p_set definition) v))
        \/ exists msg, e = TypeError msg).
Proof.
  intros Hi Hf Hk Hacc Hs.
  assert (Hda : descriptor_accepted (_data i) = false).
  { unfold descriptor_accepted. simpl in Hf.
    destruct Hf as [<-|[<-|[<-|[]]]]; rewrite Hk; simpl;
      rewrite ?andb_false_r; reflexivity. }
  destruct (put k model name v w) as [o w'] eqn:H.
  destruct (put_throws_in_place k model name definition enumerable v w i o w' Hi Hacc Hs Hda H)
    as (Hh & He & [(t & Ht & ->)| ->]).
  - exists (TypeViolation t (transformed (p_set definition) v)), w'. repeat split; eauto.
  - eexists _, w'. repeat split; eauto.
Qed.

(** A definition with a property named [value]. *)
Definition Valued : defn :=
  extend Base (Extension "Valued" None (Some [("value", property)]) None None).

Definition valued_world : world :=
  Eval vm_compute in
    snd (init (engine 1) Valued (VObj [("id", VStr "v"); ("value", VNum 1)]) None
           empty_world).

Definition valued_model : instance :=
  Eval vm_compute in
    match heap valued_world !! 0 with
    | Some i => i
    | None => Instance Base [] [] false []
    end.

Lemma descriptor_field_blocks_assignment_witness :
  fst (init (engine 1) Valued (VObj [("id", VStr "v"); ("value", VNum 1)]) None empty_world)
  = Ok (0, [])
  /\ exists e w',
       put (engine 1) 0 "value" (VNum 2) valued_world = (Throw e, w')
       /\ read w' 0 "value" = VNum 1.
Proof.
  split; [reflexivity|].
  destruct (descriptor_field_blocks_assignment (engine 1) valued_world 0 valued_model
              "value" "value" property true (VNum 2))
    as (e & w' & Hput & Hh & _); try reflexivity.
  { simpl. auto. }
  exists e, w'. split; [exact Hput|].
  unfold read, own_of, data_of. rewrite Hh. reflexivity.
Defined.

(** ** Applying an inbound payload *)


Definition sample_remote_world : world :=
  Eval vm_compute in snd (sync (engine 1) 0 "stringTest" (VStr "remote") sample_world).



(** A definition with a property typed by a model definition. *)
Definition Owner : defn :=
  extend Base
    (Extension "Owner" None
       (Some [("pet", Decl (Some (TModel ChildModel)) VUndef false None None [] None)])
       None None).

Definition owner_world : world :=
  Eval vm_compute in
    snd (init (engine 1) Owner (VObj [("id", VStr "owner")]) None empty_world).

Definition owner_model : instance :=
  Eval vm_compute in
    match heap owner_world !! 0 with
    | Some i => i
    | None => Instance Base [] [] false []
    end.

Definition owner_synced_world : world :=
  Eval vm_compute in
    snd (sync (engine 2) 0 "pet" (VObj [("name", VStr "rex")]) owner_world).


(** Modelled from the spec: the members that every object inherits from
    Object.prototype; [this.properties[name]] finds them where the
    definition declares no property of that name. *)
Definition object_member (name : string) : bool :=
  existsb (String.eqb name)
    ["constructor"; "hasOwnProperty"; "isPrototypeOf"; "propertyIsEnumerable";
     "toLocaleString"; "toString"; "valueOf"; "__proto__"; "__defineGetter__";
     "__defineSetter__"; "__lookupGetter__"; "__lookupSetter__"].

(** An inbound payload for a name that is no declared property (a
    relationship, or no property at all; the names of Object.prototype's
    members apart) throws a TypeError before anything is assigned: the
    instance is left with [_dropsync] set and is otherwise as it was, and
    nothing else changes. *)
Theorem sync_of_undeclared_property (k : api) (w : world) (this : ref) (i : instance)
    (property : string) (v : value) :
  heap w !! this = Some i ->
  dict_get property (properties (proto i)) = None ->
  object_member property = false ->
  exists msg w',
    sync k this property v w = (Throw (TypeError msg), w')
    /\ heap w' !! this = Some (with_dropsync true i)
    /\ (forall r, r <> this -> heap w' !! r = heap w !! r)
    /\ bus w' = bus w /\ emitted w' = emitted w /\ collections w' = collections w.
Proof.
  intros Hi Hnone _. eexists _, (update_instance this (with_dropsync true) w).
  pose proof (update_instance_lookup this (with_dropsync true) w i Hi) as Hi1.
  split; [|split; [exact Hi1|split; [|auto]]].
  - unfold sync, bind at 1, set_dropsync, modify. rewrite bind_gets.
    unfold model_properties. rewrite Hi1.
    change (proto (with_dropsync true i)) with (proto i). now rewrite Hnone.
  - intros r Hr. unfold update_instance. simpl. apply list_lookup_alter_ne. congruence.
Qed.

Lemma sync_of_undeclared_property_witness :
  exists msg w',
    sync (engine 0) 0 "children" (VArr 0 []) sample_world = (Throw (TypeError msg), w')
    /\ dropsync_of w' 0 = true.
Proof.
  destruct (sync_of_undeclared_property (engine 0) sample_world 0 sample_model "children"
              (VArr 0 [])) as (msg & w' & Hrun & Hi & _); try reflexivity.
  exists msg, w'. split; [exact Hrun|]. unfold dropsync_of. now rewrite Hi.
Defined.

(** ** Definitions derived from Base *)

Inductive derived_from_Base : defn -> Prop :=
| derived_directly definition : derived_from_Base (extend Base definition)
| derived_further this definition :
    derived_from_Base this -> derived_from_Base (extend this definition).

Lemma entries_no_length {A} (d : dict A) : dict_get "length" (entries d) = None.
Proof.
  unfold entries. destruct (hasOwnKey "length" d) eqn:E; [reflexivity|].
  unfold hasOwnKey in E. now destruct (dict_get "length" d).
Qed.

Lemma merge_no_length {A} (derived : option (dict A)) (base : dict A) :
  hasOwnKey "length" (merge derived base) = false.
Proof.
  unfold hasOwnKey. rewrite (merge_visited derived base "length").
  destruct derived as [d|]; simpl; now rewrite ?entries_no_length.
Qed.

Lemma merge_inherits {A} (derived : option (dict A)) (base : dict A) (key : string) :
  hasOwnKey "length" base = false -> hasOwnKey key base = true ->
  hasOwnKey key (merge derived base) = true.
Proof.
  intros Hl Hk. unfold hasOwnKey at 1. rewrite (merge_visited derived base key).
  destruct (dict_get key match option_map entries derived with Some d => d | None => [] end);
    [reflexivity|].
  unfold entries. rewrite Hl. exact Hk.
Qed.

(** Every definition derived from Base, at any depth and whatever the
    extensions declare, has the properties [id], [edit] and [locked], has
    no property named [length], and has Base among its ancestors, which is
    what [sync] tests before it constructs an inbound value. *)
Theorem derived_definitions_inherit_Base (d : defn) :
  derived_from_Base d ->
  hasOwnKey "id" (properties d) = true
  /\ hasOwnKey "edit" (properties d) = true
  /\ hasOwnKey "locked" (properties d) = true
  /\ hasOwnKey "length" (properties d) = false
  /\ is_model_type (Some (TModel d)) = true.
Proof.
  induction 1 as [definition|this definition Hd (Hid & He & Hl & Hn & Hm)].
  - repeat split; try (apply merge_inherits; reflexivity). apply merge_no_length.
  - repeat split; try (now apply merge_inherits); try apply merge_no_length.
    unfold is_model_type in *.
    change (ancestors (extend this definition)) with (dname this :: ancestors this).
    cbn [existsb]. rewrite Hm. apply orb_true_r.
Qed.

Lemma derived_definitions_inherit_Base_witness :
  derived_from_Base Measured
  /\ hasOwnKey "locked" (properties Measured) = true
  /\ hasOwnKey "length" (properties Measured) = false
  /\ is_model_type (Some (TModel Measured)) = true.
Proof.
  assert (H : derived_from_Base Measured) by apply derived_directly.
  split; [exact H|].
  destruct (derived_definitions_inherit_Base Measured H) as (_ & _ & Hl & Hn & Hm).
  auto.
Defined.

(** ** What the constructor accepts and rejects *)



Lemma index_name_not_id (n : nat) : index_name n <> "id".
Proof. unfold index_name. destruct (Nat.to_uint n); discriminate. Qed.

Lemma indexed_no_id (xs : list value) : dict_get "id" (indexed xs) = None.
Proof.
  unfold indexed. rewrite dict_get_app.
  assert (H : forall s, dict_get "id" (combine (map index_name (seq s (length xs))) xs)
                        = None).
  { induction xs as [|x xs IH]; intros s; simpl; auto.
    destruct (String.eqb_spec (index_name s) "id") as [E|_]; [|apply IH].
    now apply index_name_not_id in E. }
  now rewrite H.
Qed.



(** A construction call that is given an error sink and returns hands the
    sink back with everything it held, in its order, followed by what the
    call collected: a nested call drops no error of its parent or of its
    siblings. *)
Theorem sink_only_grows (n : nat) (d : defn) (data : value) (errors : list error)
    (w : world) (this : ref) (errors' : list error) (w' : world) :
  init (engine n) d data (Some errors) w = (Ok (this, errors'), w') ->
  exists more, errors' = errors ++ more.
Proof. apply init_extends. apply engine_extends. Qed.

Lemma sink_only_grows_witness :
  exists more,
    fst (init (engine 0) ChildModel (VObj [("name", VNum 10)]) (Some [TypeError "earlier"])
           empty_world)
    = Ok (0, [TypeError "earlier"] ++ more)
    /\ more = [TypeViolation TString (VNum 10)].
Proof.
  destruct (init (engine 0) ChildModel (VObj [("name", VNum 10)]) (Some [TypeError "earlier"])
              empty_world) as [o w'] eqn:E.
  assert (Ho : o = Ok (0, [TypeError "earlier"; TypeViolation TString (VNum 10)])).
  { vm_compute in E. now injection E as <- _. }
  subst o.
  destruct (sink_only_grows 0 ChildModel _ _ _ _ _ _ E) as (more & Hmore).
  exists more. simpl fst. rewrite <- Hmore. split; [reflexivity|].
  now injection Hmore as <-.
Defined.

(** ** Accessors are installed once *)

(** No assignment and no construction replaces or removes an accessor:
    every accessor that an instance has before the call, it has after it
    with the same declaration, whatever the outcome. *)
Theorem accessors_are_kept (n : nat) (w : world) (r : ref) (key : string)
    (definition : decl) (enumerable : bool) :
  dict_get key (own_of w r) = Some (Accessor definition enumerable) ->
  (forall model name v,
      dict_get key (own_of (snd (put (engine n) model name v w)) r)
      = Some (Accessor definition enumerable))
  /\ (forall d data e,
        dict_get key (own_of (snd (init (engine n) d data e w)) r)
        = Some (Accessor definition enumerable)).
Proof.
  intros Hacc. destruct (engine_sound (S n)) as [Hput Hinit]. split.
  - intros model name v.
    destruct (Hput 0 model name v w (Nat.le_0_l _)) as [[_ Hs] _]. now apply Hs.
  - intros d data e.
    destruct (Hinit 0 d data e w (Nat.le_0_l _)) as [[_ Hs] _]. now apply Hs.
Qed.

Lemma accessors_are_kept_witness :
  dict_get "stringTest" (own_of sample_edited_world 0)
  = Some (Accessor (Decl (Some TString) VUndef false None None [] None) true)
  /\ dict_get "stringTest" (own_of sample_sibling_world 0)
     = Some (Accessor (Decl (Some TString) VUndef false None None [] None) true).
Proof.
  destruct (accessors_are_kept 1 sample_world 0 "stringTest"
              (Decl (Some TString) VUndef false None None [] None) true eq_refl)
    as [Hput Hinit].
  split.
  - exact (Hput 0 "edit" (VBool true)).
  - exact (Hinit ChildModel (VObj [("name", VStr "tom")]) None).
Defined.
